(** * Red-black tree insertion of [my_red_black_tree.py]

    A shallow embedding of [RBNode] and [RBTree] over an explicit object
    store.  Python objects live in a heap indexed by addresses, attribute
    reads and writes go through a small state-and-exception monad, and the
    two [while] loops of the source are fuelled fixpoints. *)

From Stdlib Require Import ZArith.
From stdpp Require Import gmap strings list fin_maps.

Local Open Scope Z_scope.

(** ** Data model *)

(** [class Color(Enum)]. *)
Inductive Color := RED | BLACK.

#[global] Instance Color_eq_dec : EqDecision Color.
Proof. solve_decision. Defined.

(** Object addresses.  A Python reference of type [Optional["RBNode"]] is
    either [None] or the address of a node object. *)
Abbreviation loc := positive.
Abbreviation ref := (option loc).

(** [class RBNode]: the five attributes set by [RBNode.__init__]. *)
Record RBNode := mkRBNode {
  value : option Z;
  color : Color;
  parent : ref;
  left : ref;
  right : ref
}.

(** The store: the node objects, and the attribute dictionary of the one
    [RBTree] instance [self]. *)
Record State := mkState {
  heap : gmap loc RBNode;
  self : gmap string ref
}.

(** ** Effects *)

Inductive exn :=
| AttributeError (name : string)
| TypeError.

(** A call returns, raises (the store keeps every write made before the
    raise), runs out of fuel, or follows an address that holds no object
    (which no Python program can do). *)
Inductive outcome (A : Type) :=
| Return (a : A) (s : State)
| Raise (e : exn) (s : State)
| OutOfFuel
| Dangling.
Arguments Return {A} a s.
Arguments Raise {A} e s.
Arguments OutOfFuel {A}.
Arguments Dangling {A}.

Definition M (A : Type) : Type := State -> outcome A.

#[global] Instance M_ret : MRet M := fun A a s => Return a s.

#[global] Instance M_bind : MBind M := fun A B k m s =>
  match m s with
  | Return a s' => k a s'
  | Raise e s' => Raise e s'
  | OutOfFuel => OutOfFuel
  | Dangling => Dangling
  end.

Definition raise {A} (e : exn) : M A := fun s => Raise e s.
Definition out_of_fuel {A} : M A := fun _ => OutOfFuel.

(** [self.name] *)
Definition self_attr (name : string) : M ref := fun s =>
  match self s !! name with
  | Some r => Return r s
  | None => Raise (AttributeError name) s
  end.

(** [self.name = r] *)
Definition set_self_attr (name : string) (r : ref) : M unit := fun s =>
  Return tt (mkState (heap s) (<[name := r]> (self s))).

(** Reading the object behind [r] in order to access its attribute [attr];
    [None.attr] raises [AttributeError]. *)
Definition load (r : ref) (attr : string) : M RBNode := fun s =>
  match r with
  | None => Raise (AttributeError attr) s
  | Some p =>
      match heap s !! p with
      | Some nd => Return nd s
      | None => Dangling
      end
  end.

Definition store (r : ref) (attr : string) (f : RBNode -> RBNode) : M unit := fun s =>
  match r with
  | None => Raise (AttributeError attr) s
  | Some p =>
      match heap s !! p with
      | Some nd => Return tt (mkState (<[p := f nd]> (heap s)) (self s))
      | None => Dangling
      end
  end.

Definition get_value (r : ref) : M (option Z) := nd ← load r "value"; mret (value nd).
Definition get_color (r : ref) : M Color := nd ← load r "color"; mret (color nd).
Definition get_parent (r : ref) : M ref := nd ← load r "parent"; mret (parent nd).
Definition get_left (r : ref) : M ref := nd ← load r "left"; mret (left nd).
Definition get_right (r : ref) : M ref := nd ← load r "right"; mret (right nd).

Definition with_color (c : Color) (nd : RBNode) : RBNode :=
  mkRBNode (value nd) c (parent nd) (left nd) (right nd).
Definition with_parent (q : ref) (nd : RBNode) : RBNode :=
  mkRBNode (value nd) (color nd) q (left nd) (right nd).
Definition with_left (q : ref) (nd : RBNode) : RBNode :=
  mkRBNode (value nd) (color nd) (parent nd) q (right nd).
Definition with_right (q : ref) (nd : RBNode) : RBNode :=
  mkRBNode (value nd) (color nd) (parent nd) (left nd) q.

Definition set_color (r : ref) (c : Color) : M unit := store r "color" (with_color c).
Definition set_parent (r q : ref) : M unit := store r "parent" (with_parent q).
Definition set_left (r q : ref) : M unit := store r "left" (with_left q).
Definition set_right (r q : ref) : M unit := store r "right" (with_right q).

(** [RBNode(value=..., color=..., parent=..., left=..., right=...)]: a new
    object at an address not yet in use. *)
Definition alloc (nd : RBNode) : M ref := fun s =>
  let p := fresh (dom (heap s)) in
  Return (Some p) (mkState (<[p := nd]> (heap s)) (self s)).

(** [a < b] and [a > b] on values: integers compare, [None] does not. *)
Definition value_lt (a : Z) (b : option Z) : M bool :=
  match b with
  | Some b => mret (a <? b)
  | None => raise TypeError
  end.
Definition value_gt (a : Z) (b : option Z) : M bool :=
  match b with
  | Some b => mret (a >? b)
  | None => raise TypeError
  end.

(** ** [RBTree.__init__] *)

Definition RBTree_init : M unit :=
  nil ← alloc (mkRBNode None BLACK None None None);
  set_self_attr "NIL" nil;;
  n ← self_attr "NIL"; t ← self_attr "NIL"; set_parent t n;;
  n ← self_attr "NIL"; t ← self_attr "NIL"; set_left t n;;
  n ← self_attr "NIL"; t ← self_attr "NIL"; set_right t n;;
  n ← self_attr "NIL"; set_self_attr "root" n.

(** ** [RBTree._rotate_left] and [RBTree._rotate_right] *)

Definition _rotate_left (pivot_parent : ref) : M unit :=
  pivot ← get_right pivot_parent;
  nil ← self_attr "nil";
  if decide (pivot = nil) then mret tt else
  pl ← get_left pivot;
  set_right pivot_parent pl;;
  pl ← get_left pivot;
  nil ← self_attr "nil";
  (if decide (pl ≠ nil) then
     pl ← get_left pivot; set_parent pl pivot_parent
   else mret tt);;
  pp ← get_parent pivot_parent;
  set_parent pivot pp;;
  pp ← get_parent pivot_parent;
  (if decide (pp = None) then
     set_self_attr "root" pivot
   else
     pp ← get_parent pivot_parent;
     ppl ← get_left pp;
     if decide (pivot_parent = ppl) then
       pp ← get_parent pivot_parent; set_left pp pivot
     else
       pp ← get_parent pivot_parent; set_right pp pivot);;
  set_left pivot pivot_parent;;
  set_parent pivot_parent pivot.

Definition _rotate_right (pivot_parent : ref) : M unit :=
  pivot ← get_left pivot_parent;
  nil ← self_attr "nil";
  if decide (pivot = nil) then mret tt else
  pr ← get_right pivot;
  set_left pivot_parent pr;;
  pr ← get_right pivot;
  nil ← self_attr "nil";
  (if decide (pr ≠ nil) then
     pr ← get_right pivot; set_parent pr pivot_parent
   else mret tt);;
  pp ← get_parent pivot_parent;
  set_parent pivot pp;;
  pp ← get_parent pivot_parent;
  (if decide (pp = None) then
     set_self_attr "root" pivot
   else
     pp ← get_parent pivot_parent;
     ppr ← get_right pp;
     if decide (pivot_parent = ppr) then
       pp ← get_parent pivot_parent; set_right pp pivot
     else
       pp ← get_parent pivot_parent; set_left pp pivot);;
  set_right pivot pivot_parent;;
  set_parent pivot_parent pivot.

(** ** [RBTree._insert_fixup] *)

Fixpoint _insert_fixup (fuel : nat) (node : ref) : M unit :=
  match fuel with
  | O => out_of_fuel
  | S fuel' =>
    p ← get_parent node;
    c ← get_color p;
    if decide (c = RED) then
      p ← get_parent node;
      g ← get_parent p;
      gl ← get_left g;
      if decide (p = gl) then
        p ← get_parent node; g ← get_parent p;
        uncle ← get_right g;
        uc ← get_color uncle;
        if decide (uc = RED) then
          p ← get_parent node; set_color p BLACK;;
          set_color uncle BLACK;;
          p ← get_parent node; g ← get_parent p; set_color g RED;;
          p ← get_parent node; g ← get_parent p;
          _insert_fixup fuel' g
        else
          p ← get_parent node;
          pr ← get_right p;
          node ← (if decide (node = pr) then
                    node ← get_parent node;
                    _rotate_left node;;
                    mret node
                  else mret node);
          p ← get_parent node; set_color p BLACK;;
          p ← get_parent node; g ← get_parent p; set_color g RED;;
          p ← get_parent node; g ← get_parent p; _rotate_right g;;
          _insert_fixup fuel' node
      else
        p ← get_parent node; g ← get_parent p;
        uncle ← get_left g;
        uc ← get_color uncle;
        if decide (uc = RED) then
          p ← get_parent node; set_color p BLACK;;
          set_color uncle BLACK;;
          p ← get_parent node; g ← get_parent p; set_color g RED;;
          p ← get_parent node; g ← get_parent p;
          _insert_fixup fuel' g
        else
          p ← get_parent node;
          pl ← get_left p;
          node ← (if decide (node = pl) then
                    node ← get_parent node;
                    _rotate_right node;;
                    mret node
                  else mret node);
          p ← get_parent node; set_color p BLACK;;
          p ← get_parent node; g ← get_parent p; set_color g RED;;
          p ← get_parent node; g ← get_parent p; _rotate_left g;;
          _insert_fixup fuel' node
    else
      root ← self_attr "root";
      set_color root BLACK
  end.

(** ** [RBTree.insert] *)

(** How the descent loop is left: by its condition turning false, with the
    tracked [parent], or by the [return] on an equal value. *)
Inductive descent := Attach (parent : ref) | Duplicate.

Fixpoint insert_descend (fuel : nat) (v : Z) (parent current : ref) : M descent :=
  match fuel with
  | O => out_of_fuel
  | S fuel' =>
    nil ← self_attr "NIL";
    if decide (current ≠ nil) then
      let parent := current in
      cv ← get_value current;
      lt ← value_lt v cv;
      if (lt : bool) then
        current ← get_left current;
        insert_descend fuel' v parent current
      else
        cv ← get_value current;
        gt ← value_gt v cv;
        if (gt : bool) then
          current ← get_right current;
          insert_descend fuel' v parent current
        else mret Duplicate
    else mret (Attach parent)
  end.

Definition insert (fuel : nat) (v : Z) : M unit :=
  l ← self_attr "NIL";
  r ← self_attr "NIL";
  new_node ← alloc (mkRBNode (Some v) RED None l r);
  parent ← self_attr "NIL";
  current ← self_attr "root";
  d ← insert_descend fuel v parent current;
  match d with
  | Duplicate => mret tt
  | Attach parent =>
    set_parent new_node parent;;
    nil ← self_attr "NIL";
    (if decide (parent = nil) then
       set_self_attr "root" new_node
     else
       pv ← get_value parent;
       lt ← value_lt v pv;
       if (lt : bool) then set_left parent new_node
       else set_right parent new_node);;
    _insert_fixup fuel new_node
  end.

(** ** Running the program *)

(** No object and no attribute yet. *)
Definition empty_store : State := mkState ∅ ∅.

(** [tree = RBTree()] *)
Definition new_tree : State :=
  match RBTree_init empty_store with
  | Return _ s => s
  | _ => empty_store
  end.

(** The store observed once a call has returned or raised. *)
Definition after {A} (o : outcome A) : option State :=
  match o with
  | Return _ s | Raise _ s => Some s
  | OutOfFuel | Dangling => None
  end.

(** [for v in values: tree.insert(v)]: the first exception ends the loop. *)
Fixpoint insert_all (fuel : nat) (values : list Z) : M unit :=
  match values with
  | [] => mret tt
  | v :: values => insert fuel v;; insert_all fuel values
  end.

(** The same loop run by a caller that catches what [insert] raises and
    carries on with the next value. *)
Fixpoint insert_all_caught (fuel : nat) (values : list Z) (s : State) : option State :=
  match values with
  | [] => Some s
  | v :: values => s' ← after (insert fuel v s); insert_all_caught fuel values s'
  end.

(** ** Observing a tree *)

(** The tree hanging below a reference, read off the store by following
    [left] and [right] until the sentinel. *)
Inductive tree := Leaf | Node (c : Color) (l : tree) (v : Z) (r : tree).

Fixpoint snapshot (fuel : nat) (h : gmap loc RBNode) (nil : loc) (r : ref) : option tree :=
  match fuel with
  | O => None
  | S fuel' =>
    p ← r;
    if decide (p = nil) then Some Leaf
    else
      nd ← h !! p;
      v ← value nd;
      l ← snapshot fuel' h nil (left nd);
      r ← snapshot fuel' h nil (right nd);
      Some (Node (color nd) l v r)
  end.

Definition sentinel (s : State) : option loc := mjoin (self s !! "NIL").

Definition tree_of (s : State) : option tree :=
  nil ← sentinel s;
  root ← self s !! "root";
  snapshot (S (size (heap s))) (heap s) nil root.

Definition sentinel_color (s : State) : option Color :=
  nil ← sentinel s; nd ← heap s !! nil; Some (color nd).

Fixpoint height (t : tree) : nat :=
  match t with
  | Leaf => 0
  | Node _ l _ r => S (Nat.max (height l) (height r))
  end.

Fixpoint inorder (t : tree) : list Z :=
  match t with
  | Leaf => []
  | Node _ l v r => inorder l ++ v :: inorder r
  end.

(** ** The invariants of the class docstring, as checks *)

Definition color_of (t : tree) : Color :=
  match t with
  | Leaf => BLACK
  | Node c _ _ _ => c
  end.

(** Rule 2: the root is black. *)
Definition root_black (t : tree) : bool := bool_decide (color_of t = BLACK).

(** Rule 3: the sentinel is black. *)
Definition sentinel_black (s : State) : bool := bool_decide (sentinel_color s = Some BLACK).

(** Rule 4: a red node has two black children. *)
Fixpoint no_red_red (t : tree) : bool :=
  match t with
  | Leaf => true
  | Node c l _ r =>
      (bool_decide (c = BLACK)
       || (bool_decide (color_of l = BLACK) && bool_decide (color_of r = BLACK)))
      && no_red_red l && no_red_red r
  end.

(** Rule 5: the number of black nodes on every path down to a sentinel,
    when it is the same on all of them. *)
Fixpoint black_height (t : tree) : option nat :=
  match t with
  | Leaf => Some 1%nat
  | Node c l _ r =>
      hl ← black_height l;
      hr ← black_height r;
      if decide (hl = hr) then Some (if decide (c = BLACK) then S hl else hl)
      else None
  end.

(** Ordering: the values read in order strictly increase. *)
Fixpoint increasing (l : list Z) : bool :=
  match l with
  | a :: (b :: _) as l' => (a <? b) && increasing l'
  | _ => true
  end.

Definition rb_invariants (s : State) : bool :=
  match tree_of s with
  | Some t =>
      root_black t && sentinel_black s && no_red_red t
      && bool_decide (is_Some (black_height t)) && increasing (inorder t)
  | None => false
  end.

(** ** Views and updates of the store *)

(** Attribute views of the store. *)
Definition value_of (s : State) (p : loc) : option (option Z) := value <$> heap s !! p.
Definition color_at (s : State) (p : loc) : option Color := color <$> heap s !! p.
Definition parent_of (s : State) (p : loc) : option ref := parent <$> heap s !! p.
Definition left_of (s : State) (p : loc) : option ref := left <$> heap s !! p.
Definition right_of (s : State) (p : loc) : option ref := right <$> heap s !! p.

(** The store after [p.color = c]. *)
Definition recolor (p : loc) (c : Color) (s : State) : State :=
  mkState (alter (with_color c) p (heap s)) (self s).

(** Two stores with the same tree object and the same objects up to the
    colors of the nodes. *)
Definition same_links (s s' : State) : Prop :=
  self s' = self s /\
  forall p, value_of s' p = value_of s p /\ parent_of s' p = parent_of s p /\
            left_of s' p = left_of s p /\ right_of s' p = right_of s p.

(** A computation that, started where the tree object has no attribute
    [nil], leaves every link and value as it found them. *)
Definition frames {A} (m : M A) : Prop :=
  forall s, self s !! "nil" = None ->
    match m s with
    | Return _ s' | Raise _ s' => same_links s s'
    | OutOfFuel | Dangling => True
    end.

(** ** Well-formed trees *)

(** The shape of a tree in the store: which object sits where, and the
    value it carries.  Colors are left out, they are read from the store. *)
Inductive shape := Tip | Fork (l : shape) (p : loc) (v : Z) (r : shape).

Fixpoint locs (t : shape) : list loc :=
  match t with
  | Tip => []
  | Fork l p _ r => locs l ++ p :: locs r
  end.

Fixpoint keys (t : shape) : list Z :=
  match t with
  | Tip => []
  | Fork l _ v r => keys l ++ v :: keys r
  end.

Fixpoint levels (t : shape) : nat :=
  match t with
  | Tip => 0
  | Fork l _ _ r => S (Nat.max (levels l) (levels r))
  end.

Definition top (nil : loc) (t : shape) : loc :=
  match t with
  | Tip => nil
  | Fork _ p _ _ => p
  end.

(** [rep s nil par r t]: the reference [r] is the root of a subtree of shape
    [t] whose root has [par] as its parent; absent children are [nil]. *)
Inductive rep (s : State) (nil : loc) : loc -> ref -> shape -> Prop :=
| rep_tip par : rep s nil par (Some nil) Tip
| rep_fork par p v pl pr l r :
    p ≠ nil ->
    value_of s p = Some (Some v) ->
    parent_of s p = Some (Some par) ->
    left_of s p = Some pl ->
    right_of s p = Some pr ->
    rep s nil p pl l ->
    rep s nil p pr r ->
    rep s nil par (Some p) (Fork l p v r).

(** A tree object as [RBTree.__init__] and [insert] build them: attributes
    [NIL] and [root] and no other, a sentinel whose links all lead to
    itself, and below [root] a finite tree without sharing. *)
Record wf (s : State) (nil : loc) (t : shape) : Prop := {
  wf_NIL : self s !! "NIL" = Some (Some nil);
  wf_no_nil : self s !! "nil" = None;
  wf_root : self s !! "root" = Some (Some (top nil t));
  wf_rep : rep s nil nil (Some (top nil t)) t;
  wf_sentinel_value : value_of s nil = Some None;
  wf_sentinel_parent : parent_of s nil = Some (Some nil);
  wf_sentinel_left : left_of s nil = Some (Some nil);
  wf_sentinel_right : right_of s nil = Some (Some nil);
  wf_nodup : NoDup (locs t)
}.

(** ** What [insert] does to a well-formed tree *)

(** Where the loop leaves a tree of shape [t], and after how many steps. *)
Fixpoint find_slot (v : Z) (par : loc) (t : shape) : descent :=
  match t with
  | Tip => Attach (Some par)
  | Fork l p w r =>
      if v <? w then find_slot v p l
      else if v >? w then find_slot v p r
      else Duplicate
  end.

Fixpoint search_depth (v : Z) (t : shape) : nat :=
  match t with
  | Tip => 0
  | Fork l _ w r =>
      if v <? w then S (search_depth v l)
      else if v >? w then S (search_depth v r)
      else 0
  end.

(** The store after an attribute of the object at [p] is rewritten by [f],
    and after a new object is created. *)
Definition update (p : loc) (f : RBNode -> RBNode) (s : State) : State :=
  mkState (alter f p (heap s)) (self s).

(** The address [alloc] picks next. *)
Definition new_loc (s : State) := fresh (dom (heap s)).

Definition allocated (nd : RBNode) (s : State) : State :=
  mkState (<[new_loc s := nd]> (heap s)) (self s).

Definition rebound (name : string) (r : ref) (s : State) : State :=
  mkState (heap s) (<[name := r]> (self s)).

(** All four link-and-value views of an object agree in two stores. *)
Definition same_node (s s' : State) (p : loc) : Prop :=
  value_of s' p = value_of s p /\ parent_of s' p = parent_of s p /\
  left_of s' p = left_of s p /\ right_of s' p = right_of s p.

(** The shape once [new] hangs where the descent for [v] fell off. *)
Fixpoint graft (v : Z) (new : loc) (t : shape) : shape :=
  match t with
  | Tip => Fork Tip new v Tip
  | Fork l p w r =>
      if v <? w then Fork (graft v new l) p w r
      else if v >? w then Fork l p w (graft v new r)
      else t
  end.

(** The object [insert] creates for [v]. *)
Definition new_node (v : Z) (nil : loc) : RBNode :=
  mkRBNode (Some v) RED None (Some nil) (Some nil).

(** The store in which [insert] starts the fixup, for a tree of shape [t]
    with sentinel [nil]. *)
Definition attached (s : State) (nil : loc) (t : shape) (v : Z) : State :=
  let new := new_loc s in
  let s0 := allocated (new_node v nil) s in
  match find_slot v nil t with
  | Attach (Some q) =>
      if decide (q = nil)
      then rebound "root" (Some new) (update new (with_parent (Some nil)) s0)
      else
        match value_of s q with
        | Some (Some w) =>
            update q (if v <? w then with_left (Some new) else with_right (Some new))
              (update new (with_parent (Some q)) s0)
        | _ => s0
        end
  | _ => s0
  end.

(** ** The objects of a tree and the stores a program reaches *)

(** The objects of a tree: the sentinel and the nodes of its shape. *)
Definition member (nil : loc) (t : shape) (p : loc) : Prop := p = nil \/ p ∈ locs t.

(** [tree = RBTree()] followed by calls of [tree.insert], each observed once
    it has returned or raised. *)
Inductive reachable : State -> Prop :=
| reachable_new : reachable new_tree
| reachable_insert s fuel v s' :
    reachable s -> after (insert fuel v s) = Some s' -> reachable s'.

(** The objects of the tree as a program finds them: start at [self.root]
    or [self.NIL] and follow [parent], [left] and [right]. *)
Inductive in_tree (s : State) : loc -> Prop :=
| in_tree_root p : self s !! "root" = Some (Some p) -> in_tree s p
| in_tree_NIL p : self s !! "NIL" = Some (Some p) -> in_tree s p
| in_tree_parent p q : in_tree s p -> parent_of s p = Some (Some q) -> in_tree s q
| in_tree_left p q : in_tree s p -> left_of s p = Some (Some q) -> in_tree s q
| in_tree_right p q : in_tree s p -> right_of s p = Some (Some q) -> in_tree s q.

(** ** Outcomes *)

(** [chain s nil p d]: following [parent] from [p] reaches the sentinel
    after [d] steps. *)
Inductive chain (s : State) (nil : loc) : loc -> nat -> Prop :=
| chain_nil : chain s nil nil 0
| chain_up p q d :
    p ≠ nil -> parent_of s p = Some (Some q) -> chain s nil q d ->
    chain s nil p (S d).

(** The loop has been left, by its condition or by the exception of a
    rotation. *)
Definition finished (o : outcome unit) : Prop :=
  exists s', o = Return tt s' \/ o = Raise (AttributeError "nil") s'.

(** The values of a shape are ordered as in a search tree. *)
Fixpoint bst (t : shape) : Prop :=
  match t with
  | Tip => True
  | Fork l _ v r =>
      bst l /\ bst r /\
      Forall (fun x => x < v) (keys l) /\ Forall (fun x => v < x) (keys r)
  end.

(** What a call leaves of the sentinel object, and of the color of the
    root when it returns. *)
Definition untouched (nil root : loc) (s : State) (o : outcome unit) : Prop :=
  match o with
  | Return _ s' => heap s' !! nil = heap s !! nil /\ color_at s' root = Some BLACK
  | Raise e s' => e = AttributeError "nil" /\ heap s' !! nil = heap s !! nil
  | OutOfFuel => True
  | Dangling => False
  end.

(** A run returned, raised [e], or was survived by a catching caller, and
    left a store with property [P]. *)
Definition returns {A} (o : outcome A) (P : State -> Prop) : Prop :=
  match o with
  | Return _ s => P s
  | _ => False
  end.

Definition raises {A} (o : outcome A) (e : exn) (P : State -> Prop) : Prop :=
  match o with
  | Raise e' s => e' = e /\ P s
  | _ => False
  end.

Definition caught (o : option State) (P : State -> Prop) : Prop :=
  match o with
  | Some s => P s
  | None => False
  end.

(** ** Stores used as examples *)

(** The store after [tree = RBTree()] and the inserts of 20, 10 and 25. *)
Definition three_nodes : State :=
  default new_tree (insert_all_caught 2 [20; 10; 25] new_tree).

(** Its shape: 20 at address 2 above 10 at 3 and 25 at 4; the sentinel has
    address 1. *)
Definition three_nodes_shape : shape :=
  Fork (Fork Tip 3%positive 10 Tip) 2%positive 20 (Fork Tip 4%positive 25 Tip).

(** [three_nodes] after the caller's [tree.nil = tree.NIL]: the attribute
    that the guards of the rotations read exists and names the sentinel. *)
Definition three_nodes_with_nil : State :=
  rebound "nil" (Some 1%positive) three_nodes.

(** What holds of the [parent] links of a tree. *)
Definition parents_set (s : State) : Prop :=
  exists nil root,
    self s !! "NIL" = Some (Some nil) /\
    self s !! "root" = Some (Some root) /\
    parent_of s nil = Some (Some nil) /\
    left_of s nil = Some (Some nil) /\
    right_of s nil = Some (Some nil) /\
    parent_of s root = Some (Some nil) /\
    (forall p, in_tree s p -> exists q, parent_of s p = Some (Some q)) /\
    (forall p, in_tree s p -> p ≠ nil -> p ≠ root ->
       exists q w, parent_of s p = Some (Some q) /\ q ≠ nil /\
                   in_tree s q /\ value_of s q = Some (Some w)).

(** The store after the inserts of 30, 20 and 10, the last of which raised. *)
Definition after_raise : State :=
  default new_tree (insert_all_caught 3 [30; 20; 10] new_tree).

(** The store after the inserts of 30, 20, 10, 40, 25 and 5 by a caller that
    catches the exceptions of the third and the fourth. *)
Definition red_sentinel : State :=
  default new_tree (insert_all_caught 4 [30; 20; 10; 40; 25; 5] new_tree).

(** ** Colors of a shape *)

(** The color the store gives an object, and the tree of colors and values
    that a shape stands for in a store. *)
Definition col (s : State) (p : loc) : Color := default BLACK (color_at s p).

Fixpoint paint (s : State) (t : shape) : tree :=
  match t with
  | Tip => Leaf
  | Fork l p v r => Node (col s p) (paint s l) v (paint s r)
  end.

(** ** More stores used as examples *)

(** The store after the six inserts of the example usage of the module. *)
Definition six_nodes : State :=
  default new_tree (after (insert_all 3 [20; 10; 25; 5; 15; 30] new_tree)).

(** ** The color rules on a shape *)

(** Rule 4 of the docstring read on a shape and a store: a red node has
    black children, the child [e] (if any) excepted.  The fixup loop keeps
    this with its working node as the exception. *)
Fixpoint nrr_but (e : option loc) (s : State) (nil : loc) (t : shape) : Prop :=
  match t with
  | Tip => True
  | Fork l p _ r =>
      nrr_but e s nil l /\ nrr_but e s nil r /\
      (col s p = RED ->
       (Some (top nil l) ≠ e -> col s (top nil l) = BLACK) /\
       (Some (top nil r) ≠ e -> col s (top nil r) = BLACK))
  end.

(** The rules 2 to 5 and the ordering, for a store that holds a tree of
    shape [t]. *)
Record red_black (s : State) (nil : loc) (t : shape) : Prop := {
  rb_wf : wf s nil t;
  rb_root : col s (top nil t) = BLACK;
  rb_sentinel : color_at s nil = Some BLACK;
  rb_red : nrr_but None s nil t;
  rb_black : is_Some (black_height (paint s t));
  rb_order : bst t
}.

(** What the fixup loop keeps true of the store and its working node [z]:
    the rules hold except that [z] is red and may have a red parent, and
    that the root may be red when it is [z] itself. *)
Record fixing (s : State) (nil : loc) (t : shape) (z : loc) : Prop := {
  fx_wf : wf s nil t;
  fx_sentinel : color_at s nil = Some BLACK;
  fx_black : is_Some (black_height (paint s t));
  fx_red : nrr_but (Some z) s nil t;
  fx_node : z ∈ locs t;
  fx_z : col s z = RED;
  fx_root : col s (top nil t) = BLACK \/ z = top nil t;
  fx_order : bst t
}.

(** The store after one more insert, of 5, into [three_nodes]. *)
Definition four_nodes : State :=
  default new_tree (after (insert 3 5 three_nodes)).

(** The store in which the third insert of the run 30, 20, 10 starts its
    fixup: the new node 10, at address 4, hangs red under the red node 20,
    at address 3, whose parent is the black root 30, at address 2. *)
Definition two_nodes_shape : shape :=
  Fork (Fork Tip 3%positive 20 Tip) 2%positive 30 Tip.

Definition third_attached : State :=
  attached (default new_tree (insert_all_caught 2 [30; 20] new_tree))
    1%positive two_nodes_shape 10.

Definition third_attached_shape : shape :=
  Fork (Fork (Fork Tip 4%positive 10 Tip) 3%positive 20 Tip) 2%positive 30 Tip.

(** * The plain search tree of [my_bst.py] *)

Module BST.

(** ** Data model and effects *)

(** [class BST]: an object is a node, with the attributes that
    [BST.__init__] sets. *)
Record Node := mkNode {
  value : option Z;
  left : ref;
  right : ref
}.

Inductive exn :=
| ValueError (msg : string)
| TypeError
| AttributeError (name : string).

Inductive outcome (A : Type) :=
| Return (a : A) (h : gmap loc Node)
| Raise (e : exn) (h : gmap loc Node)
| OutOfFuel
| Dangling.
Arguments Return {A} a h.
Arguments Raise {A} e h.
Arguments OutOfFuel {A}.
Arguments Dangling {A}.

Definition M (A : Type) : Type := gmap loc Node -> outcome A.

#[global] Instance M_ret : MRet M := fun A a h => Return a h.

#[global] Instance M_bind : MBind M := fun A B k m h =>
  match m h with
  | Return a h' => k a h'
  | Raise e h' => Raise e h'
  | OutOfFuel => OutOfFuel
  | Dangling => Dangling
  end.

Definition raise {A} (e : exn) : M A := fun h => Raise e h.
Definition out_of_fuel {A} : M A := fun _ => OutOfFuel.

Definition load (r : ref) (attr : string) : M Node := fun h =>
  match r with
  | None => Raise (AttributeError attr) h
  | Some p =>
      match h !! p with
      | Some nd => Return nd h
      | None => Dangling
      end
  end.

Definition store (r : ref) (attr : string) (f : Node -> Node) : M unit := fun h =>
  match r with
  | None => Raise (AttributeError attr) h
  | Some p =>
      match h !! p with
      | Some nd => Return tt (<[p := f nd]> h)
      | None => Dangling
      end
  end.

Definition get_value (r : ref) : M (option Z) := nd ← load r "value"; mret (value nd).
Definition get_left (r : ref) : M ref := nd ← load r "left"; mret (left nd).
Definition get_right (r : ref) : M ref := nd ← load r "right"; mret (right nd).

Definition set_value (r : ref) (v : option Z) : M unit :=
  store r "value" (fun nd => mkNode v (left nd) (right nd)).
Definition set_left (r q : ref) : M unit :=
  store r "left" (fun nd => mkNode (value nd) q (right nd)).
Definition set_right (r q : ref) : M unit :=
  store r "right" (fun nd => mkNode (value nd) (left nd) q).

(** [BST(value)]: [__init__] on a new object. *)
Definition init (v : option Z) : M ref := fun h =>
  let p := fresh (dom h) in
  Return (Some p) (<[p := mkNode v None None]> h).

(** Values are integers or [None]: [==] compares any two, [<] and [>] only
    integers. *)
Definition py_eq (a b : option Z) : bool := bool_decide (a = b).
Definition py_lt (a b : option Z) : M bool :=
  match a, b with
  | Some x, Some y => mret (x <? y)
  | _, _ => raise TypeError
  end.
Definition py_gt (a b : option Z) : M bool :=
  match a, b with
  | Some x, Some y => mret (x >? y)
  | _, _ => raise TypeError
  end.

(** Truth value of an [Optional["BST"]]: an object is true, [None] false. *)
Definition truthy (r : ref) : bool := bool_decide (r ≠ None).

(** ** [BST.contains] *)

Fixpoint contains (fuel : nat) (self : ref) (v : option Z) : M bool :=
  match fuel with
  | O => out_of_fuel
  | S fuel' =>
    sv ← get_value self;
    if py_eq v sv then mret true
    else
      c ← (sv ← get_value self; lt ← py_lt v sv;
           if (lt : bool) then l ← get_left self; mret (truthy l) else mret false);
      if (c : bool) then
        l ← get_left self; contains fuel' l v
      else
        c ← (sv ← get_value self; gt ← py_gt v sv;
             if (gt : bool) then r ← get_right self; mret (truthy r) else mret false);
        if (c : bool) then
          r ← get_right self; contains fuel' r v
        else mret false
  end.

(** ** [BST.insert] *)

Fixpoint insert (fuel : nat) (self : ref) (v : option Z) : M unit :=
  match fuel with
  | O => out_of_fuel
  | S fuel' =>
    sv ← get_value self;
    if py_eq v sv then mret tt
    else
      sv ← get_value self; lt ← py_lt v sv;
      if (lt : bool) then
        l ← get_left self;
        if negb (truthy l) then n ← init v; set_left self n
        else l ← get_left self; insert fuel' l v
      else
        r ← get_right self;
        if negb (truthy r) then n ← init v; set_right self n
        else r ← get_right self; insert fuel' r v
  end.

(** ** [BST.delete] *)

(** The loop [while temp_successor.left: temp_successor = temp_successor.left]. *)
Fixpoint leftmost (fuel : nat) (current : ref) : M ref :=
  match fuel with
  | O => out_of_fuel
  | S fuel' =>
    l ← get_left current;
    if truthy l then l ← get_left current; leftmost fuel' l
    else mret current
  end.

Fixpoint delete (fuel : nat) (self : ref) (v : option Z) : M ref :=
  match fuel with
  | O => out_of_fuel
  | S fuel' =>
    if bool_decide (self = None) then
      raise (ValueError "List of values must not be empty.")
    else
      sv ← get_value self; lt ← py_lt v sv;
      if (lt : bool) then
        l ← get_left self;
        (if truthy l then
           l ← get_left self; d ← delete fuel' l v; set_left self d
         else mret tt);;
        mret self
      else
        sv ← get_value self; gt ← py_gt v sv;
        if (gt : bool) then
          r ← get_right self;
          (if truthy r then
             r ← get_right self; d ← delete fuel' r v; set_right self d
           else mret tt);;
          mret self
        else
          sv ← get_value self;
          if py_eq v sv then
            l ← get_left self;
            c ← (if bool_decide (l = None) then
                   r ← get_right self; mret (bool_decide (r = None))
                 else mret false);
            if (c : bool) then mret None
            else
              l ← get_left self;
              if bool_decide (l = None) then get_right self
              else
                r ← get_right self;
                if bool_decide (r = None) then get_left self
                else
                  temp_successor ← get_right self;
                  temp_successor ← leftmost fuel' temp_successor;
                  m ← get_value temp_successor;
                  set_value self m;;
                  r ← get_right self;
                  m ← get_value temp_successor;
                  d ← delete fuel' r m;
                  set_right self d;;
                  mret self
          else mret self
  end.

(** ** Traversals *)

Fixpoint inorder (fuel : nat) (self : ref) : M (list (option Z)) :=
  match fuel with
  | O => out_of_fuel
  | S fuel' =>
    let values := [] in
    l ← get_left self;
    values ← (if truthy l then
                l ← get_left self; xs ← inorder fuel' l; mret (values ++ xs)
              else mret values);
    sv ← get_value self;
    let values := values ++ [sv] in
    r ← get_right self;
    values ← (if truthy r then
                r ← get_right self; xs ← inorder fuel' r; mret (values ++ xs)
              else mret values);
    mret values
  end.

Fixpoint preorder (fuel : nat) (self : ref) : M (list (option Z)) :=
  match fuel with
  | O => out_of_fuel
  | S fuel' =>
    sv ← get_value self;
    if bool_decide (sv = None) then mret []
    else
      sv ← get_value self;
      let nodes := [sv] in
      l ← get_left self;
      nodes ← (if truthy l then
                 l ← get_left self; xs ← preorder fuel' l; mret (nodes ++ xs)
               else mret nodes);
      r ← get_right self;
      nodes ← (if truthy r then
                 r ← get_right self; xs ← preorder fuel' r; mret (nodes ++ xs)
               else mret nodes);
      mret nodes
  end.

Fixpoint postorder (fuel : nat) (self : ref) : M (list (option Z)) :=
  match fuel with
  | O => out_of_fuel
  | S fuel' =>
    sv ← get_value self;
    if bool_decide (sv = None) then mret []
    else
      let nodes := [] in
      l ← get_left self;
      nodes ← (if truthy l then
                 l ← get_left self; xs ← postorder fuel' l; mret (nodes ++ xs)
               else mret nodes);
      r ← get_right self;
      nodes ← (if truthy r then
                 r ← get_right self; xs ← postorder fuel' r; mret (nodes ++ xs)
               else mret nodes);
      sv ← get_value self;
      mret (nodes ++ [sv])
  end.

(** ** [BST.get_min], [BST.get_max], [BST.height] *)

(** The loop [while current.right: current = current.right]. *)
Fixpoint rightmost (fuel : nat) (current : ref) : M ref :=
  match fuel with
  | O => out_of_fuel
  | S fuel' =>
    r ← get_right current;
    if truthy r then r ← get_right current; rightmost fuel' r
    else mret current
  end.

Definition get_min (fuel : nat) (self : ref) : M (option Z) :=
  current ← leftmost fuel self; get_value current.

Definition get_max (fuel : nat) (self : ref) : M (option Z) :=
  current ← rightmost fuel self; get_value current.

Fixpoint height (fuel : nat) (self : ref) : M nat :=
  match fuel with
  | O => out_of_fuel
  | S fuel' =>
    sv ← get_value self;
    if bool_decide (sv = None) then mret 0%nat
    else
      l ← get_left self;
      left_height ← (if truthy l then l ← get_left self; height fuel' l
                     else mret 0%nat);
      r ← get_right self;
      right_height ← (if truthy r then r ← get_right self; height fuel' r
                      else mret 0%nat);
      mret (1 + Nat.max left_height right_height)%nat
  end.

(** ** [BST.set_root] *)

(** [for val in values[1:]: root.insert(val)] *)
Fixpoint insert_each (fuel : nat) (root : ref) (values : list (option Z)) : M unit :=
  match values with
  | [] => mret tt
  | val :: values => insert fuel root val;; insert_each fuel root values
  end.

Definition set_root (fuel : nat) (values : list (option Z)) : M ref :=
  match values with
  | [] => raise (ValueError "List of values must not be empty.")
  | first :: rest =>
      root ← init first;
      insert_each fuel root rest;;
      mret root
  end.

(** ** Views *)

(** [rep h r t]: from the reference [r], the store [h] holds the nodes of
    [t], each with an integer value, with [None] where [t] has [Tip]. *)
Inductive rep (h : gmap loc Node) : ref -> shape -> Prop :=
| rep_tip : rep h None Tip
| rep_fork l p v r pl pr :
    h !! p = Some (mkNode (Some v) pl pr) ->
    rep h pl l -> rep h pr r ->
    rep h (Some p) (Fork l p v r).

(** [holds h r vs]: the nodes under [r] form a tree (no node is met twice)
    whose values, read from left to right, are [vs], and [vs] strictly
    increases. *)
Definition holds (h : gmap loc Node) (r : ref) (vs : list Z) : Prop :=
  exists t, rep h r t /\ NoDup (locs t) /\ keys t = vs /\ increasing vs = true.

(** The values of a tree, the root first, then the left and the right
    subtree. *)
Fixpoint preorder_of (t : shape) : list Z :=
  match t with
  | Tip => []
  | Fork l _ v r => v :: preorder_of l ++ preorder_of r
  end.

(** [grown vs t t']: [t'] is [t] after the values [vs] were put in one after
    the other, each that was not there in a node of its own. *)
Inductive grown : list Z -> shape -> shape -> Prop :=
| grown_nil t : grown [] t t
| grown_cons v vs new t t' :
    grown vs (graft v new t) t' -> grown (v :: vs) t t'.

Definition store_of {A} (o : outcome A) : gmap loc Node :=
  match o with
  | Return _ h | Raise _ h => h
  | _ => ∅
  end.

(** The tree of the example usage, [BST.set_root([20, 10, 25, 5, 15, 30, 12])]. *)
Definition example_values : list Z := [20; 10; 25; 5; 15; 30; 12].

Definition example_tree : gmap loc Node :=
  store_of (set_root 7 (Some <$> example_values) ∅).

Definition example_shape : shape :=
  Fork (Fork (Fork Tip 4%positive 5 Tip) 2%positive 10
             (Fork (Fork Tip 7%positive 12 Tip) 5%positive 15 Tip))
       1%positive 20
       (Fork Tip 3%positive 25 (Fork Tip 6%positive 30 Tip)).

End BST.

(** * Properties *)

(** ** Evaluating the primitives *)

Arguments _rotate_left : simpl never.
Arguments _rotate_right : simpl never.
Arguments get_value : simpl never.
Arguments get_color : simpl never.
Arguments get_parent : simpl never.
Arguments get_left : simpl never.
Arguments get_right : simpl never.
Arguments set_color : simpl never.
Arguments set_parent : simpl never.
Arguments set_left : simpl never.
Arguments set_right : simpl never.
Arguments self_attr : simpl never.
Arguments set_self_attr : simpl never.
Arguments alloc : simpl never.

Lemma bind_Return {A B} (m : M A) (k : A -> M B) s a s' :
  m s = Return a s' -> (m ≫= k) s = k a s'.
Proof. intros H. unfold mbind, M_bind. by rewrite H. Qed.

Lemma bind_Raise {A B} (m : M A) (k : A -> M B) s e s' :
  m s = Raise e s' -> (m ≫= k) s = Raise e s'.
Proof. intros H. unfold mbind, M_bind. by rewrite H. Qed.

Lemma bind_unfold {A B} (m : M A) (k : A -> M B) s :
  (m ≫= k) s =
  match m s with
  | Return a s' => k a s'
  | Raise e s' => Raise e s'
  | OutOfFuel => OutOfFuel
  | Dangling => Dangling
  end.
Proof. reflexivity. Qed.

Lemma self_attr_eq s name r :
  self s !! name = Some r -> self_attr name s = Return r s.
Proof. intros H. unfold self_attr. by rewrite H. Qed.

Lemma self_attr_missing s name :
  self s !! name = None -> self_attr name s = Raise (AttributeError name) s.
Proof. intros H. unfold self_attr. by rewrite H. Qed.

Lemma get_value_eq s p v : value_of s p = Some v -> get_value (Some p) s = Return v s.
Proof.
  unfold value_of, get_value. intros H.
  destruct (heap s !! p) as [nd|] eqn:E; simplify_eq/=.
  unfold mbind, M_bind, load. by rewrite E.
Qed.

Lemma get_color_eq s p c : color_at s p = Some c -> get_color (Some p) s = Return c s.
Proof.
  unfold color_at, get_color. intros H.
  destruct (heap s !! p) as [nd|] eqn:E; simplify_eq/=.
  unfold mbind, M_bind, load. by rewrite E.
Qed.

Lemma get_parent_eq s p q : parent_of s p = Some q -> get_parent (Some p) s = Return q s.
Proof.
  unfold parent_of, get_parent. intros H.
  destruct (heap s !! p) as [nd|] eqn:E; simplify_eq/=.
  unfold mbind, M_bind, load. by rewrite E.
Qed.

Lemma get_left_eq s p q : left_of s p = Some q -> get_left (Some p) s = Return q s.
Proof.
  unfold left_of, get_left. intros H.
  destruct (heap s !! p) as [nd|] eqn:E; simplify_eq/=.
  unfold mbind, M_bind, load. by rewrite E.
Qed.

Lemma get_right_eq s p q : right_of s p = Some q -> get_right (Some p) s = Return q s.
Proof.
  unfold right_of, get_right. intros H.
  destruct (heap s !! p) as [nd|] eqn:E; simplify_eq/=.
  unfold mbind, M_bind, load. by rewrite E.
Qed.

Lemma set_color_eq s p c :
  is_Some (heap s !! p) -> set_color (Some p) c s = Return tt (recolor p c s).
Proof.
  intros [nd E]. unfold set_color, store, recolor. rewrite E. do 2 f_equal.
  apply map_eq. intros i. rewrite lookup_alter, lookup_insert.
  destruct (decide (p = i)) as [->|]; [by rewrite E|done].
Qed.

Lemma self_recolor p c s : self (recolor p c s) = self s.
Proof. reflexivity. Qed.

Lemma value_of_recolor p c s x : value_of (recolor p c s) x = value_of s x.
Proof.
  unfold value_of, recolor. simpl. rewrite lookup_alter.
  destruct (decide (p = x)) as [->|]; [|done]. by destruct (heap s !! x).
Qed.

Lemma parent_of_recolor p c s x : parent_of (recolor p c s) x = parent_of s x.
Proof.
  unfold parent_of, recolor. simpl. rewrite lookup_alter.
  destruct (decide (p = x)) as [->|]; [|done]. by destruct (heap s !! x).
Qed.

Lemma left_of_recolor p c s x : left_of (recolor p c s) x = left_of s x.
Proof.
  unfold left_of, recolor. simpl. rewrite lookup_alter.
  destruct (decide (p = x)) as [->|]; [|done]. by destruct (heap s !! x).
Qed.

Lemma right_of_recolor p c s x : right_of (recolor p c s) x = right_of s x.
Proof.
  unfold right_of, recolor. simpl. rewrite lookup_alter.
  destruct (decide (p = x)) as [->|]; [|done]. by destruct (heap s !! x).
Qed.

Lemma color_at_recolor_ne p c s x : p ≠ x -> color_at (recolor p c s) x = color_at s x.
Proof.
  intros. unfold color_at, recolor. simpl. rewrite lookup_alter.
  by destruct (decide (p = x)).
Qed.

Lemma color_at_recolor_eq p c s :
  is_Some (heap s !! p) -> color_at (recolor p c s) p = Some c.
Proof.
  intros [nd E]. unfold color_at, recolor. simpl. rewrite lookup_alter.
  destruct (decide (p = p)); [|done]. by rewrite E.
Qed.

Lemma heap_recolor_is_Some p c s x :
  is_Some (heap (recolor p c s) !! x) <-> is_Some (heap s !! x).
Proof.
  unfold recolor. simpl. rewrite lookup_alter.
  destruct (decide (p = x)) as [->|]; [|done].
  destruct (heap s !! x); simpl; split; intros [? ?]; eauto; done.
Qed.

(** Both rotations stop at their second statement: the tree object has the
    attributes [NIL] and [root], and the rotations read [self.nil]. *)
Lemma rotate_left_raises s p :
  is_Some (heap s !! p) -> self s !! "nil" = None ->
  _rotate_left (Some p) s = Raise (AttributeError "nil") s.
Proof.
  intros [nd E] Hnil. unfold _rotate_left.
  rewrite (bind_Return _ _ s (right nd) s).
  - apply bind_Raise. by apply self_attr_missing.
  - apply get_right_eq. unfold right_of. by rewrite E.
Qed.

Lemma rotate_right_raises s p :
  is_Some (heap s !! p) -> self s !! "nil" = None ->
  _rotate_right (Some p) s = Raise (AttributeError "nil") s.
Proof.
  intros [nd E] Hnil. unfold _rotate_right.
  rewrite (bind_Return _ _ s (left nd) s).
  - apply bind_Raise. by apply self_attr_missing.
  - apply get_left_eq. unfold left_of. by rewrite E.
Qed.

(** ** What [_insert_fixup] can change *)

Lemma same_links_refl s : same_links s s.
Proof. by split. Qed.

Lemma same_links_trans s1 s2 s3 :
  same_links s1 s2 -> same_links s2 s3 -> same_links s1 s3.
Proof.
  intros [H1 H1'] [H2 H2']. split; [congruence|].
  intros p. destruct (H1' p) as (?&?&?&?), (H2' p) as (?&?&?&?).
  repeat split; congruence.
Qed.

Lemma same_links_recolor p c s : same_links s (recolor p c s).
Proof.
  split; [done|]. intros x.
  by rewrite value_of_recolor, parent_of_recolor, left_of_recolor, right_of_recolor.
Qed.

Lemma frames_ret {A} (a : A) : frames (mret a).
Proof. intros s _. apply same_links_refl. Qed.

Lemma frames_bind {A B} (m : M A) (k : A -> M B) :
  frames m -> (forall a, frames (k a)) -> frames (m ≫= k).
Proof.
  intros Hm Hk s Hnil. rewrite bind_unfold.
  specialize (Hm s Hnil). destruct (m s) as [a s1|e s1| |]; try done.
  assert (self s1 !! "nil" = None) as Hnil1 by (destruct Hm as [-> _]; done).
  specialize (Hk a s1 Hnil1).
  destruct (k a s1); try done; eauto using same_links_trans.
Qed.

Lemma frames_load r a : frames (load r a).
Proof.
  intros s _. unfold load. destruct r as [p|]; [|apply same_links_refl].
  destruct (heap s !! p); [apply same_links_refl|done].
Qed.

Lemma frames_self_attr name : frames (self_attr name).
Proof. intros s _. unfold self_attr. destruct (self s !! name); apply same_links_refl. Qed.

Lemma frames_get_color r : frames (get_color r).
Proof. apply frames_bind; [apply frames_load|intros; apply frames_ret]. Qed.
Lemma frames_get_parent r : frames (get_parent r).
Proof. apply frames_bind; [apply frames_load|intros; apply frames_ret]. Qed.
Lemma frames_get_left r : frames (get_left r).
Proof. apply frames_bind; [apply frames_load|intros; apply frames_ret]. Qed.
Lemma frames_get_right r : frames (get_right r).
Proof. apply frames_bind; [apply frames_load|intros; apply frames_ret]. Qed.

Lemma frames_set_color r c : frames (set_color r c).
Proof.
  intros s _. destruct r as [p|]; [|apply same_links_refl].
  destruct (heap s !! p) as [nd|] eqn:E.
  - rewrite set_color_eq by eauto. apply same_links_recolor.
  - unfold set_color, store. by rewrite E.
Qed.

Lemma frames_rotate_left r : frames (_rotate_left r).
Proof.
  intros s Hnil. unfold _rotate_left. rewrite bind_unfold.
  pose proof (frames_get_right r s Hnil) as H.
  destruct (get_right r s) as [a s1|e s1| |]; try done.
  rewrite (bind_Raise _ _ s1 (AttributeError "nil") s1); [done|].
  apply self_attr_missing. by destruct H as [-> _].
Qed.

Lemma frames_rotate_right r : frames (_rotate_right r).
Proof.
  intros s Hnil. unfold _rotate_right. rewrite bind_unfold.
  pose proof (frames_get_left r s Hnil) as H.
  destruct (get_left r s) as [a s1|e s1| |]; try done.
  rewrite (bind_Raise _ _ s1 (AttributeError "nil") s1); [done|].
  apply self_attr_missing. by destruct H as [-> _].
Qed.

Create HintDb frames.
#[local] Hint Resolve frames_ret frames_load frames_self_attr frames_get_color
  frames_get_parent frames_get_left frames_get_right frames_set_color
  frames_rotate_left frames_rotate_right : frames.

Ltac frames_step :=
  first
    [ solve [ auto with frames ]
    | apply frames_bind; [ | intros ? ]
    | match goal with |- frames (if ?b then _ else _) => destruct b end ].

Lemma frames_insert_fixup fuel node : frames (_insert_fixup fuel node).
Proof.
  revert node. induction fuel as [|fuel IH]; intros node; [done|].
  simpl. repeat frames_step.
Qed.

(** ** Shapes and stores *)

Lemma rep_top s nil par r t : rep s nil par r t -> r = Some (top nil t).
Proof. by destruct 1. Qed.

Lemma rep_same_links s s' nil par r t :
  same_links s s' -> rep s nil par r t -> rep s' nil par r t.
Proof.
  intros [_ H]. induction 1 as [|par p v pl pr l r ? ? ? ? ? _ IHl _ IHr].
  - constructor.
  - destruct (H p) as (?&?&?&?).
    apply (rep_fork _ _ _ _ _ pl pr); [done|congruence..|done|done].
Qed.

Lemma wf_same_links s s' nil t : same_links s s' -> wf s nil t -> wf s' nil t.
Proof.
  intros Hs [? ? ? ? ? ? ? ? ?]. pose proof Hs as [Hself H].
  destruct (H nil) as (?&?&?&?).
  split; try congruence. eauto using rep_same_links.
Qed.

(** Changes to the store away from the nodes of [t] do not affect [rep]. *)
Lemma rep_agree s s' nil par r t :
  (forall p, p ∈ locs t ->
     value_of s' p = value_of s p /\ parent_of s' p = parent_of s p /\
     left_of s' p = left_of s p /\ right_of s' p = right_of s p) ->
  rep s nil par r t -> rep s' nil par r t.
Proof.
  intros H Hr. induction Hr as [|par p v pl pr l r ? ? ? ? ? _ IHl _ IHr].
  - constructor.
  - destruct (H p) as (?&?&?&?); [simpl; rewrite elem_of_app, elem_of_cons; auto|].
    apply (rep_fork _ _ _ _ _ pl pr); [done|congruence..| |].
    + apply IHl. intros x Hx. apply H. simpl. rewrite elem_of_app, elem_of_cons; auto.
    + apply IHr. intros x Hx. apply H. simpl. rewrite elem_of_app, elem_of_cons; auto.
Qed.

Lemma rep_locs_heap s nil par r t p :
  rep s nil par r t -> p ∈ locs t -> is_Some (heap s !! p) /\ p ≠ nil.
Proof.
  induction 1 as [|par x v pl pr l r ? Hv ? ? ? _ IHl _ IHr]; simpl.
  - by intros ?%elem_of_nil.
  - rewrite elem_of_app, elem_of_cons. intros [?|[->|?]]; auto.
    split; [|done]. unfold value_of in Hv. by destruct (heap s !! x).
Qed.

(** ** The descent loop of [insert] *)

Lemma search_depth_levels v t : (search_depth v t <= levels t)%nat.
Proof. induction t; simpl; repeat case_match; lia. Qed.

Create HintDb eval.
#[local] Hint Resolve self_attr_eq get_value_eq get_color_eq get_parent_eq
  get_left_eq get_right_eq : eval.

Ltac run := erewrite bind_Return by (eauto 6 with eval); cbv beta.

Lemma insert_descend_eq s nil v t :
  self s !! "NIL" = Some (Some nil) ->
  forall par cur fuel,
    rep s nil par cur t ->
    insert_descend fuel v (Some par) cur s =
    if (search_depth v t <? fuel)%nat
    then Return (find_slot v par t) s else OutOfFuel.
Proof.
  intros HNIL. induction t as [|l IHl p w r IHr]; intros par cur fuel Hrep;
    inversion Hrep; subst; (destruct fuel as [|fuel]; [by repeat case_match|]);
    simpl insert_descend; run.
  - destruct (decide (Some nil ≠ Some nil)) as [?|_]; done.
  - destruct (decide (Some p ≠ Some nil)) as [_|?]; [|naive_solver]. run.
    rewrite bind_unfold. simpl. destruct (v <? w) eqn:E1.
    { run. rewrite IHl by done. done. }
    run. rewrite bind_unfold. simpl. destruct (v >? w) eqn:E2.
    { run. rewrite IHr by done. done. }
    done.
Qed.

(** ** Attaching the new node *)

Lemma store_eq s p a f :
  is_Some (heap s !! p) -> store (Some p) a f s = Return tt (update p f s).
Proof.
  intros [nd E]. unfold store, update. rewrite E. do 2 f_equal.
  apply map_eq. intros i. rewrite lookup_alter, lookup_insert.
  destruct (decide (p = i)) as [->|]; [by rewrite E|done].
Qed.

Lemma alloc_eq nd s : alloc nd s = Return (Some (new_loc s)) (allocated nd s).
Proof. reflexivity. Qed.

Lemma set_self_attr_eq name r s : set_self_attr name r s = Return tt (rebound name r s).
Proof. reflexivity. Qed.

Lemma new_loc_fresh s : heap s !! new_loc s = None.
Proof. apply not_elem_of_dom. unfold new_loc. apply is_fresh. Qed.

Lemma heap_update_ne p f s x : p ≠ x -> heap (update p f s) !! x = heap s !! x.
Proof. intros. unfold update. simpl. by rewrite lookup_alter_ne. Qed.

Lemma heap_update_eq p f s : heap (update p f s) !! p = f <$> heap s !! p.
Proof. unfold update. simpl. by rewrite lookup_alter_eq. Qed.

Lemma heap_allocated_ne nd s x : x ≠ new_loc s -> heap (allocated nd s) !! x = heap s !! x.
Proof. intros. unfold allocated. simpl. by rewrite lookup_insert_ne. Qed.

Lemma heap_allocated_eq nd s : heap (allocated nd s) !! new_loc s = Some nd.
Proof. unfold allocated. simpl. by rewrite lookup_insert_eq. Qed.

Lemma same_node_heap s s' p : heap s' !! p = heap s !! p -> same_node s s' p.
Proof. intros H. unfold same_node, value_of, parent_of, left_of, right_of. by rewrite H. Qed.

Lemma find_slot_cases v par t :
  find_slot v par t = Duplicate \/
  (t = Tip /\ find_slot v par t = Attach (Some par)) \/
  (exists q, q ∈ locs t /\ find_slot v par t = Attach (Some q)).
Proof.
  revert par. induction t as [|l IHl p w r IHr]; intros par; simpl; [auto|].
  destruct (v <? w).
  - destruct (IHl p) as [?|[[-> ?]|(q&?&?)]]; auto.
    + right. right. exists p. split; [|done].
      apply elem_of_app. right. apply elem_of_cons. by left.
    + right. right. exists q. split; [|done]. apply elem_of_app. by left.
  - destruct (v >? w); [|auto].
    destruct (IHr p) as [?|[[-> ?]|(q&?&?)]]; auto.
    + right. right. exists p. split; [|done].
      apply elem_of_app. right. apply elem_of_cons. by left.
    + right. right. exists q. split; [|done].
      apply elem_of_app. right. apply elem_of_cons. by right.
Qed.

Lemma graft_duplicate v new par t : find_slot v par t = Duplicate -> graft v new t = t.
Proof.
  revert par. induction t as [|l IHl p w r IHr]; intros par; simpl; [done|].
  destruct (v <? w); [intros ?; f_equal; eauto|].
  destruct (v >? w); [intros ?; f_equal; eauto|done].
Qed.

Lemma locs_graft v new par q t :
  find_slot v par t = Attach q -> locs (graft v new t) ≡ₚ new :: locs t.
Proof.
  revert par. induction t as [|l IHl p w r IHr]; intros par; simpl; [done|].
  destruct (v <? w).
  - intros H. simpl. by rewrite (IHl _ H).
  - destruct (v >? w); [|done]. intros H. simpl. rewrite (IHr _ H).
    rewrite (Permutation_swap new p). symmetry. apply Permutation_middle.
Qed.

Lemma levels_graft v new t : (levels (graft v new t) <= S (levels t))%nat.
Proof. induction t; simpl; repeat case_match; simpl; lia. Qed.

Lemma top_graft v new nil l p w r :
  top nil (graft v new (Fork l p w r)) = p.
Proof. simpl. by repeat case_match. Qed.

Section attach.
Variables (s s' : State) (nil new q : loc) (v : Z).
Hypothesis new_not_nil : new ≠ nil.
Hypothesis others : forall x, x ≠ q -> x ≠ new -> same_node s s' x.
Hypothesis new_value : value_of s' new = Some (Some v).
Hypothesis new_parent : parent_of s' new = Some (Some q).
Hypothesis new_left : left_of s' new = Some (Some nil).
Hypothesis new_right : right_of s' new = Some (Some nil).
Hypothesis q_value : value_of s' q = value_of s q.
Hypothesis q_parent : parent_of s' q = parent_of s q.
Hypothesis q_child : forall w, value_of s q = Some (Some w) ->
  if v <? w
  then left_of s' q = Some (Some new) /\ right_of s' q = right_of s q
  else right_of s' q = Some (Some new) /\ left_of s' q = left_of s q.

Lemma rep_new_leaf : rep s' nil q (Some new) (Fork Tip new v Tip).
Proof. apply (rep_fork _ _ _ _ _ (Some nil) (Some nil)); auto; constructor. Qed.

Lemma rep_untouched par r t :
  q ∉ locs t -> new ∉ locs t -> rep s nil par r t -> rep s' nil par r t.
Proof.
  intros Hq Hn. apply rep_agree. intros x Hx. apply others; by intros ->.
Qed.

Lemma rep_graft t : forall par cur,
  t ≠ Tip ->
  rep s nil par cur t ->
  find_slot v par t = Attach (Some q) ->
  NoDup (locs t) -> new ∉ locs t ->
  rep s' nil par cur (graft v new t) /\ q ∈ locs t.
Proof.
  induction t as [|l IHl p w r IHr]; intros par cur Hne Hrep Hslot Hnd Hnew; [done|].
  inversion Hrep as [|? ? ? pl pr ? ? Hp Hv Hpar Hl Hr Hrl Hrr]; subst.
  simpl in Hslot, Hnd, Hnew |- *.
  apply NoDup_app in Hnd as (Hndl & Hlr & Hndr).
  apply NoDup_cons in Hndr as (Hpr & Hndr).
  rewrite elem_of_app, elem_of_cons in Hnew.
  assert (p ∉ locs l) as Hpl.
  { intros ?. eapply Hlr; [done|]. apply elem_of_cons. auto. }
  assert (forall x, x ∈ locs l -> x ∉ locs r) as Hdisj.
  { intros x ? ?. eapply Hlr; [done|]. apply elem_of_cons. auto. }
  assert (p ≠ new) as Hpn by (intros ->; auto).
  assert (new ∉ locs l) as Hnl by auto.
  assert (new ∉ locs r) as Hnr by auto.
  destruct (v <? w) eqn:E1; [|destruct (v >? w) eqn:E2; [|done]].
  - destruct l as [|l1 p1 w1 r1].
    + simpl in Hslot. simplify_eq. inversion Hrl; subst.
      pose proof (q_child _ Hv) as Hqc. rewrite E1 in Hqc. destruct Hqc as [Hql Hqr].
      split; [|apply elem_of_app; right; apply elem_of_cons; auto].
      apply (rep_fork _ _ _ _ _ (Some new) pr);
        [done|congruence|congruence|congruence|congruence| |].
      * apply rep_new_leaf.
      * apply rep_untouched; auto.
    + destruct (IHl p pl) as [IH Hq]; auto.
      assert (p ≠ q) as Hpq by (intros ->; done).
      destruct (others p) as (?&?&?&?); auto.
      split; [|apply elem_of_app; auto].
      apply (rep_fork _ _ _ _ _ pl pr);
        [done|congruence|congruence|congruence|congruence|done|].
      apply rep_untouched; auto.
  - destruct r as [|l1 p1 w1 r1].
    + simpl in Hslot. simplify_eq. inversion Hrr; subst.
      pose proof (q_child _ Hv) as Hqc. rewrite E1 in Hqc. destruct Hqc as [Hqr Hql].
      split; [|apply elem_of_app; right; apply elem_of_cons; auto].
      apply (rep_fork _ _ _ _ _ pl (Some new));
        [done|congruence|congruence|congruence|congruence| |].
      * apply rep_untouched; auto.
      * apply rep_new_leaf.
    + destruct (IHr p pr) as [IH Hq]; auto.
      assert (p ≠ q) as Hpq by (intros ->; done).
      destruct (others p) as (?&?&?&?); auto.
      split; [|apply elem_of_app; right; apply elem_of_cons; auto].
      apply (rep_fork _ _ _ _ _ pl pr);
        [done|congruence|congruence|congruence|congruence| |done].
      apply rep_untouched; auto.
      intros ?. eapply Hdisj; eauto.
Qed.
End attach.

(** ** [insert] keeps the tree well formed *)

Lemma rep_locs_value s nil par r t p :
  rep s nil par r t -> p ∈ locs t -> exists w, value_of s p = Some (Some w).
Proof.
  induction 1 as [|par x v pl pr l r ? Hv ? ? ? _ IHl _ IHr]; simpl.
  - by intros ?%elem_of_nil.
  - rewrite elem_of_app, elem_of_cons. intros [?|[->|?]]; eauto.
Qed.

Lemma attached_heap s q f g nd :
  q ≠ new_loc s ->
  let s2 := update q f (update (new_loc s) g (allocated nd s)) in
  heap s2 !! new_loc s = Some (g nd) /\
  heap s2 !! q = f <$> heap s !! q /\
  forall x, x ≠ q -> x ≠ new_loc s -> heap s2 !! x = heap s !! x.
Proof.
  intros Hq s2. subst s2. repeat split.
  - rewrite heap_update_ne, heap_update_eq, heap_allocated_eq by done. done.
  - rewrite heap_update_eq, heap_update_ne, heap_allocated_ne by done. done.
  - intros x ? ?. rewrite !heap_update_ne, heap_allocated_ne by done. done.
Qed.

Lemma after_fixup_wf fuel node s nil t s' :
  wf s nil t -> after (_insert_fixup fuel node s) = Some s' -> wf s' nil t.
Proof.
  intros Hwf Ho. pose proof (frames_insert_fixup fuel node s (wf_no_nil _ _ _ Hwf)) as H.
  destruct (_insert_fixup fuel node s); simplify_eq/=; eauto using wf_same_links.
Qed.

Section insert_wf.
Variables (s : State) (nil : loc) (t : shape) (v : Z).
Hypothesis Hwf : wf s nil t.

Local Abbreviation new := (new_loc s).
Local Abbreviation s0 := (allocated (new_node v nil) s).

Lemma new_not_sentinel : new ≠ nil.
Proof.
  intros E. pose proof (wf_sentinel_value _ _ _ Hwf) as H.
  unfold value_of in H. rewrite <- E in H.
  by rewrite new_loc_fresh in H.
Qed.

Lemma new_not_in_tree : new ∉ locs t.
Proof.
  intros H. destruct (rep_locs_heap _ _ _ _ _ _ (wf_rep _ _ _ Hwf) H) as [[nd E] _].
  by rewrite new_loc_fresh in E.
Qed.

Lemma allocated_same x : x ≠ new -> same_node s s0 x.
Proof. intros. apply same_node_heap. by apply heap_allocated_ne. Qed.

Lemma wf_allocated : wf s0 nil t.
Proof.
  pose proof new_not_sentinel. pose proof new_not_in_tree.
  pose proof Hwf as [? ? ? ? ? ? ? ? ?].
  destruct (allocated_same nil) as (?&?&?&?); [done|].
  split; try done; try congruence.
  eapply rep_agree; [|done]. intros x Hx. apply allocated_same. by intros ->.
Qed.

(** An empty tree: the new node becomes the root. *)
Lemma wf_first :
  wf (rebound "root" (Some new) (update new (with_parent (Some nil)) s0)) nil
     (Fork Tip new v Tip).
Proof.
  pose proof new_not_sentinel as Hn. pose proof Hwf as [? ? ? ? ? ? ? ? ?].
  set (s2 := rebound _ _ _).
  assert (heap s2 !! new = Some (with_parent (Some nil) (new_node v nil))) as Hnew.
  { subst s2. simpl. by rewrite lookup_alter_eq, lookup_insert_eq. }
  assert (same_node s s2 nil) as (?&?&?&?).
  { apply same_node_heap. subst s2. simpl.
    by rewrite lookup_alter_ne, lookup_insert_ne. }
  split; simpl; try congruence.
  - by rewrite lookup_insert_ne.
  - by rewrite lookup_insert_ne.
  - by rewrite lookup_insert_eq.
  - apply (rep_fork _ _ _ _ _ (Some nil) (Some nil)); try constructor; try done.
    all: unfold value_of, parent_of, left_of, right_of; by rewrite Hnew.
  - apply NoDup_singleton.
Qed.

(** A tree with nodes: the new node becomes a child of the last node [q]
    of the descent, on the side the comparison with its value chooses. *)
Lemma wf_attached q w :
  q ∈ locs t ->
  find_slot v nil t = Attach (Some q) ->
  value_of s q = Some (Some w) ->
  wf (update q (if v <? w then with_left (Some new) else with_right (Some new))
        (update new (with_parent (Some q)) s0)) nil (graft v new t).
Proof.
  intros Hq Hslot Hw. pose proof new_not_sentinel as Hn.
  pose proof new_not_in_tree as Hnt.
  assert (q ≠ new) as Hqn by (by intros ->).
  destruct (rep_locs_heap _ _ _ _ _ _ (wf_rep _ _ _ Hwf) Hq) as [_ Hqnil].
  set (f := if v <? w then _ else _).
  destruct (attached_heap s q f (with_parent (Some q)) (new_node v nil) Hqn)
    as (Hnew & Hqh & Hoth).
  set (s2 := update q f _) in *.
  assert (t ≠ Tip) as Htip by (intros ->; by apply elem_of_nil in Hq).
  pose proof Hwf as [? ? ? Hrep ? ? ? ? Hnd].
  assert (top nil (graft v new t) = top nil t) as Htop.
  { destruct t; [done|]. apply top_graft. }
  assert (same_node s s2 nil) as (?&?&?&?).
  { apply same_node_heap. by apply Hoth. }
  split; try (simpl; congruence).
  - rewrite Htop.
    eapply (rep_graft s s2 nil new q v); try done.
    + intros x ? ?. apply same_node_heap. by apply Hoth.
    + unfold value_of. by rewrite Hnew.
    + unfold parent_of. by rewrite Hnew.
    + unfold left_of. by rewrite Hnew.
    + unfold right_of. by rewrite Hnew.
    + unfold value_of. rewrite Hqh. subst f.
      destruct (heap s !! q), (v <? w); done.
    + unfold parent_of. rewrite Hqh. subst f.
      destruct (heap s !! q), (v <? w); done.
    + intros w' Hw'. assert (w' = w) as -> by congruence.
      unfold left_of, right_of. rewrite Hqh. subst f.
      unfold value_of in Hw. destruct (heap s !! q), (v <? w); done.
  - rewrite (locs_graft _ _ _ _ _ Hslot). apply NoDup_cons. done.
Qed.

Lemma wf_attached_store :
  find_slot v nil t ≠ Duplicate -> wf (attached s nil t v) nil (graft v new t).
Proof.
  intros Hnd. pose proof (wf_rep _ _ _ Hwf) as Hrep. unfold attached.
  destruct (find_slot_cases v nil t) as [Hdup|[[Htip Hs]|(q & Hq & Hs)]]; [done|..].
  - rewrite Hs, decide_True by done. rewrite Htip. apply wf_first.
  - rewrite Hs.
    destruct (rep_locs_value _ _ _ _ _ _ Hrep Hq) as [w Hw].
    destruct (rep_locs_heap _ _ _ _ _ _ Hrep Hq) as [_ Hqnil].
    rewrite decide_False, Hw by done. by apply wf_attached.
Qed.

(** [insert] up to the call of [_insert_fixup]. *)
Lemma insert_eq fuel :
  insert fuel v s =
  if (search_depth v t <? fuel)%nat then
    match find_slot v nil t with
    | Duplicate => Return tt s0
    | Attach _ => _insert_fixup fuel (Some new) (attached s nil t v)
    end
  else OutOfFuel.
Proof.
  pose proof wf_allocated as Hwf0. pose proof new_not_sentinel as Hn.
  pose proof Hwf as [HNIL Hnonil Hroot Hrep _ _ _ _ _].
  unfold insert. run. run. rewrite (bind_Return _ _ _ _ _ (alloc_eq _ _)).
  fold (new_node v nil).
  pose proof Hwf0 as [HNIL0 Hnonil0 Hroot0 Hrep0 _ _ _ _ _].
  run. run. rewrite bind_unfold.
  rewrite (insert_descend_eq s0 nil v t) by done.
  destruct (search_depth v t <? fuel)%nat; [|done].
  unfold attached.
  destruct (find_slot_cases v nil t) as [Hdup|[[Htip Hs]|(q & Hq & Hs)]].
  - by rewrite Hdup.
  - rewrite Hs, decide_True by done.
    rewrite (bind_Return _ _ _ tt (update new (with_parent (Some nil)) s0)).
    2:{ apply store_eq. by rewrite heap_allocated_eq. }
    run. rewrite decide_True by done.
    by rewrite (bind_Return _ _ _ _ _ (set_self_attr_eq _ _ _)).
  - rewrite Hs.
    destruct (rep_locs_value _ _ _ _ _ _ Hrep Hq) as [w Hw].
    destruct (rep_locs_heap _ _ _ _ _ _ Hrep Hq) as [Hqh Hqnil].
    assert (q ≠ new) as Hqn by (intros ->; by apply new_not_in_tree).
    rewrite (decide_False (P := q = nil)), Hw by done.
    rewrite (bind_Return _ _ _ tt (update new (with_parent (Some q)) s0)).
    2:{ apply store_eq. by rewrite heap_allocated_eq. }
    run. rewrite decide_False by congruence.
    set (s1 := update _ _ s0) in *.
    assert (heap s1 !! q = heap s !! q) as Hq1.
    { subst s1. by rewrite heap_update_ne, heap_allocated_ne. }
    erewrite (bind_Return _ _ s1 tt); [done|].
    erewrite bind_Return; [|apply get_value_eq; unfold value_of; rewrite Hq1; exact Hw].
    simpl. rewrite bind_unfold. simpl.
    destruct (v <? w); apply store_eq; by rewrite Hq1.
Qed.

Lemma insert_wf fuel s' :
  after (insert fuel v s) = Some s' -> wf s' nil (graft v new t).
Proof.
  rewrite insert_eq. destruct (search_depth v t <? fuel)%nat; [|done].
  destruct (find_slot v nil t) as [r|] eqn:Hs.
  - apply after_fixup_wf, wf_attached_store. by rewrite Hs.
  - intros [= <-]. rewrite (graft_duplicate _ _ _ _ Hs). apply wf_allocated.
Qed.
End insert_wf.

(** ** Links of a well-formed tree *)

Lemma top_cases nil t : top nil t = nil \/ top nil t ∈ locs t.
Proof.
  destruct t; simpl; [by left|right].
  apply elem_of_app. right. apply elem_of_cons. by left.
Qed.

Lemma rep_links s nil par r t p :
  rep s nil par r t -> p ∈ locs t ->
  exists q a b,
    parent_of s p = Some (Some q) /\
    left_of s p = Some (Some a) /\ right_of s p = Some (Some b) /\
    (a = nil \/ a ∈ locs t) /\ (b = nil \/ b ∈ locs t) /\
    ((p = top nil t /\ q = par) \/ q ∈ locs t).
Proof.
  induction 1 as [|par x v pl pr l r ? Hv Hpar Hl Hr Hrl IHl Hrr IHr]; simpl.
  - by intros ?%elem_of_nil.
  - rewrite elem_of_app, elem_of_cons. intros [Hp|[->|Hp]].
    + destruct (IHl Hp) as (q & a & b & ? & ? & ? & Ha & Hb & Hq).
      exists q, a, b. repeat split; try done.
      * destruct Ha; [by left|right]. apply elem_of_app. by left.
      * destruct Hb; [by left|right]. apply elem_of_app. by left.
      * right. destruct Hq as [[-> ->]|?].
        -- apply elem_of_app. right. apply elem_of_cons. by left.
        -- apply elem_of_app. by left.
    + apply rep_top in Hrl as ->. apply rep_top in Hrr as ->.
      exists par, (top nil l), (top nil r). repeat split; try done.
      * destruct (top_cases nil l); [by left|right]. apply elem_of_app. by left.
      * destruct (top_cases nil r); [by left|right].
        apply elem_of_app. right. apply elem_of_cons. by right.
      * by left.
    + destruct (IHr Hp) as (q & a & b & ? & ? & ? & Ha & Hb & Hq).
      exists q, a, b. repeat split; try done.
      * destruct Ha; [by left|right]. apply elem_of_app. right. apply elem_of_cons. by right.
      * destruct Hb; [by left|right]. apply elem_of_app. right. apply elem_of_cons. by right.
      * right. destruct Hq as [[-> ->]|?].
        -- apply elem_of_app. right. apply elem_of_cons. by left.
        -- apply elem_of_app. right. apply elem_of_cons. by right.
Qed.

Lemma wf_links s nil t p :
  wf s nil t -> member nil t p ->
  exists q a b,
    parent_of s p = Some (Some q) /\
    left_of s p = Some (Some a) /\ right_of s p = Some (Some b) /\
    member nil t q /\ member nil t a /\ member nil t b.
Proof.
  intros Hwf [->|Hp].
  - exists nil, nil, nil. destruct Hwf. repeat split; try done; by left.
  - destruct (rep_links _ _ _ _ _ _ (wf_rep _ _ _ Hwf) Hp)
      as (q & a & b & ? & ? & ? & Ha & Hb & Hq).
    exists q, a, b. repeat split; try done.
    destruct Hq as [[_ ->]|?]; [by left|by right].
Qed.

Lemma top_member nil t : member nil t (top nil t).
Proof. apply top_cases. Qed.

Lemma wf_top_parent s nil t : wf s nil t -> parent_of s (top nil t) = Some (Some nil).
Proof.
  intros Hwf. pose proof (wf_rep _ _ _ Hwf) as Hrep.
  inversion Hrep; subst; simpl; [by destruct Hwf|done].
Qed.

(** ** The stores a program can reach *)

Lemma new_tree_wf : wf new_tree 1%positive Tip.
Proof. split; try reflexivity; [constructor|apply NoDup_nil_2]. Qed.

Lemma reachable_wf s : reachable s -> exists nil t, wf s nil t.
Proof.
  induction 1 as [|s fuel v s' _ (nil & t & Hwf) Hafter].
  - eauto using new_tree_wf.
  - eauto using insert_wf.
Qed.

Lemma in_tree_member s nil t p : wf s nil t -> in_tree s p -> member nil t p.
Proof.
  intros Hwf. induction 1 as [p Hp|p Hp|p q _ IH Hq|p q _ IH Hq|p q _ IH Hq].
  - rewrite (wf_root _ _ _ Hwf) in Hp. simplify_eq. apply top_cases.
  - rewrite (wf_NIL _ _ _ Hwf) in Hp. simplify_eq. by left.
  - destruct (wf_links _ _ _ _ Hwf IH) as (?&?&?&?&?&?&?&?&?). congruence.
  - destruct (wf_links _ _ _ _ Hwf IH) as (?&?&?&?&?&?&?&?&?). congruence.
  - destruct (wf_links _ _ _ _ Hwf IH) as (?&?&?&?&?&?&?&?&?). congruence.
Qed.

Lemma member_in_tree s nil t par r : 
  rep s nil par r t -> (forall p, r = Some p -> in_tree s p) ->
  forall p, p ∈ locs t -> in_tree s p.
Proof.
  induction 1 as [|par x v pl pr l r ? Hv Hpar Hl Hr Hrl IHl Hrr IHr]; simpl; intros Hin p.
  - by intros ?%elem_of_nil.
  - assert (in_tree s x) by auto.
    rewrite elem_of_app, elem_of_cons. intros [Hp|[->|Hp]]; [|done|].
    + apply IHl; [|done]. intros ? ->. by eapply in_tree_left.
    + apply IHr; [|done]. intros ? ->. by eapply in_tree_right.
Qed.

(** ** Termination of the fixup loop *)

Lemma chain_step s nil p q d :
  chain s nil p d -> p ≠ nil -> parent_of s p = Some (Some q) ->
  exists d', d = S d' /\ chain s nil q d'.
Proof. destruct 1 as [|p q' d' ? Hq Hc]; [done|]. intros _ ?. simplify_eq. eauto. Qed.

Lemma chain_same_links s s' nil p d :
  same_links s s' -> chain s nil p d -> chain s' nil p d.
Proof.
  intros [_ H]. induction 1 as [|p q d ? Hq _ IH]; [constructor|].
  destruct (H p) as (_&Hp&_). apply (chain_up _ _ _ q); [done|congruence|done].
Qed.

Lemma rep_chain s nil par r t d0 :
  rep s nil par r t -> chain s nil par d0 ->
  forall p, p ∈ locs t -> exists d, chain s nil p d /\ (d <= d0 + levels t)%nat.
Proof.
  intros Hrep. revert d0.
  induction Hrep as [|par x v pl pr l r ? Hv Hpar Hl Hr Hrl IHl Hrr IHr];
    intros d0 Hc p; simpl.
  - by intros ?%elem_of_nil.
  - assert (chain s nil x (S d0)) as Hx by (by apply (chain_up _ _ _ par)).
    rewrite elem_of_app, elem_of_cons. intros [Hp|[->|Hp]].
    + destruct (IHl _ Hx p Hp) as (d & ? & ?). exists d. split; [done|lia].
    + exists (S d0). split; [done|lia].
    + destruct (IHr _ Hx p Hp) as (d & ? & ?). exists d. split; [done|lia].
Qed.

Lemma wf_chain s nil t p :
  wf s nil t -> member nil t p -> exists d, chain s nil p d /\ (d <= levels t)%nat.
Proof.
  intros Hwf [->|Hp].
  - exists 0%nat. split; [constructor|lia].
  - destruct (rep_chain _ _ _ _ _ 0 (wf_rep _ _ _ Hwf) (chain_nil _ _) p Hp) as (d&?&?).
    exists d. split; [done|lia].
Qed.

Lemma member_heap s nil t p : wf s nil t -> member nil t p -> is_Some (heap s !! p).
Proof.
  intros Hwf Hp. destruct (wf_links _ _ _ _ Hwf Hp) as (q&_&_&Hq&_).
  unfold parent_of in Hq. by destruct (heap s !! p).
Qed.

Lemma member_color s nil t p : wf s nil t -> member nil t p -> exists c, color_at s p = Some c.
Proof.
  intros Hwf Hp. destruct (member_heap _ _ _ _ Hwf Hp) as [nd E].
  exists (color nd). unfold color_at. by rewrite E.
Qed.

Lemma wf_recolor s nil t p c : wf s nil t -> wf (recolor p c s) nil t.
Proof. apply wf_same_links, same_links_recolor. Qed.

Lemma chain_recolor s nil x d p c : chain s nil x d -> chain (recolor p c s) nil x d.
Proof. apply chain_same_links, same_links_recolor. Qed.

Lemma parent_of_recolor_Some p c s x r :
  parent_of s x = Some r -> parent_of (recolor p c s) x = Some r.
Proof. by rewrite parent_of_recolor. Qed.
Lemma left_of_recolor_Some p c s x r :
  left_of s x = Some r -> left_of (recolor p c s) x = Some r.
Proof. by rewrite left_of_recolor. Qed.
Lemma right_of_recolor_Some p c s x r :
  right_of s x = Some r -> right_of (recolor p c s) x = Some r.
Proof. by rewrite right_of_recolor. Qed.
Lemma recolor_is_Some p c s x :
  is_Some (heap s !! x) -> is_Some (heap (recolor p c s) !! x).
Proof. apply heap_recolor_is_Some. Qed.
Lemma color_at_recolor_keep p c s x k :
  p ≠ x -> color_at s x = Some k -> color_at (recolor p c s) x = Some k.
Proof. intros. by rewrite color_at_recolor_ne. Qed.

#[local] Hint Resolve parent_of_recolor_Some left_of_recolor_Some
  right_of_recolor_Some recolor_is_Some set_color_eq rotate_left_raises
  rotate_right_raises : eval.

Lemma bind_assoc {A B C} (m : M A) (k1 : A -> M B) (k2 : B -> M C) s :
  ((m ≫= k1) ≫= k2) s = (m ≫= fun a => k1 a ≫= k2) s.
Proof. rewrite !bind_unfold. by destruct (m s). Qed.

Lemma ret_bind {A B} (a : A) (k : A -> M B) s : (mret a ≫= k) s = k a s.
Proof. reflexivity. Qed.

Lemma finished_Return s : finished (Return tt s).
Proof. exists s. by left. Qed.
Lemma finished_Raise s : finished (Raise (AttributeError "nil") s).
Proof. exists s. by right. Qed.

Ltac run_raise := erewrite bind_Raise by (eauto 8 with eval); apply finished_Raise.

Lemma fixup_finishes nil t fuel : forall s p d,
  wf s nil t -> color_at s nil = Some BLACK ->
  member nil t p -> chain s nil p d -> (d < 2 * fuel)%nat ->
  finished (_insert_fixup fuel (Some p) s).
Proof.
  induction fuel as [|fuel IH]; intros s p d Hwf Hblack Hp Hc Hd; [lia|].
  pose proof (wf_no_nil _ _ _ Hwf) as Hnonil.
  pose proof (wf_root _ _ _ Hwf) as Hroot.
  destruct (wf_links _ _ _ _ Hwf Hp) as (q & pa & pb & Hpq & Hpl & Hpr & Hq & _ & _).
  destruct (member_color _ _ _ _ Hwf Hq) as [c Hqc].
  simpl _insert_fixup. run. run.
  destruct (decide (c = RED)) as [->|_]; cycle 1.
  { run. pose proof (member_heap _ _ _ _ Hwf (top_member nil t)).
    rewrite set_color_eq by done. apply finished_Return. }
  assert (q ≠ nil) as Hqnil by (intros ->; congruence).
  assert (p ≠ nil) as Hpnil.
  { intros ->. rewrite (wf_sentinel_parent _ _ _ Hwf) in Hpq. congruence. }
  destruct (wf_links _ _ _ _ Hwf Hq) as (g & qa & qb & Hqg & Hql & Hqr & Hg & _ & _).
  destruct (wf_links _ _ _ _ Hwf Hg) as (gg & ga & gb & Hgg & Hgl & Hgr & _ & Hga & Hgb).
  destruct (chain_step _ _ _ _ _ Hc Hpnil Hpq) as (d1 & -> & Hc1).
  destruct (chain_step _ _ _ _ _ Hc1 Hqnil Hqg) as (d2 & -> & Hc2).
  pose proof (member_heap _ _ _ _ Hwf Hq) as Hqh.
  pose proof (member_heap _ _ _ _ Hwf Hg) as Hgh.
  run. run. run.
  destruct (decide (Some q = Some ga)) as [E|E].
  - simplify_eq. assert (g ≠ nil) as Hgnil.
    { intros ->. rewrite (wf_sentinel_left _ _ _ Hwf) in Hgl. congruence. }
    destruct (member_color _ _ _ _ Hwf Hgb) as [uc Huc].
    pose proof (member_heap _ _ _ _ Hwf Hgb) as Hgbh.
    run. run. run. run.
    destruct (decide (uc = RED)) as [->|_].
    + assert (gb ≠ nil) as Hgbnil by (intros ->; congruence).
      repeat run.
      apply (IH _ g d2); auto using wf_recolor, chain_recolor, color_at_recolor_keep.
      lia.
    + run. run. destruct (decide (Some p = Some qb)) as [_|_].
      * rewrite bind_assoc. run. rewrite bind_assoc. run_raise.
      * rewrite ret_bind. repeat run. run_raise.
  - destruct (member_color _ _ _ _ Hwf Hga) as [uc Huc].
    pose proof (member_heap _ _ _ _ Hwf Hga) as Hgah.
    run. run. run. run.
    destruct (decide (uc = RED)) as [->|_].
    + assert (ga ≠ nil) as Hganil by (intros ->; congruence).
      assert (g ≠ nil) as Hgnil.
      { intros ->. rewrite (wf_sentinel_left _ _ _ Hwf) in Hgl. congruence. }
      repeat run.
      apply (IH _ g d2); auto using wf_recolor, chain_recolor, color_at_recolor_keep.
      lia.
    + run. run. destruct (decide (Some p = Some qa)) as [_|_].
      * rewrite bind_assoc. run. rewrite bind_assoc. run_raise.
      * rewrite ret_bind. repeat run. run_raise.
Qed.

(** A red sentinel keeps the loop busy for ever once the working node is the
    sentinel itself: the recoloring case applies to it again and again. *)
Lemma fixup_spins nil fuel : forall s,
  color_at s nil = Some RED ->
  parent_of s nil = Some (Some nil) ->
  left_of s nil = Some (Some nil) ->
  right_of s nil = Some (Some nil) ->
  _insert_fixup fuel (Some nil) s = OutOfFuel.
Proof.
  induction fuel as [|fuel IH]; intros s Hc Hp Hl Hr; [done|].
  assert (is_Some (heap s !! nil)) as Hh.
  { unfold color_at in Hc. by destruct (heap s !! nil). }
  simpl _insert_fixup. do 2 run. destruct (decide (RED = RED)); [|done].
  do 3 run. destruct (decide (Some nil = Some nil)); [|done].
  do 4 run. destruct (decide (RED = RED)); [|done]. repeat run.
  apply IH; auto with eval. apply color_at_recolor_eq. auto with eval.
Qed.

(** ** Ordering *)

Lemma keys_graft v new t x : x ∈ keys (graft v new t) -> x = v \/ x ∈ keys t.
Proof.
  induction t as [|l IHl p w r IHr]; simpl.
  - rewrite elem_of_cons. intros [?|[]%elem_of_nil]; auto.
  - destruct (v <? w); [|destruct (v >? w)]; simpl;
      rewrite !elem_of_app, !elem_of_cons; intuition.
Qed.

Lemma bst_graft v new t : bst t -> bst (graft v new t).
Proof.
  induction t as [|l IHl p w r IHr]; simpl.
  - intros _. repeat split; constructor.
  - intros (Hl & Hr & Hlt & Hgt).
    destruct (v <? w) eqn:E1; [|destruct (v >? w) eqn:E2]; simpl; repeat split; auto.
    + apply Forall_forall. intros x [->|Hx]%keys_graft; [lia|].
      by eapply Forall_forall in Hlt.
    + apply Forall_forall. intros x [->|Hx]%keys_graft; [lia|].
      by eapply Forall_forall in Hgt.
Qed.

Lemma find_slot_present v par t : bst t -> v ∈ keys t -> find_slot v par t = Duplicate.
Proof.
  revert par. induction t as [|l IHl p w r IHr]; intros par; simpl.
  - by intros _ ?%elem_of_nil.
  - intros (Hl & Hr & Hlt & Hgt). rewrite elem_of_app, elem_of_cons.
    rewrite Forall_forall in Hlt, Hgt. intros Hv.
    destruct (v <? w) eqn:E1; [|destruct (v >? w) eqn:E2; [|done]].
    + apply IHl; [done|]. destruct Hv as [?|[->|Hv]]; [done|lia|].
      specialize (Hgt _ Hv). lia.
    + apply IHr; [done|]. destruct Hv as [Hv|[->|?]]; [|lia|done].
      specialize (Hlt _ Hv). lia.
Qed.

Lemma rep_value_keys s nil par r t p v :
  rep s nil par r t -> p ∈ locs t -> value_of s p = Some (Some v) -> v ∈ keys t.
Proof.
  induction 1 as [|par x w pl pr l r ? Hv ? ? ? _ IHl _ IHr]; simpl.
  - by intros ?%elem_of_nil.
  - rewrite !elem_of_app, !elem_of_cons. intros [?|[->|?]] ?; auto.
    right. left. congruence.
Qed.

(** Every store a program reaches holds a well-formed, ordered tree. *)
Lemma reachable_ordered s : reachable s -> exists nil t, wf s nil t /\ bst t.
Proof.
  induction 1 as [|s fuel v s' _ (nil & t & Hwf & Hbst) Hafter].
  - exists 1%positive, Tip. split; [apply new_tree_wf|done].
  - exists nil, (graft v (new_loc s) t). eauto using insert_wf, bst_graft.
Qed.

Lemma attached_sentinel s nil t v :
  wf s nil t -> heap (attached s nil t v) !! nil = heap s !! nil.
Proof.
  intros Hwf. pose proof (new_not_sentinel _ _ _ Hwf) as Hn.
  pose proof (wf_rep _ _ _ Hwf) as Hrep. unfold attached.
  destruct (find_slot_cases v nil t) as [Hdup|[[Htip Hs]|(q & Hq & Hs)]]; rewrite ?Hdup, ?Hs.
  - by apply heap_allocated_ne.
  - rewrite decide_True by done. simpl.
    rewrite lookup_alter_ne, lookup_insert_ne by done. done.
  - destruct (rep_locs_value _ _ _ _ _ _ Hrep Hq) as [w Hw].
    destruct (rep_locs_heap _ _ _ _ _ _ Hrep Hq) as [_ Hqnil].
    rewrite decide_False, Hw by done.
    rewrite !heap_update_ne, heap_allocated_ne by done. done.
Qed.

Lemma insert_finishes s nil t v fuel :
  wf s nil t -> color_at s nil = Some BLACK -> (levels t < fuel)%nat ->
  finished (insert fuel v s).
Proof.
  intros Hwf Hblack Hfuel. rewrite (insert_eq _ _ _ _ Hwf).
  pose proof (search_depth_levels v t).
  destruct (Nat.ltb_spec (search_depth v t) fuel) as [_|?]; [|lia].
  destruct (find_slot v nil t) as [r|] eqn:Hs; [|apply finished_Return].
  assert (wf (attached s nil t v) nil (graft v (new_loc s) t)) as Hwf2.
  { apply wf_attached_store; [done|]. by rewrite Hs. }
  assert (member nil (graft v (new_loc s) t) (new_loc s)) as Hm.
  { right. rewrite (locs_graft _ _ _ _ _ Hs). apply elem_of_cons. by left. }
  destruct (wf_chain _ _ _ _ Hwf2 Hm) as (d & Hc & Hd).
  pose proof (levels_graft v (new_loc s) t).
  eapply fixup_finishes; eauto; [|lia].
  unfold color_at in *. by rewrite attached_sentinel.
Qed.

(** ** The sentinel while the root is black *)

Lemma untouched_from nil root s s1 o :
  heap s1 !! nil = heap s !! nil -> untouched nil root s1 o -> untouched nil root s o.
Proof. intros E. destruct o; simpl; rewrite ?E; auto. Qed.

Lemma heap_recolor_ne p c s x : p ≠ x -> heap (recolor p c s) !! x = heap s !! x.
Proof. intros. unfold recolor. simpl. by rewrite lookup_alter_ne. Qed.

Lemma heap_recolor_same p c s x :
  color_at s p = Some c -> heap (recolor p c s) !! x = heap s !! x.
Proof.
  intros Hc. unfold recolor. simpl. rewrite lookup_alter.
  destruct (decide (p = x)) as [->|]; [|done].
  unfold color_at in Hc. destruct (heap s !! x) as [[? ? ? ? ?]|]; simplify_eq/=; done.
Qed.

Lemma member_parent s nil t p q :
  wf s nil t -> member nil t p -> p ≠ nil -> p ≠ top nil t ->
  parent_of s p = Some (Some q) -> q ∈ locs t /\ q ≠ nil.
Proof.
  intros Hwf [?|Hp] Hn Ht Hq; [done|].
  pose proof (wf_rep _ _ _ Hwf) as Hrep.
  destruct (rep_links _ _ _ _ _ _ Hrep Hp) as (q'&?&?&Hq'&_&_&_&_&[[? _]|Hqt]); [done|].
  assert (q' = q) as -> by congruence.
  split; [done|]. by destruct (rep_locs_heap _ _ _ _ _ _ Hrep Hqt).
Qed.

Lemma untouched_Raise nil root s s' :
  heap s' !! nil = heap s !! nil -> untouched nil root s (Raise (AttributeError "nil") s').
Proof. by split. Qed.

Ltac run_to_raise :=
  erewrite bind_Raise by (eauto 8 with eval);
  apply untouched_Raise; rewrite ?heap_recolor_ne by done; done.

Lemma fixup_untouched nil t fuel : forall s p,
  wf s nil t -> color_at s nil = Some BLACK ->
  color_at s (top nil t) = Some BLACK \/ p = top nil t ->
  member nil t p ->
  untouched nil (top nil t) s (_insert_fixup fuel (Some p) s).
Proof.
  induction fuel as [|fuel IH]; intros s p Hwf Hblack Hrootc Hp; [done|].
  pose proof (wf_no_nil _ _ _ Hwf) as Hnonil.
  pose proof (wf_root _ _ _ Hwf) as Hroot.
  destruct (wf_links _ _ _ _ Hwf Hp) as (q & pa & pb & Hpq & Hpl & Hpr & Hq & _ & _).
  destruct (member_color _ _ _ _ Hwf Hq) as [c Hqc].
  simpl _insert_fixup. run. run.
  destruct (decide (c = RED)) as [->|_]; cycle 1.
  { run. pose proof (member_heap _ _ _ _ Hwf (top_member nil t)) as Hth.
    rewrite set_color_eq by done. simpl. split.
    - destruct (decide (top nil t = nil)) as [E|E].
      + rewrite E. by apply heap_recolor_same.
      + by apply heap_recolor_ne.
    - by apply color_at_recolor_eq. }
  assert (q ≠ nil) as Hqnil by (intros ->; congruence).
  assert (p ≠ nil) as Hpnil.
  { intros ->. rewrite (wf_sentinel_parent _ _ _ Hwf) in Hpq. congruence. }
  assert (p ≠ top nil t) as Hptop.
  { intros ->. rewrite (wf_top_parent _ _ _ Hwf) in Hpq. congruence. }
  assert (color_at s (top nil t) = Some BLACK) as Hrootb by (by destruct Hrootc).
  assert (q ≠ top nil t) as Hqtop by (intros ->; congruence).
  destruct (wf_links _ _ _ _ Hwf Hq) as (g & qa & qb & Hqg & Hql & Hqr & Hg & _ & _).
  destruct (member_parent _ _ _ _ _ Hwf Hq Hqnil Hqtop Hqg) as [_ Hgnil].
  destruct (wf_links _ _ _ _ Hwf Hg) as (gg & ga & gb & Hgg & Hgl & Hgr & _ & Hga & Hgb).
  pose proof (member_heap _ _ _ _ Hwf Hq) as Hqh.
  pose proof (member_heap _ _ _ _ Hwf Hg) as Hgh.
  assert (forall u, u ≠ nil -> is_Some (heap s !! u) ->
    untouched nil (top nil t) s
      (_insert_fixup fuel (Some g)
         (recolor g RED (recolor u BLACK (recolor q BLACK s))))) as Hnext.
  { intros u Hu Huh.
    apply (untouched_from _ _ _ (recolor g RED (recolor u BLACK (recolor q BLACK s)))).
    { by rewrite !heap_recolor_ne. }
    apply IH; auto using wf_recolor, color_at_recolor_keep.
    destruct (decide (g = top nil t)) as [|Hgt]; [by right|left].
    rewrite color_at_recolor_ne by done.
    destruct (decide (u = top nil t)) as [<-|Hut].
    - apply color_at_recolor_eq. auto with eval.
    - rewrite !color_at_recolor_ne by done. done. }
  run. run. run.
  destruct (decide (Some q = Some ga)) as [E|E].
  - destruct (member_color _ _ _ _ Hwf Hgb) as [uc Huc].
    pose proof (member_heap _ _ _ _ Hwf Hgb) as Hgbh.
    run. run. run. run.
    destruct (decide (uc = RED)) as [->|_].
    + assert (gb ≠ nil) as Hgbnil by (intros ->; congruence).
      repeat run. by apply Hnext.
    + run. run. destruct (decide (Some p = Some qb)) as [_|_].
      * rewrite bind_assoc. run. rewrite bind_assoc. run_to_raise.
      * rewrite ret_bind. repeat run. run_to_raise.
  - destruct (member_color _ _ _ _ Hwf Hga) as [uc Huc].
    pose proof (member_heap _ _ _ _ Hwf Hga) as Hgah.
    run. run. run. run.
    destruct (decide (uc = RED)) as [->|_].
    + assert (ga ≠ nil) as Hganil by (intros ->; congruence).
      repeat run. by apply Hnext.
    + run. run. destruct (decide (Some p = Some qa)) as [_|_].
      * rewrite bind_assoc. run. rewrite bind_assoc. run_to_raise.
      * rewrite ret_bind. repeat run. run_to_raise.
Qed.

Lemma attached_color s nil t v x :
  wf s nil t -> x ≠ new_loc s -> color_at (attached s nil t v) x = color_at s x.
Proof.
  intros Hwf Hx. pose proof (wf_rep _ _ _ Hwf) as Hrep. unfold attached, color_at.
  destruct (find_slot_cases v nil t) as [Hdup|[[Htip Hs]|(q & Hq & Hs)]]; rewrite ?Hdup, ?Hs.
  - by rewrite heap_allocated_ne.
  - rewrite decide_True by done. simpl.
    rewrite lookup_alter_ne, lookup_insert_ne by done. done.
  - destruct (rep_locs_value _ _ _ _ _ _ Hrep Hq) as [w Hw].
    destruct (rep_locs_heap _ _ _ _ _ _ Hrep Hq) as [_ Hqnil].
    rewrite decide_False, Hw by done.
    destruct (decide (q = x)) as [->|Hqx].
    + rewrite heap_update_eq, heap_update_ne, heap_allocated_ne by done.
      destruct (heap s !! x), (v <? w); done.
    + rewrite !heap_update_ne, heap_allocated_ne by done. done.
Qed.

Lemma insert_untouched s nil t v fuel :
  wf s nil t -> color_at s nil = Some BLACK ->
  color_at s (top nil t) = Some BLACK ->
  untouched nil (top nil (graft v (new_loc s) t)) s (insert fuel v s).
Proof.
  intros Hwf Hblack Hrootb. rewrite (insert_eq _ _ _ _ Hwf).
  destruct (search_depth v t <? fuel)%nat; [|done].
  pose proof (new_not_sentinel _ _ _ Hwf) as Hn.
  pose proof (new_not_in_tree _ _ _ Hwf) as Hnt.
  destruct (find_slot v nil t) as [r|] eqn:Hs.
  - assert (wf (attached s nil t v) nil (graft v (new_loc s) t)) as Hwf2.
    { apply wf_attached_store; [done|]. by rewrite Hs. }
    pose proof (attached_sentinel s nil t v Hwf) as Hsent.
    apply (untouched_from _ _ _ (attached s nil t v)); [done|].
    apply fixup_untouched; [done|..].
    + unfold color_at in *. by rewrite Hsent.
    + destruct t as [|l p w r']; [by right|left].
      rewrite top_graft. rewrite attached_color; [done..|].
      intros E. apply Hnt. rewrite <- E. simpl.
      apply elem_of_app. right. apply elem_of_cons. by left.
    + right. rewrite (locs_graft _ _ _ _ _ Hs). apply elem_of_cons. by left.
  - rewrite (graft_duplicate _ _ _ _ Hs). split.
    + by rewrite heap_allocated_ne.
    + unfold color_at in *. rewrite heap_allocated_ne; [done|].
      intros E. destruct (top_cases nil t) as [E'|E']; [congruence|].
      apply Hnt. by rewrite <- E.
Qed.

(** In a loop of inserts that ends at the first exception, the sentinel
    object is, after each call, what [RBTree.__init__] made it. *)
Lemma insert_all_untouched fuel values : forall s nil t,
  wf s nil t -> color_at s nil = Some BLACK ->
  color_at s (top nil t) = Some BLACK ->
  match insert_all fuel values s with
  | Return _ s' | Raise _ s' => heap s' !! nil = heap s !! nil
  | OutOfFuel => True
  | Dangling => False
  end.
Proof.
  induction values as [|v values IH]; intros s nil t Hwf Hblack Hrootb; [done|].
  simpl insert_all. rewrite bind_unfold.
  pose proof (insert_untouched s nil t v fuel Hwf Hblack Hrootb) as Hu.
  pose proof (insert_wf s nil t v Hwf fuel) as Hwf1.
  destruct (insert fuel v s) as [[] s1|e s1| |]; simpl in Hu; try done; [|by destruct Hu].
  destruct Hu as [Hnil Hroot1].
  specialize (IH s1 nil _ (Hwf1 s1 eq_refl)).
  unfold color_at in IH at 1. rewrite Hnil in IH. specialize (IH Hblack Hroot1).
  destruct (insert_all fuel values s1); try done; congruence.
Qed.

Lemma sentinel_kept_until_first_raise fuel values :
  match insert_all fuel values new_tree with
  | Return _ s' | Raise _ s' => heap s' !! 1%positive = heap new_tree !! 1%positive
  | OutOfFuel => True
  | Dangling => False
  end.
Proof.
  apply (insert_all_untouched fuel values new_tree 1%positive Tip);
    [apply new_tree_wf|reflexivity..].
Qed.

(** ** Stores built by concrete runs *)

Lemma reachable_caught fuel values : forall s s',
  reachable s -> insert_all_caught fuel values s = Some s' -> reachable s'.
Proof.
  induction values as [|v values IH]; intros s s' Hs; simpl.
  - by intros [= <-].
  - destruct (after (insert fuel v s)) as [s1|] eqn:E; [|done].
    simpl. apply IH. by eapply reachable_insert.
Qed.

Ltac prove_rep :=
  repeat match goal with
  | |- rep _ _ _ _ Tip => apply rep_tip
  | |- rep _ ?nil _ _ (Fork ?l _ _ ?r) =>
      apply (rep_fork _ _ _ _ _ (Some (top nil l)) (Some (top nil r)));
      [done | reflexivity .. | | ]
  end.

Ltac prove_wf :=
  split; [reflexivity | reflexivity | reflexivity | prove_rep | reflexivity ..
         | compute_done ].

Lemma three_nodes_wf : wf three_nodes 1%positive three_nodes_shape.
Proof. unfold three_nodes_shape. prove_wf. Qed.

(** A store a catching caller reaches in which no amount of fuel lets
    [insert] finish: with a red sentinel the recoloring case climbs past the
    root and then applies to the sentinel for ever. *)
Lemma red_sentinel_insert_diverges :
  sentinel_color red_sentinel = Some RED /\
  forall fuel, insert fuel 50 red_sentinel = OutOfFuel.
Proof.
  split; [reflexivity|].
  intros [|[|[|m]]]; [vm_compute; reflexivity..|].
  vm_compute. apply (fixup_spins 1%positive m); reflexivity.
Qed.

(** * The claims of the specification *)

(** C1.  The specification says that after every call of [insert], in any
    finite sequence of calls on a new tree, the root is black, the sentinel
    is black, no red node has a red child, all paths carry the same number
    of black nodes and the values are ordered.  The code does not keep this:
    with enough fuel for the run ([3 + n], any [n]), the third call of the
    sequence 10, 20, 30 raises [AttributeError] for the attribute [nil] in
    [_rotate_left], and the tree it leaves has a red root and unequal black
    counts, so the check of the invariants fails. *)
Theorem ascending_insert_breaks_invariants n :
  raises (insert_all (3 + n) [10; 20; 30] new_tree) (AttributeError "nil") (fun s =>
    tree_of s = Some (Node RED Leaf 10 (Node BLACK Leaf 20 (Node RED Leaf 30 Leaf))) /\
    root_black <$> tree_of s = Some false /\
    black_height <$> tree_of s = Some None /\
    rb_invariants s = false).
Proof. vm_compute. auto. Qed.

(** C2.  The specification says that a call of [insert] either completes
    (value attached, invariants restored) or changes nothing, and that no
    half-done tree can be observed once the call has returned or raised.
    The code leaves one: after the inserts of 10 and 20, which return with
    the invariants in place, the insert of 30 raises, and the tree then
    holds 30 and is recolored but not rotated; it is neither the tree from
    before the call nor a tree satisfying the invariants. *)
Theorem insert_raises_half_done n :
  returns (insert_all (3 + n) [10; 20] new_tree) (fun s =>
    tree_of s = Some (Node BLACK Leaf 10 (Node RED Leaf 20 Leaf)) /\
    rb_invariants s = true /\
    raises (insert (3 + n) 30 s) (AttributeError "nil") (fun s' =>
      tree_of s' = Some (Node RED Leaf 10 (Node BLACK Leaf 20 (Node RED Leaf 30 Leaf))) /\
      rb_invariants s' = false)).
Proof. vm_compute. auto. Qed.

(** C3.  The specification says that inserting 10, 20, ..., 70 in this order
    into a new tree gives a tree of height at most 3.  The code raises at
    the third insert, when only 10, 20 and 30 are in the tree; and when the
    caller catches each exception and goes on, the result is the chain of
    seven nodes, of height 7, that the specification rules out. *)
Theorem ascending_seven_is_a_chain n :
  raises (insert_all (3 + n) [10; 20; 30; 40; 50; 60; 70] new_tree)
    (AttributeError "nil") (fun s =>
      inorder <$> tree_of s = Some [10; 20; 30]) /\
  caught (insert_all_caught (8 + n) [10; 20; 30; 40; 50; 60; 70] new_tree) (fun s =>
    tree_of s =
    Some (Node RED Leaf 10 (Node RED Leaf 20 (Node RED Leaf 30 (Node RED Leaf 40
         (Node RED Leaf 50 (Node BLACK Leaf 60 (Node RED Leaf 70 Leaf))))))) /\
    height <$> tree_of s = Some 7%nat).
Proof. split; vm_compute; auto. Qed.

(** The early [return] of [insert]: the descent finds the value, and the
    store is the old one plus the object created for [v]. *)
Lemma insert_present s nil t v fuel p :
  wf s nil t -> bst t ->
  in_tree s p -> value_of s p = Some (Some v) ->
  (levels t < fuel)%nat ->
  insert fuel v s = Return tt (allocated (new_node v nil) s).
Proof.
  intros Hwf Hbst Hp Hv Hfuel.
  assert (v ∈ keys t) as Hkey.
  { destruct (in_tree_member _ _ _ _ Hwf Hp) as [->|Hin].
    - rewrite (wf_sentinel_value _ _ _ Hwf) in Hv. congruence.
    - eapply rep_value_keys; eauto using wf_rep. }
  rewrite (insert_eq _ _ _ _ Hwf). pose proof (search_depth_levels v t).
  destruct (Nat.ltb_spec (search_depth v t) fuel) as [_|?]; [|lia].
  by rewrite (find_slot_present _ _ _ Hbst Hkey).
Qed.

(** The same for the stores a program reaches: enough fuel lets the call
    return with every existing object as it was. *)
Lemma reachable_duplicate_noop s p v :
  reachable s -> in_tree s p -> value_of s p = Some (Some v) ->
  exists N, forall fuel, (N <= fuel)%nat ->
    exists s', insert fuel v s = Return tt s' /\ self s' = self s /\
               (forall x nd, heap s !! x = Some nd -> heap s' !! x = Some nd).
Proof.
  intros (nil & t & Hwf & Hbst)%reachable_ordered Hp Hv.
  exists (S (levels t)). intros fuel Hfuel.
  exists (allocated (new_node v nil) s). repeat split.
  - apply (insert_present s nil t v fuel p); auto with lia.
  - intros x nd Hx. rewrite heap_allocated_ne; [done|].
    intros ->. pose proof (new_loc_fresh s). congruence.
Qed.

(** C4.  Inserting a value that the tree already holds changes nothing and
    does not fail: for every well-formed, ordered tree and every object [p]
    of it that carries [v], [insert v] returns, the attributes [root] and
    [NIL] are as before, and every object of the store is as before in
    value, color and links.  The only difference is the object created for
    [v] at the start of the call, which sits at an address that was free
    and is no part of the tree. *)
Theorem insert_duplicate_noop s nil t v fuel p :
  wf s nil t -> bst t ->
  in_tree s p -> value_of s p = Some (Some v) ->
  (levels t < fuel)%nat ->
  exists s',
    insert fuel v s = Return tt s' /\
    self s' = self s /\
    (forall x nd, heap s !! x = Some nd -> heap s' !! x = Some nd) /\
    heap s !! new_loc s = None /\
    heap s' = <[new_loc s := new_node v nil]> (heap s) /\
    ~ in_tree s' (new_loc s).
Proof.
  intros Hwf Hbst Hp Hv Hfuel.
  exists (allocated (new_node v nil) s).
  pose proof (new_loc_fresh s) as Hfresh.
  repeat split; try done.
  - by apply (insert_present s nil t v fuel p).
  - intros x nd Hx. rewrite heap_allocated_ne; [done|]. intros ->. congruence.
  - intros Hin. pose proof (wf_allocated _ _ _ v Hwf) as Hwf0.
    destruct (in_tree_member _ _ _ _ Hwf0 Hin) as [E|E].
    + by apply (new_not_sentinel _ _ _ Hwf).
    + by apply (new_not_in_tree _ _ _ Hwf).
Qed.

Lemma insert_duplicate_noop_witness :
  exists s',
    insert 3 10 three_nodes = Return tt s' /\
    self s' = self three_nodes /\
    (forall x nd, heap three_nodes !! x = Some nd -> heap s' !! x = Some nd) /\
    heap three_nodes !! new_loc three_nodes = None /\
    heap s' = <[new_loc three_nodes := new_node 10 1%positive]> (heap three_nodes) /\
    ~ in_tree s' (new_loc three_nodes).
Proof.
  apply (insert_duplicate_noop three_nodes 1%positive three_nodes_shape 10 3 3%positive).
  - unfold three_nodes_shape. prove_wf.
  - simpl. repeat split; repeat constructor; lia.
  - apply (in_tree_left _ 2%positive); [apply in_tree_root|]; reflexivity.
  - reflexivity.
  - simpl. lia.
Defined.

(** C5.  The specification says that [rotate_left] on a node whose right
    child is a real node repoints the links of the two nodes and of their
    neighbours, and [rotate_right] likewise.  The code repoints nothing: in
    the tree holding 10 with right child 20, [_rotate_left] on the root
    raises [AttributeError] for [self.nil] and leaves the store exactly as
    it was; the same for [_rotate_right] on the root of the tree holding 20
    with left child 10. *)
Theorem rotations_never_rotate n :
  returns (insert_all (2 + n) [10; 20] new_tree) (fun s =>
    sentinel s = Some 1%positive /\
    self s !! "root" = Some (Some 2%positive) /\
    right_of s 2%positive = Some (Some 3%positive) /\
    _rotate_left (Some 2%positive) s = Raise (AttributeError "nil") s) /\
  returns (insert_all (2 + n) [20; 10] new_tree) (fun s =>
    sentinel s = Some 1%positive /\
    self s !! "root" = Some (Some 2%positive) /\
    left_of s 2%positive = Some (Some 3%positive) /\
    _rotate_right (Some 2%positive) s = Raise (AttributeError "nil") s).
Proof. split; vm_compute; auto. Qed.

(** C6.  Inserting 20, 10, 25, 5, 15, 30 in this order into a new tree
    returns each time and gives: root 20 black, its children 10 and 25
    black, 5 and 15 red below 10, 30 red to the right of 25, and the left
    link of 25 (the object at address 4) equal to the sentinel (address
    1). *)
Theorem scenario1_tree n :
  returns (insert_all (3 + n) [20; 10; 25; 5; 15; 30] new_tree) (fun s =>
    tree_of s =
    Some (Node BLACK
            (Node BLACK (Node RED Leaf 5 Leaf) 10 (Node RED Leaf 15 Leaf))
            20
            (Node BLACK Leaf 25 (Node RED Leaf 30 Leaf))) /\
    sentinel s = Some 1%positive /\
    value_of s 4%positive = Some (Some 25) /\
    left_of s 4%positive = Some (Some 1%positive)).
Proof. vm_compute. auto. Qed.

(** C7.  The specification says that no sequence of inserts ever writes to
    the sentinel and that its color stays black.  The code writes to it:
    the third call of the sequence 30, 20, 10 raises and leaves the root
    red; the next call, [insert 40], then finds the sentinel as the
    grandparent of the new node, colors it red and raises as well. *)
Theorem sentinel_turns_red n :
  sentinel_color new_tree = Some BLACK /\
  raises (insert_all (3 + n) [30; 20; 10] new_tree) (AttributeError "nil") (fun s =>
    sentinel_color s = Some BLACK /\
    raises (insert (3 + n) 40 s) (AttributeError "nil") (fun s' =>
      sentinel_color s' = Some RED /\
      tree_of s' = Some (Node BLACK (Node BLACK (Node RED Leaf 10 Leaf) 20 Leaf) 30
                           (Node RED Leaf 40 Leaf)))).
Proof. split; vm_compute; auto. Qed.

(** C8.  On a well-formed tree whose sentinel is black, the loop of
    [_insert_fixup] that [insert] starts on the new node is left after
    finitely many rounds: with more fuel than the tree has levels, [insert]
    returns or raises the [AttributeError] of a rotation, and never runs
    out of fuel.  Of the invariants only the black sentinel is needed. *)
Theorem insert_fixup_terminates s nil t v fuel :
  wf s nil t -> color_at s nil = Some BLACK -> (levels t < fuel)%nat ->
  finished (insert fuel v s).
Proof. apply insert_finishes. Qed.

Lemma insert_fixup_terminates_witness : finished (insert 3 5 three_nodes).
Proof.
  apply (insert_fixup_terminates three_nodes 1%positive three_nodes_shape 5 3).
  - unfold three_nodes_shape. prove_wf.
  - reflexivity.
  - simpl. lia.
Defined.

(** Where the attribute that the guard reads names the sentinel, the guard
    of a rotation whose pivot is the sentinel is a plain [return]. *)
Lemma rotate_left_guard s p nil :
  right_of s p = Some (Some nil) -> self s !! "nil" = Some (Some nil) ->
  _rotate_left (Some p) s = Return tt s.
Proof.
  intros Hr Hnil. unfold _rotate_left.
  rewrite (bind_Return _ _ s (Some nil) s) by (by apply get_right_eq).
  rewrite (bind_Return _ _ s (Some nil) s) by (by apply self_attr_eq).
  by rewrite decide_True.
Qed.

Lemma rotate_right_guard s p nil :
  left_of s p = Some (Some nil) -> self s !! "nil" = Some (Some nil) ->
  _rotate_right (Some p) s = Return tt s.
Proof.
  intros Hl Hnil. unfold _rotate_right.
  rewrite (bind_Return _ _ s (Some nil) s) by (by apply get_left_eq).
  rewrite (bind_Return _ _ s (Some nil) s) by (by apply self_attr_eq).
  by rewrite decide_True.
Qed.




(** C10.  In every store reached from a new tree by calls of [insert],
    returned or raised, no object of the tree has [None] as its parent: the
    three links of the sentinel lead to the sentinel, the parent of the
    root is the sentinel, and the parent of every other node is a node that
    carries a value.  A test [parent is None] is therefore false at every
    object of the tree. *)
Theorem parent_is_never_None s : reachable s -> parents_set s.
Proof.
  intros (nil & t & Hwf)%reachable_wf. pose proof (wf_rep _ _ _ Hwf) as Hrep.
  exists nil, (top nil t). pose proof Hwf as [? ? ? ? ? ? ? ? ?].
  repeat split; try done.
  - by eapply wf_top_parent.
  - intros p Hp%(in_tree_member _ nil t); [|done].
    destruct (wf_links _ _ _ _ Hwf Hp) as (q&?&?&?&_). eauto.
  - intros p Hin Hpn Hpr.
    destruct (in_tree_member _ _ _ _ Hwf Hin) as [?|Hp]; [done|].
    destruct (rep_links _ _ _ _ _ _ Hrep Hp) as (q&?&?&Hq&_&_&_&_&[[? _]|Hqt]); [done|].
    destruct (rep_locs_value _ _ _ _ _ _ Hrep Hqt) as [w' ?].
    destruct (rep_locs_heap _ _ _ _ _ _ Hrep Hqt) as [_ ?].
    exists q, w'. repeat split; try done. by eapply in_tree_parent.
Qed.

Lemma parent_is_never_None_witness : parents_set after_raise.
Proof.
  apply (parent_is_never_None after_raise).
  apply (reachable_caught 3 [30; 20; 10] new_tree); [constructor|reflexivity].
Defined.

(** * Further properties of [RBTree] *)

(** ** Shapes and the observed tree *)

Lemma snapshot_rep s nil par r t fuel :
  rep s nil par r t -> (levels t < fuel)%nat ->
  snapshot fuel (heap s) nil r = Some (paint s t).
Proof.
  intros Hrep. revert fuel.
  induction Hrep as [|par p v pl pr l r Hp Hv Hpar Hl Hr _ IHl _ IHr]; intros fuel Hfuel.
  - destruct fuel as [|fuel]; [lia|]. simpl. by rewrite decide_True.
  - destruct fuel as [|fuel]; [lia|]. simpl in *.
    rewrite decide_False by done.
    unfold value_of, left_of, right_of, col, color_at in *.
    destruct (heap s !! p) as [nd|]; simplify_eq/=.
    rewrite Hv. simpl. rewrite IHl, IHr by lia. done.
Qed.

Lemma locs_in_heap s nil par r t :
  rep s nil par r t -> list_to_set (locs t) ⊆ dom (heap s).
Proof.
  intros Hrep x Hx%elem_of_list_to_set.
  apply elem_of_dom. by destruct (rep_locs_heap _ _ _ _ _ _ Hrep Hx).
Qed.

Lemma levels_length t : (levels t <= length (locs t))%nat.
Proof. induction t; simpl; rewrite ?length_app; simpl; lia. Qed.

Lemma levels_size s nil t : wf s nil t -> (levels t <= size (heap s))%nat.
Proof.
  intros Hwf. pose proof (levels_length t).
  pose proof (subseteq_size _ _ (locs_in_heap _ _ _ _ _ (wf_rep _ _ _ Hwf))) as H1.
  rewrite size_list_to_set in H1 by apply (wf_nodup _ _ _ Hwf).
  rewrite size_dom in H1. lia.
Qed.

Lemma tree_of_wf s nil t : wf s nil t -> tree_of s = Some (paint s t).
Proof.
  intros Hwf. unfold tree_of, sentinel.
  rewrite (wf_NIL _ _ _ Hwf), (wf_root _ _ _ Hwf). cbn -[snapshot].
  apply (snapshot_rep s nil nil); [apply (wf_rep _ _ _ Hwf)|].
  pose proof (levels_size _ _ _ Hwf). lia.
Qed.

Lemma sentinel_color_wf s nil t : wf s nil t -> sentinel_color s = color_at s nil.
Proof.
  intros Hwf. unfold sentinel_color, sentinel, color_at.
  rewrite (wf_NIL _ _ _ Hwf). simpl. by destruct (heap s !! nil).
Qed.

Lemma inorder_paint s t : inorder (paint s t) = keys t.
Proof. induction t; simpl; congruence. Qed.

Lemma height_paint s t : height (paint s t) = levels t.
Proof. induction t; simpl; congruence. Qed.

(** ** Ordered lists *)

Lemma increasing_cons a l :
  increasing (a :: l) = true <-> Forall (fun x => a < x) l /\ increasing l = true.
Proof.
  revert a. induction l as [|b l IH]; intros a.
  - simpl. split; [intros _; split; [constructor|done]|done].
  - change (increasing (a :: b :: l)) with ((a <? b) && increasing (b :: l)).
    rewrite andb_true_iff, Z.ltb_lt, Forall_cons. split.
    + intros [Hab Hl]. repeat split; try done.
      apply IH in Hl as [Hl _]. eapply Forall_impl; [exact Hl|]. simpl. lia.
    + intros [[Hab _] Hl]. done.
Qed.

Lemma increasing_app l1 v l2 :
  increasing (l1 ++ v :: l2) = true <->
  increasing l1 = true /\ increasing l2 = true /\
  Forall (fun x => x < v) l1 /\ Forall (fun x => v < x) l2.
Proof.
  induction l1 as [|a l1 IH].
  - simpl app. rewrite increasing_cons. split.
    + intros [? ?]. repeat split; done.
    + intros (_ & ? & _ & ?). done.
  - rewrite <- app_comm_cons, !increasing_cons, IH, Forall_app, !Forall_cons. split.
    + intros ((Ha1 & Hav & Ha2) & H1 & H2 & Hl1 & Hl2). repeat split; done.
    + intros ((Ha1 & H1) & H2 & (Hav & Hl1) & Hl2). repeat split; try done.
      eapply Forall_impl; [exact Hl2|]. simpl. lia.
Qed.

Lemma bst_increasing t : bst t <-> increasing (keys t) = true.
Proof.
  induction t as [|l IHl p v r IHr]; simpl; [done|].
  rewrite increasing_app, IHl, IHr. tauto.
Qed.

(** ** Values of the tree after [insert] *)

Lemma graft_holds_value v new t : v ∈ keys (graft v new t).
Proof.
  induction t as [|l IHl p w r IHr]; simpl.
  - apply elem_of_cons. by left.
  - destruct (v <? w) eqn:E1; [|destruct (v >? w) eqn:E2]; simpl;
      rewrite elem_of_app, elem_of_cons; [by left|by right; right|].
    right. left. apply Z.ltb_ge in E1. rewrite Z.gtb_ltb in E2.
    apply Z.ltb_ge in E2. lia.
Qed.

Lemma graft_keeps_keys v new t x : x ∈ keys t -> x ∈ keys (graft v new t).
Proof.
  induction t as [|l IHl p w r IHr]; simpl.
  - by intros ?%elem_of_nil.
  - destruct (v <? w); [|destruct (v >? w)]; simpl;
      rewrite !elem_of_app, !elem_of_cons; intuition.
Qed.

Lemma keys_graft_iff v new t x : x ∈ keys (graft v new t) <-> x = v \/ x ∈ keys t.
Proof.
  split; [apply keys_graft|].
  intros [->|?]; [apply graft_holds_value|by apply graft_keeps_keys].
Qed.

Lemma caught_inserts_wf fuel values : forall s nil t s',
  wf s nil t -> bst t -> insert_all_caught fuel values s = Some s' ->
  exists t', wf s' nil t' /\ bst t' /\
             forall x, x ∈ keys t' <-> x ∈ values \/ x ∈ keys t.
Proof.
  induction values as [|v values IH]; intros s nil t s' Hwf Hbst; simpl.
  - intros [= <-]. exists t. split; [done|]. split; [done|]. intros x. split.
    + by right.
    + by intros [?%elem_of_nil|?].
  - destruct (after (insert fuel v s)) as [s1|] eqn:E; [|done]. simpl. intros Hrest.
    pose proof (insert_wf _ _ _ _ Hwf _ _ E) as Hwf1.
    destruct (IH _ _ _ _ Hwf1 (bst_graft v (new_loc s) t Hbst) Hrest) as (t' & ? & ? & Hk).
    exists t'. split; [done|]. split; [done|]. intros x. split; intros Hx.
    + apply Hk in Hx as [?|[->|?]%keys_graft_iff]; rewrite ?elem_of_cons; auto.
    + apply Hk. rewrite keys_graft_iff. rewrite elem_of_cons in Hx. tauto.
Qed.

(** X1.  Invariant 6 survives everything: in every store reached from a new
    tree by calls of [insert], whether they returned or raised, the tree can
    be read off the store and its values, read in order, strictly increase
    (so no value is stored twice). *)
Theorem reachable_tree_ordered s :
  reachable s -> exists ct, tree_of s = Some ct /\ increasing (inorder ct) = true.
Proof.
  intros (nil & t & Hwf & Hbst)%reachable_ordered.
  exists (paint s t). split; [by eapply tree_of_wf|].
  rewrite inorder_paint. by apply bst_increasing.
Qed.

Lemma reachable_tree_ordered_witness :
  exists ct, tree_of after_raise = Some ct /\ increasing (inorder ct) = true.
Proof.
  apply (reachable_tree_ordered after_raise).
  apply (reachable_caught 3 [30; 20; 10] new_tree); [constructor|reflexivity].
Defined.

(** X2.  [insert] adds its value and nothing else: once a call of [insert v]
    on a reachable store has returned or raised, the tree holds [v] and
    exactly the values it held before.  This is so even when the call
    raises in a rotation, since the node is linked before the fixup. *)
Theorem insert_adds_value s ct fuel v s' :
  reachable s -> tree_of s = Some ct ->
  after (insert fuel v s) = Some s' ->
  exists ct', tree_of s' = Some ct' /\
              forall x, x ∈ inorder ct' <-> x = v \/ x ∈ inorder ct.
Proof.
  intros (nil & t & Hwf)%reachable_wf Hct Hafter.
  rewrite (tree_of_wf _ _ _ Hwf) in Hct. simplify_eq.
  pose proof (insert_wf _ _ _ _ Hwf _ _ Hafter) as Hwf'.
  exists (paint s' (graft v (new_loc s) t)). split; [by eapply tree_of_wf|].
  intros x. rewrite !inorder_paint. apply keys_graft_iff.
Qed.

Lemma insert_adds_value_witness :
  exists ct', tree_of after_raise = Some ct' /\
    forall x, x ∈ inorder ct' <-> x = 10 \/
              x ∈ inorder (Node BLACK (Node RED Leaf 20 Leaf) 30 Leaf).
Proof.
  apply (insert_adds_value
           (default new_tree (insert_all_caught 3 [30; 20] new_tree))
           (Node BLACK (Node RED Leaf 20 Leaf) 30 Leaf) 3 10 after_raise).
  - apply (reachable_caught 3 [30; 20] new_tree); [constructor|reflexivity].
  - reflexivity.
  - reflexivity.
Defined.

(** X3.  Whenever a run of inserts on a new tree, the caller going on
    after every exception, comes to an end, that is, whenever each call
    returns or raises, the tree holds exactly the values of the list, in
    strictly increasing order: in-order traversal gives the inserted values
    without repetition.  (A call need not come to an end once the sentinel
    has been colored red, see [red_sentinel_insert_diverges].) *)
Theorem inserted_values_in_order fuel values s :
  insert_all_caught fuel values new_tree = Some s ->
  exists ct, tree_of s = Some ct /\ increasing (inorder ct) = true /\
             forall x, x ∈ inorder ct <-> x ∈ values.
Proof.
  intros Hrun.
  destruct (caught_inserts_wf fuel values new_tree 1%positive Tip s new_tree_wf I Hrun)
    as (t & Hwf & Hbst & Hk).
  exists (paint s t). rewrite inorder_paint.
  split; [by eapply tree_of_wf|]. split; [by apply bst_increasing|].
  intros x. rewrite Hk. split; [intros [?|?%elem_of_nil]; done|auto].
Qed.

Lemma inserted_values_in_order_witness :
  exists ct, tree_of red_sentinel = Some ct /\ increasing (inorder ct) = true /\
             forall x, x ∈ inorder ct <-> x ∈ [30; 20; 10; 40; 25; 5].
Proof.
  apply (inserted_values_in_order 4 [30; 20; 10; 40; 25; 5] red_sentinel).
  reflexivity.
Defined.

(** X4.  [_insert_fixup] never changes the shape of the tree.  Started on a
    well-formed tree, on any node and with any fuel, it leaves [root] and
    [NIL], every value and every [parent], [left] and [right] link as they
    were, whether it returns or raises; it only writes colors.  (The
    rotations it calls raise before their first write.) *)
Theorem fixup_only_recolors s nil t fuel node s' :
  wf s nil t -> after (_insert_fixup fuel node s) = Some s' ->
  same_links s s' /\ wf s' nil t.
Proof.
  intros Hwf Hafter. split; [|by eapply after_fixup_wf].
  pose proof (frames_insert_fixup fuel node s (wf_no_nil _ _ _ Hwf)) as H.
  destruct (_insert_fixup fuel node s); by simplify_eq/=.
Qed.

Lemma fixup_only_recolors_witness :
  (_insert_fixup 3 (Some 4%positive) third_attached =
     Raise (AttributeError "nil") after_raise /\
   color_at third_attached 3%positive = Some RED /\
   color_at after_raise 3%positive = Some BLACK /\
   color_at third_attached 2%positive = Some BLACK /\
   color_at after_raise 2%positive = Some RED) /\
  same_links third_attached after_raise /\
  wf after_raise 1%positive third_attached_shape.
Proof.
  split; [vm_compute; repeat split|].
  apply (fixup_only_recolors third_attached 1%positive third_attached_shape 3
           (Some 4%positive)).
  - unfold third_attached_shape. prove_wf.
  - vm_compute. reflexivity.
Defined.

(** X5.  While no call has raised, the sentinel is not disturbed: in the
    loop [for v in values: tree.insert(v)] on a new tree, which ends at the
    first exception, the sentinel object is after the last call, returned
    or raised, exactly what [RBTree.__init__] made it: black, without
    value, and linked to itself. *)
Theorem sentinel_kept fuel values s' :
  after (insert_all fuel values new_tree) = Some s' ->
  sentinel_color s' = Some BLACK /\
  heap s' !! 1%positive =
  Some (mkRBNode None BLACK (Some 1%positive) (Some 1%positive) (Some 1%positive)).
Proof.
  intros Hafter.
  pose proof (insert_all_untouched fuel values new_tree 1%positive Tip
                new_tree_wf eq_refl eq_refl) as H.
  assert (heap s' !! 1%positive = heap new_tree !! 1%positive) as Hs.
  { destruct (insert_all fuel values new_tree); by simplify_eq/=. }
  assert (self s' !! "NIL" = Some (Some 1%positive)) as HNIL.
  { clear H Hs. revert Hafter. generalize new_tree_wf. generalize Tip. generalize new_tree.
    induction values as [|v values IH]; intros s t Hwf; simpl.
    - intros [= <-]. apply (wf_NIL _ _ _ Hwf).
    - rewrite bind_unfold. pose proof (insert_wf _ _ _ v Hwf fuel) as Hwf1.
      destruct (insert fuel v s) as [[] s1|e s1| |]; try done.
      + apply (IH s1 _ (Hwf1 s1 eq_refl)).
      + intros [= <-]. apply (wf_NIL _ _ _ (Hwf1 s1 eq_refl)). }
  unfold sentinel_color, sentinel. rewrite HNIL. simpl. rewrite Hs. done.
Qed.

Lemma sentinel_kept_witness :
  sentinel_color six_nodes = Some BLACK /\
  heap six_nodes !! 1%positive =
  Some (mkRBNode None BLACK (Some 1%positive) (Some 1%positive) (Some 1%positive)).
Proof.
  apply (sentinel_kept 3 [20; 10; 25; 5; 15; 30] six_nodes). reflexivity.
Defined.

(** X6.  The first insert: on a new tree, [insert v] returns for every [v]
    (one unit of fuel is enough, no comparison is made) and leaves a single
    black node carrying [v] as the root, with the sentinel on both sides. *)
Theorem insert_into_empty v n :
  returns (insert (1 + n) v new_tree) (fun s =>
    tree_of s = Some (Node BLACK Leaf v Leaf) /\
    rb_invariants s = true).
Proof. vm_compute. auto. Qed.

(** ** The color rules on shapes and on observed trees *)

Lemma col_sentinel s nil : color_at s nil = Some BLACK -> col s nil = BLACK.
Proof. unfold col. by intros ->. Qed.

Lemma col_recolor_ne p c s x : p ≠ x -> col (recolor p c s) x = col s x.
Proof. intros. unfold col. by rewrite color_at_recolor_ne. Qed.

Lemma col_recolor_eq p c s :
  is_Some (heap s !! p) -> col (recolor p c s) p = c.
Proof. intros. unfold col. by rewrite color_at_recolor_eq. Qed.

Lemma col_color_at s p c : color_at s p = Some c -> col s p = c.
Proof. unfold col. by intros ->. Qed.

Lemma paint_agree s s' t :
  (forall x, x ∈ locs t -> col s' x = col s x) -> paint s' t = paint s t.
Proof.
  induction t as [|l IHl p v r IHr]; simpl; [done|]. intros H.
  rewrite H, IHl, IHr; try done.
  - intros x Hx. apply H. apply elem_of_app. right. apply elem_of_cons. by right.
  - intros x Hx. apply H. apply elem_of_app. by left.
  - apply elem_of_app. right. apply elem_of_cons. by left.
Qed.

Lemma color_of_paint s nil t :
  col s nil = BLACK -> color_of (paint s t) = col s (top nil t).
Proof. intros H. by destruct t. Qed.

Lemma no_red_red_paint s nil t :
  col s nil = BLACK -> no_red_red (paint s t) = true <-> nrr_but None s nil t.
Proof.
  intros Hnil. induction t as [|l IHl p v r IHr]; simpl; [done|].
  rewrite !andb_true_iff, orb_true_iff, andb_true_iff, !bool_decide_eq_true.
  rewrite IHl, IHr, !(color_of_paint s nil) by done.
  split.
  - intros [[Hc Hl] Hr]. split; [done|]. split; [done|]. intros Hred.
    destruct Hc as [?|[? ?]]; [congruence|]. split; intros _; done.
  - intros (Hl & Hr & Hc). repeat split; try done.
    destruct (col s p) eqn:E; [right|by left].
    destruct (Hc eq_refl) as [H1 H2]. split; [apply H1|apply H2]; done.
Qed.

Lemma rb_invariants_wf s nil t :
  wf s nil t -> rb_invariants s = true <-> red_black s nil t.
Proof.
  intros Hwf. unfold rb_invariants, root_black, sentinel_black.
  rewrite (tree_of_wf _ _ _ Hwf), (sentinel_color_wf _ _ _ Hwf).
  rewrite !andb_true_iff, !bool_decide_eq_true, inorder_paint, <- bst_increasing.
  split.
  - intros ((((Hroot & Hnil) & Hred) & Hbh) & Hord).
    pose proof (col_sentinel _ _ Hnil) as Hcn.
    split; try done.
    + by rewrite <- (color_of_paint s nil).
    + by apply no_red_red_paint.
  - intros [_ Hroot Hnil Hred Hbh Hord].
    pose proof (col_sentinel _ _ Hnil) as Hcn.
    repeat split; try done.
    + by rewrite (color_of_paint s nil).
    + by apply (no_red_red_paint s nil).
Qed.

(** ** Parents and children in a well-formed tree *)

Lemma rep_top_parent s nil par r t :
  rep s nil par r t -> top nil t ≠ nil ->
  parent_of s (top nil t) = Some (Some par) /\ top nil t ∈ locs t.
Proof.
  destruct 1; simpl; [done|]. intros _. split; [done|].
  apply elem_of_app. right. apply elem_of_cons. by left.
Qed.

(** The subtree below a node [g] of a tree. *)
Lemma subtree_at s nil g : forall t par0 r0,
  rep s nil par0 r0 t -> NoDup (locs t) -> par0 ∉ locs t -> g ∈ locs t ->
  exists par l v r,
    rep s nil par (Some g) (Fork l g v r) /\
    NoDup (locs (Fork l g v r)) /\ (par ∉ locs (Fork l g v r)) /\
    (forall x, x ∈ locs (Fork l g v r) -> x ∈ locs t).
Proof.
  induction t as [|l IHl p v r IHr]; intros par0 r0 Hrep Hnd Hpar Hg.
  - by apply elem_of_nil in Hg.
  - inversion Hrep as [|? ? ? pl pr ? ? Hp Hv Hpp Hl Hr Hrl Hrr]; subst.
    simpl in Hnd, Hg, Hpar. pose proof Hnd as Hnd'.
    apply NoDup_app in Hnd as (Hndl & Hlr & Hndr).
    apply NoDup_cons in Hndr as (Hpr & Hndr).
    assert (p ∉ locs l) as Hpl.
    { intros ?. eapply Hlr; [done|]. apply elem_of_cons. auto. }
    rewrite elem_of_app, elem_of_cons in Hg. destruct Hg as [Hg|[->|Hg]].
    + destruct (IHl _ _ Hrl Hndl Hpl Hg) as (par & l' & v' & r' & ? & ? & ? & Hin).
      exists par, l', v', r'. repeat split; try done.
      intros x Hx. simpl. apply elem_of_app. left. by apply Hin.
    + exists par0, l, v, r. repeat split; done.
    + destruct (IHr _ _ Hrr Hndr Hpr Hg) as (par & l' & v' & r' & ? & ? & ? & Hin).
      exists par, l', v', r'. repeat split; try done.
      intros x Hx. simpl. apply elem_of_app. right. apply elem_of_cons. right.
      by apply Hin.
Qed.

Lemma wf_subtree s nil t g :
  wf s nil t -> g ∈ locs t ->
  exists par l v r,
    rep s nil par (Some g) (Fork l g v r) /\
    NoDup (locs (Fork l g v r)) /\ (par ∉ locs (Fork l g v r)) /\
    (forall x, x ∈ locs (Fork l g v r) -> x ∈ locs t).
Proof.
  intros Hwf Hg. apply (subtree_at s nil g t nil (Some (top nil t))); try done.
  - apply (wf_rep _ _ _ Hwf).
  - apply (wf_nodup _ _ _ Hwf).
  - intros H. by destruct (rep_locs_heap _ _ _ _ _ _ (wf_rep _ _ _ Hwf) H).
Qed.

(** What the two children of a node are like. *)
Lemma wf_children s nil t g a b :
  wf s nil t -> g ∈ locs t ->
  left_of s g = Some (Some a) -> right_of s g = Some (Some b) ->
  parent_of s g ≠ Some (Some g) /\
  (a ≠ nil -> parent_of s a = Some (Some g) /\ a ∈ locs t /\ a ≠ b /\ a ≠ g) /\
  (b ≠ nil -> parent_of s b = Some (Some g) /\ b ∈ locs t /\ a ≠ b /\ b ≠ g).
Proof.
  intros Hwf Hg Ha Hb.
  destruct (wf_subtree _ _ _ _ Hwf Hg) as (par & l & v & r & Hrep & Hnd & Hpar & Hin).
  inversion Hrep as [|? ? ? pl pr ? ? Hp Hv Hpp Hl Hr Hrl Hrr]; subst.
  rewrite Ha in Hl. rewrite Hb in Hr. simplify_eq.
  pose proof (rep_top _ _ _ _ _ Hrl) as El. pose proof (rep_top _ _ _ _ _ Hrr) as Er.
  simplify_eq. simpl in Hnd, Hpar, Hin.
  apply NoDup_app in Hnd as (Hndl & Hlr & Hndr).
  apply NoDup_cons in Hndr as (Hgr & Hndr).
  split; [|split].
  - rewrite Hpp. intros [= ->]. apply Hpar.
    apply elem_of_app. right. apply elem_of_cons. by left.
  - intros Hn. destruct (rep_top_parent _ _ _ _ _ Hrl Hn) as [? Hal].
    repeat split; try done.
    + apply Hin. apply elem_of_app. by left.
    + intros E. eapply Hlr; [exact Hal|]. apply elem_of_cons. right.
      rewrite E in Hn. rewrite E. by apply (rep_top_parent _ _ _ _ _ Hrr Hn).
    + intros E. eapply Hlr; [exact Hal|]. apply elem_of_cons. by left.
  - intros Hn. destruct (rep_top_parent _ _ _ _ _ Hrr Hn) as [? Hbr].
    repeat split; try done.
    + apply Hin. apply elem_of_app. right. apply elem_of_cons. by right.
    + intros E. rewrite <- E in Hn.
      destruct (rep_top_parent _ _ _ _ _ Hrl Hn) as [_ Hal].
      eapply Hlr; [exact Hal|]. apply elem_of_cons. right. by rewrite E.
    + intros E. apply Hgr. by rewrite <- E.
Qed.

(** A node other than the root is the left or the right child of its
    parent. *)
Lemma child_of_parent s nil q g : forall t par r,
  rep s nil par r t -> q ∈ locs t -> q ≠ top nil t ->
  parent_of s q = Some (Some g) ->
  left_of s g = Some (Some q) \/ right_of s g = Some (Some q).
Proof.
  induction t as [|l IHl p v r' IHr]; intros par r Hrep Hq Hqt Hqg.
  - by apply elem_of_nil in Hq.
  - inversion Hrep as [|? ? ? pl pr ? ? Hp Hv Hpp Hl Hr Hrl Hrr]; subst.
    simpl in Hq, Hqt. rewrite elem_of_app, elem_of_cons in Hq.
    destruct Hq as [Hq|[->|Hq]]; [|done|].
    + destruct (decide (q = top nil l)) as [->|Hne].
      * assert (top nil l ≠ nil) as Hn.
        { by destruct (rep_locs_heap _ _ _ _ _ _ Hrl Hq). }
        destruct (rep_top_parent _ _ _ _ _ Hrl Hn) as [Hpar _].
        rewrite Hpar in Hqg. simplify_eq. left.
        by rewrite Hl, (rep_top _ _ _ _ _ Hrl).
      * by eapply IHl.
    + destruct (decide (q = top nil r')) as [->|Hne].
      * assert (top nil r' ≠ nil) as Hn.
        { by destruct (rep_locs_heap _ _ _ _ _ _ Hrr Hq). }
        destruct (rep_top_parent _ _ _ _ _ Hrr Hn) as [Hpar _].
        rewrite Hpar in Hqg. simplify_eq. right.
        by rewrite Hr, (rep_top _ _ _ _ _ Hrr).
      * by eapply IHr.
Qed.

(** ** The recoloring case of the fixup *)

Lemma nrr_node e s nil g c : forall t par r,
  rep s nil par r t -> nrr_but e s nil t -> g ∈ locs t ->
  col s g = RED ->
  left_of s g = Some (Some c) \/ right_of s g = Some (Some c) ->
  Some c ≠ e -> col s c = BLACK.
Proof.
  induction t as [|l IHl p v r' IHr]; intros par r Hrep Hnrr Hg Hred Hc He.
  - by apply elem_of_nil in Hg.
  - inversion Hrep as [|? ? ? pl pr ? ? Hp Hv Hpp Hl Hr Hrl Hrr]; subst.
    destruct Hnrr as (Hnl & Hnr & Hn). simpl in Hg.
    rewrite elem_of_app, elem_of_cons in Hg. destruct Hg as [Hg|[->|Hg]].
    + by eapply IHl.
    + destruct (Hn Hred) as [H1 H2].
      rewrite Hl, Hr, (rep_top _ _ _ _ _ Hrl), (rep_top _ _ _ _ _ Hrr) in Hc.
      destruct Hc as [Hc|Hc]; simplify_eq; auto.
    + by eapply IHr.
Qed.

Section recoloring.
Variables (s s3 : State) (nil g a b : loc).
Hypothesis g_left : left_of s g = Some (Some a).
Hypothesis g_right : right_of s g = Some (Some b).
Hypothesis a_parent : parent_of s a = Some (Some g).
Hypothesis b_parent : parent_of s b = Some (Some g).
Hypothesis a_node : a ≠ nil.
Hypothesis b_node : b ≠ nil.
Hypothesis g_node : g ≠ nil.
Hypothesis g_black : col s g = BLACK.
Hypothesis a_red : col s a = RED.
Hypothesis b_red : col s b = RED.
Hypothesis g_now : col s3 g = RED.
Hypothesis a_now : col s3 a = BLACK.
Hypothesis b_now : col s3 b = BLACK.
Hypothesis others : forall x, x ≠ g -> x ≠ a -> x ≠ b -> col s3 x = col s x.

Lemma recoloring_outside t par r x :
  rep s nil par r t -> g ∉ locs t -> par ≠ g -> x ∈ locs t -> col s3 x = col s x.
Proof.
  intros Hrep Hg Hpar Hx.
  assert (forall c, parent_of s c = Some (Some g) -> c ∉ locs t) as Hc.
  { intros c Hcg Hct.
    destruct (rep_links _ _ _ _ _ _ Hrep Hct) as (q&?&?&Hq&_&_&_&_&[[_ ->]|Hqt]);
      congruence. }
  apply others; intros ->; [done|..].
  - by apply (Hc a).
  - by apply (Hc b).
Qed.

Lemma black_height_recoloring : forall t par r,
  rep s nil par r t -> NoDup (locs t) -> par ∉ locs t ->
  g ∈ locs t \/ ((g ∉ locs t) /\ par ≠ g) ->
  black_height (paint s3 t) = black_height (paint s t).
Proof.
  induction t as [|l IHl p v r' IHr]; intros par r Hrep Hnd Hpar Hcase; [done|].
  destruct Hcase as [Hg|[Hg Hpg]]; cycle 1.
  { f_equal. apply paint_agree. intros x Hx. by eapply recoloring_outside. }
  inversion Hrep as [|? ? ? pl pr ? ? Hp Hv Hpp Hl Hr Hrl Hrr]; subst.
  simpl in Hnd, Hpar, Hg.
  apply NoDup_app in Hnd as (Hndl & Hlr & Hndr).
  apply NoDup_cons in Hndr as (Hpr & Hndr).
  assert (p ∉ locs l) as Hpl.
  { intros ?. eapply Hlr; [done|]. apply elem_of_cons. auto. }
  assert (forall x, x ∈ locs l -> x ∉ locs r') as Hdisj.
  { intros x ? ?. eapply Hlr; [done|]. apply elem_of_cons. auto. }
  destruct (decide (p = g)) as [->|Hpg].
  - rewrite g_left in Hl. rewrite g_right in Hr. simplify_eq.
    inversion Hrl as [|? ? va pll plr ll lr ? ? ? ? ? Hrll Hrlr]; subst; [done|].
    inversion Hrr as [|? ? vb prl prr rl rr ? ? ? ? ? Hrrl Hrrr]; subst; [done|].
    simpl in Hndl, Hndr, Hpl, Hpr.
    apply NoDup_app in Hndl as (Hndll & Hll & Hndlr).
    apply NoDup_cons in Hndlr as (Halr & Hndlr).
    apply NoDup_app in Hndr as (Hndrl & Hrl' & Hndrr).
    apply NoDup_cons in Hndrr as (Hbrr & Hndrr).
    assert (a ∉ locs ll) as Hall.
    { intros ?. eapply Hll; [done|]. apply elem_of_cons. auto. }
    assert (b ∉ locs rl) as Hbrl.
    { intros ?. eapply Hrl'; [done|]. apply elem_of_cons. auto. }
    assert (forall t', (forall x, x ∈ locs t' -> x ≠ g /\ x ≠ a /\ x ≠ b) ->
                       paint s3 t' = paint s t') as Hsame.
    { intros t' Ht'. apply paint_agree. intros x Hx.
      destruct (Ht' x Hx) as (?&?&?). by apply others. }
    simpl. rewrite g_black, a_red, b_red, g_now, a_now, b_now.
    rewrite (Hsame ll), (Hsame lr), (Hsame rl), (Hsame rr).
    + destruct (black_height (paint s ll)) as [h1|],
        (black_height (paint s lr)) as [h2|],
        (black_height (paint s rl)) as [h3|],
        (black_height (paint s rr)) as [h4|]; simpl; try done;
        repeat (case_decide; simplify_eq/=; try done).
    + intros x Hx. repeat split; intros ->.
      * apply Hpr. apply elem_of_app. right. apply elem_of_cons. by right.
      * eapply (Hdisj a); [apply elem_of_app; right; apply elem_of_cons; by left|].
        apply elem_of_app. right. apply elem_of_cons. by right.
      * done.
    + intros x Hx. repeat split; intros ->.
      * apply Hpr. apply elem_of_app. by left.
      * eapply (Hdisj a); [apply elem_of_app; right; apply elem_of_cons; by left|].
        apply elem_of_app. by left.
      * eapply Hrl'; [done|]. apply elem_of_cons. by left.
    + intros x Hx. repeat split; intros ->.
      * apply Hpl. apply elem_of_app. right. apply elem_of_cons. by right.
      * done.
      * eapply (Hdisj b); [apply elem_of_app; right; apply elem_of_cons; by right|].
        apply elem_of_app. right. apply elem_of_cons. by left.
    + intros x Hx. repeat split; intros ->.
      * apply Hpl. apply elem_of_app. by left.
      * eapply Hll; [done|]. apply elem_of_cons. by left.
      * eapply (Hdisj b); [apply elem_of_app; by left|].
        apply elem_of_app. right. apply elem_of_cons. by left.
  - assert (col s3 p = col s p) as Hcp.
    { apply others; [done|..]; intros ->.
      - rewrite a_parent in Hpp. by simplify_eq.
      - rewrite b_parent in Hpp. by simplify_eq. }
    rewrite elem_of_app, elem_of_cons in Hg.
    simpl. rewrite Hcp.
    destruct Hg as [Hg|[?|Hg]]; [|done|].
    + rewrite (IHl _ _ Hrl Hndl Hpl (or_introl Hg)).
      rewrite (IHr _ _ Hrr Hndr Hpr); [done|]. right. split; [|done].
      by apply Hdisj.
    + rewrite (IHr _ _ Hrr Hndr Hpr (or_introl Hg)).
      rewrite (IHl _ _ Hrl Hndl Hpl); [done|]. right. split; [|done].
      intros ?. by eapply Hdisj.
Qed.
End recoloring.

Section recoloring_red.
Variables (s s3 : State) (nil g a b z q : loc).
Hypothesis g_left : left_of s g = Some (Some a).
Hypothesis g_right : right_of s g = Some (Some b).
Hypothesis z_parent : parent_of s z = Some (Some q).
Hypothesis z_node : z ≠ nil.
Hypothesis q_child : q = a \/ q = b.
Hypothesis g_now : col s3 g = RED.
Hypothesis a_now : col s3 a = BLACK.
Hypothesis b_now : col s3 b = BLACK.
Hypothesis others : forall x, x ≠ g -> x ≠ a -> x ≠ b -> col s3 x = col s x.

Lemma nrr_recoloring : forall t par r,
  rep s nil par r t -> nrr_but (Some z) s nil t -> nrr_but (Some g) s3 nil t.
Proof.
  induction t as [|l IHl p v r' IHr]; intros par r Hrep Hnrr; [done|].
  inversion Hrep as [|? ? ? pl pr ? ? Hp Hv Hpp Hl Hr Hrl Hrr]; subst.
  destruct Hnrr as (Hnl & Hnr & Hn). simpl.
  split; [by eapply IHl|]. split; [by eapply IHr|]. intros Hred.
  assert (p ≠ a) as Hpa by (intros ->; congruence).
  assert (p ≠ b) as Hpb by (intros ->; congruence).
  pose proof (rep_top _ _ _ _ _ Hrl) as El. pose proof (rep_top _ _ _ _ _ Hrr) as Er.
  destruct (decide (p = g)) as [->|Hpg].
  - assert (top nil l = a) as -> by congruence.
    assert (top nil r' = b) as -> by congruence. done.
  - rewrite others in Hred by done. destruct (Hn Hred) as [H1 H2].
    assert (forall t' pt, rep s nil p pt t' ->
              (Some (top nil t') ≠ Some z -> col s (top nil t') = BLACK) ->
              Some (top nil t') ≠ Some g -> col s3 (top nil t') = BLACK) as Hchild.
    { intros t' pt Hrt Hold Hng.
      destruct (decide (top nil t' = a)) as [->|?]; [done|].
      destruct (decide (top nil t' = b)) as [->|?]; [done|].
      rewrite others by congruence. apply Hold. intros [= E].
      assert (top nil t' ≠ nil) as Hn' by congruence.
      destruct (rep_top_parent _ _ _ _ _ Hrt Hn') as [Hpz _].
      rewrite E, z_parent in Hpz. simplify_eq. by destruct q_child. }
    split; eauto.
Qed.
End recoloring_red.

Lemma nrr_exit s nil z q : forall t par r,
  rep s nil par r t -> nrr_but (Some z) s nil t ->
  parent_of s z = Some (Some q) -> col s q = BLACK -> z ≠ nil ->
  nrr_but None s nil t.
Proof.
  induction t as [|l IHl p v r' IHr]; intros par r Hrep Hnrr Hz Hq Hzn; [done|].
  inversion Hrep as [|? ? ? pl pr ? ? Hp Hv Hpp Hl Hr Hrl Hrr]; subst.
  destruct Hnrr as (Hnl & Hnr & Hn). simpl.
  split; [by eapply IHl|]. split; [by eapply IHr|]. intros Hred.
  destruct (Hn Hred) as [H1 H2].
  assert (forall t' pt, rep s nil p pt t' -> Some (top nil t') ≠ Some z) as Hne.
  { intros t' pt Hrt [= E].
    assert (top nil t' ≠ nil) as Hn' by congruence.
    destruct (rep_top_parent _ _ _ _ _ Hrt Hn') as [Hpz _].
    rewrite E, Hz in Hpz. simplify_eq. congruence. }
  split; intros _; eauto.
Qed.

Lemma nrr_weaken e s s' nil t :
  (forall y, member nil t y -> col s' y = col s y \/ col s' y = BLACK) ->
  nrr_but e s nil t -> nrr_but e s' nil t.
Proof.
  induction t as [|l IHl p v r IHr]; simpl; [done|].
  intros Hc (Hl & Hr & Hn).
  assert (forall y, member nil l y -> member nil (Fork l p v r) y) as Hml.
  { intros y [?|?]; [by left|right]. simpl. apply elem_of_app. by left. }
  assert (forall y, member nil r y -> member nil (Fork l p v r) y) as Hmr.
  { intros y [?|?]; [by left|right]. simpl.
    apply elem_of_app. right. apply elem_of_cons. by right. }
  split; [auto|]. split; [auto|]. intros Hred.
  assert (col s p = RED) as Hp.
  { destruct (Hc p); [|congruence..]. right. simpl.
    apply elem_of_app. right. apply elem_of_cons. by left. }
  destruct (Hn Hp) as [H1 H2].
  split; intros He.
  - destruct (Hc (top nil l)) as [E|E]; [apply Hml, top_member| |done].
    rewrite E. auto.
  - destruct (Hc (top nil r)) as [E|E]; [apply Hmr, top_member| |done].
    rewrite E. auto.
Qed.

Lemma nrr_blacken e s nil t x :
  is_Some (heap s !! x) -> nrr_but e s nil t -> nrr_but e (recolor x BLACK s) nil t.
Proof.
  intros Hx. apply nrr_weaken. intros y _. destruct (decide (x = y)) as [->|?].
  - right. by apply col_recolor_eq.
  - left. by apply col_recolor_ne.
Qed.

Lemma black_height_root s nil t c :
  NoDup (locs t) -> is_Some (black_height (paint s t)) ->
  is_Some (black_height (paint (recolor (top nil t) c s) t)).
Proof.
  destruct t as [|l p v r]; simpl; [done|]. intros Hnd.
  apply NoDup_app in Hnd as (Hndl & Hlr & Hndr).
  apply NoDup_cons in Hndr as (Hpr & Hndr).
  assert (p ∉ locs l) as Hpl.
  { intros ?. eapply Hlr; [done|]. apply elem_of_cons. auto. }
  rewrite !(paint_agree s (recolor p c s)).
  - destruct (black_height (paint s l)), (black_height (paint s r)); simpl; try done.
    all: try by intros [? ?].
    case_decide; [eauto|]. by intros [? ?].
  - intros x Hx. apply col_recolor_ne. by intros ->.
  - intros x Hx. apply col_recolor_ne. by intros ->.
Qed.

(** ** The new node *)

Lemma attached_new_color s nil t v :
  wf s nil t -> find_slot v nil t ≠ Duplicate ->
  color_at (attached s nil t v) (new_loc s) = Some RED.
Proof.
  intros Hwf Hnd. pose proof (wf_rep _ _ _ Hwf) as Hrep.
  pose proof (new_not_in_tree _ _ _ Hwf) as Hnt. unfold attached, color_at.
  destruct (find_slot_cases v nil t) as [Hdup|[[Htip Hs]|(q & Hq & Hs)]]; [done|..];
    rewrite Hs.
  - rewrite decide_True by done. simpl.
    by rewrite lookup_alter_eq, lookup_insert_eq.
  - destruct (rep_locs_value _ _ _ _ _ _ Hrep Hq) as [w Hw].
    destruct (rep_locs_heap _ _ _ _ _ _ Hrep Hq) as [_ Hqnil].
    rewrite decide_False, Hw by done.
    rewrite heap_update_ne, heap_update_eq, heap_allocated_eq; [done|].
    by intros ->.
Qed.

Lemma black_height_graft s s2 v new t :
  (forall x, x ∈ locs t -> col s2 x = col s x) -> col s2 new = RED ->
  black_height (paint s2 (graft v new t)) = black_height (paint s t).
Proof.
  intros Hc Hnew. induction t as [|l IHl p w r IHr]; simpl.
  - by rewrite Hnew.
  - assert (forall x, x ∈ locs l -> col s2 x = col s x) as Hl.
    { intros x Hx. apply Hc. simpl. apply elem_of_app. by left. }
    assert (forall x, x ∈ locs r -> col s2 x = col s x) as Hr.
    { intros x Hx. apply Hc. simpl. apply elem_of_app. right. apply elem_of_cons. by right. }
    assert (col s2 p = col s p) as Hp.
    { apply Hc. simpl. apply elem_of_app. right. apply elem_of_cons. by left. }
    destruct (v <? w); [|destruct (v >? w)]; simpl; rewrite Hp.
    + by rewrite IHl, (paint_agree s s2 r).
    + by rewrite IHr, (paint_agree s s2 l).
    + by rewrite (paint_agree s s2 l), (paint_agree s s2 r).
Qed.

Lemma top_graft_cases v new nil t :
  (t = Tip /\ top nil (graft v new t) = new) \/
  (t ≠ Tip /\ top nil (graft v new t) = top nil t).
Proof. destruct t; [by left|right]. split; [done|]. apply top_graft. Qed.

Lemma nrr_graft s s2 nil v new t :
  (forall x, member nil t x -> col s2 x = col s x) ->
  col s nil = BLACK -> col s2 new = RED ->
  nrr_but None s nil t -> nrr_but (Some new) s2 nil (graft v new t).
Proof.
  intros Hc Hnil Hnew.
  assert (col s2 nil = BLACK) as Hnil2 by (rewrite Hc; [done|by left]).
  induction t as [|l IHl p w r IHr]; simpl.
  - intros _. repeat split; try done.
  - assert (forall y, member nil l y -> member nil (Fork l p w r) y) as Hml.
    { intros y [?|?]; [by left|right]. simpl. apply elem_of_app. by left. }
    assert (forall y, member nil r y -> member nil (Fork l p w r) y) as Hmr.
    { intros y [?|?]; [by left|right]. simpl.
      apply elem_of_app. right. apply elem_of_cons. by right. }
    assert (col s2 p = col s p) as Hp.
    { apply Hc. right. simpl. apply elem_of_app. right. apply elem_of_cons. by left. }
    assert (forall t', (forall y, member nil t' y -> member nil (Fork l p w r) y) ->
              nrr_but None s nil t' -> nrr_but (Some new) s2 nil t') as Hkeep.
    { intros t' Hm. clear IHl IHr. induction t' as [|l' IHl' p' w' r' IHr']; simpl; [done|].
      intros (H1 & H2 & H3).
      assert (forall y, member nil l' y -> member nil (Fork l' p' w' r') y) as Hml'.
      { intros y [?|?]; [by left|right]. simpl. apply elem_of_app. by left. }
      assert (forall y, member nil r' y -> member nil (Fork l' p' w' r') y) as Hmr'.
      { intros y [?|?]; [by left|right]. simpl.
        apply elem_of_app. right. apply elem_of_cons. by right. }
      split; [auto|]. split; [auto|].
      rewrite !Hc; [|apply Hm, Hmr', top_member|apply Hm, Hml', top_member|].
      - intros Hred. destruct (H3 Hred). split; intros _; auto.
      - apply Hm. right. simpl. apply elem_of_app. right. apply elem_of_cons. by left. }
    assert (forall t', (forall y, member nil t' y -> member nil (Fork l p w r) y) ->
              (Some (top nil t') ≠ None -> col s (top nil t') = BLACK) ->
              Some (top nil (graft v new t')) ≠ Some new ->
              col s2 (top nil (graft v new t')) = BLACK) as Htop.
    { intros t' Hm Hold Hne.
      destruct (top_graft_cases v new nil t') as [[_ E]|[_ E]]; rewrite E in *; [done|].
      rewrite Hc; [auto|]. apply Hm, top_member. }
    assert (forall t', (forall y, member nil t' y -> member nil (Fork l p w r) y) ->
              (Some (top nil t') ≠ None -> col s (top nil t') = BLACK) ->
              Some (top nil t') ≠ Some new -> col s2 (top nil t') = BLACK) as Htop'.
    { intros t' Hm Hold Hne. rewrite Hc; [auto|]. apply Hm, top_member. }
    intros (Hl & Hr & Hn).
    destruct (v <? w); [|destruct (v >? w)]; simpl; rewrite Hp.
    + split; [apply IHl; auto|]. split; [by apply Hkeep|].
      intros Hred. destruct (Hn Hred). split; auto.
    + split; [by apply Hkeep|]. split; [apply IHr; auto|].
      intros Hred. destruct (Hn Hred). split; auto.
    + split; [by apply Hkeep|]. split; [by apply Hkeep|].
      intros Hred. destruct (Hn Hred). split; auto.
Qed.

(** ** [insert] and the color rules *)

Lemma allocated_red_black s nil t v :
  red_black s nil t -> red_black (allocated (new_node v nil) s) nil t.
Proof.
  intros [Hwf Hroot Hnil Hred Hbh Hord].
  pose proof (new_not_sentinel _ _ _ Hwf) as Hn.
  pose proof (new_not_in_tree _ _ _ Hwf) as Hnt.
  assert (forall x, member nil t x ->
            col (allocated (new_node v nil) s) x = col s x) as Hc.
  { intros x Hx. unfold col, color_at. rewrite heap_allocated_ne; [done|].
    intros ->. by destruct Hx. }
  split; try done.
  - by apply wf_allocated.
  - rewrite Hc; [done|apply top_member].
  - unfold color_at. by rewrite heap_allocated_ne.
  - eapply nrr_weaken; [|done]. intros y Hy. left. by apply Hc.
  - rewrite (paint_agree s); [done|]. intros x Hx. apply Hc. by right.
Qed.

Lemma attached_fixing s nil t v :
  red_black s nil t -> find_slot v nil t ≠ Duplicate ->
  fixing (attached s nil t v) nil (graft v (new_loc s) t) (new_loc s).
Proof.
  intros [Hwf Hroot Hnil Hred Hbh Hord] Hnd.
  pose proof (new_not_sentinel _ _ _ Hwf) as Hn.
  pose proof (new_not_in_tree _ _ _ Hwf) as Hnt.
  pose proof (attached_new_color _ _ _ _ Hwf Hnd) as Hnew%col_color_at.
  assert (forall x, member nil t x -> col (attached s nil t v) x = col s x) as Hc.
  { intros x Hx. unfold col. rewrite attached_color; [done..|].
    intros ->. by destruct Hx. }
  destruct (find_slot v nil t) as [r|] eqn:Hs; [|done].
  split.
  - apply wf_attached_store; [done|]. by rewrite Hs.
  - unfold color_at. by rewrite attached_sentinel.
  - rewrite (black_height_graft s); [done| |done]. intros x Hx. apply Hc. by right.
  - apply (nrr_graft s); try done. by apply col_sentinel.
  - rewrite (locs_graft _ _ _ _ _ Hs). apply elem_of_cons. by left.
  - done.
  - destruct (top_graft_cases v (new_loc s) nil t) as [[_ E]|[_ E]]; rewrite E.
    + by right.
    + left. rewrite Hc; [done|apply top_member].
  - by apply bst_graft.
Qed.

Ltac run_raised := erewrite bind_Raise by (eauto 8 with eval); by intros [=].

Lemma fixup_restores nil t fuel : forall s z s',
  fixing s nil t z ->
  _insert_fixup fuel (Some z) s = Return tt s' -> red_black s' nil t.
Proof.
  induction fuel as [|fuel IH]; intros s z s' Hfix; [done|].
  pose proof Hfix as [Hwf Hblack Hbh Hnrr Hz Hzred Hrootc Hord].
  pose proof (wf_rep _ _ _ Hwf) as Hrep.
  pose proof (wf_no_nil _ _ _ Hwf) as Hnonil.
  pose proof (wf_root _ _ _ Hwf) as Hroot.
  pose proof (col_sentinel _ _ Hblack) as Hcnil.
  destruct (rep_locs_heap _ _ _ _ _ _ Hrep Hz) as [Hzh Hznil].
  assert (member nil t z) as Hzm by (by right).
  destruct (wf_links _ _ _ _ Hwf Hzm) as (q & za & zb & Hzq & Hzl & Hzr & Hq & _ & _).
  destruct (member_color _ _ _ _ Hwf Hq) as [c Hqc].
  pose proof (member_heap _ _ _ _ Hwf (top_member nil t)) as Hth.
  assert (top nil t ≠ nil) as Htn.
  { destruct t; [by apply elem_of_nil in Hz|]. inversion Hrep; by subst. }
  simpl _insert_fixup. run. run.
  destruct (decide (c = RED)) as [->|Hc]; cycle 1.
  { run. rewrite set_color_eq by done. intros [= <-].
    assert (c = BLACK) as -> by (by destruct c).
    split.
    - by apply wf_recolor.
    - by apply col_recolor_eq.
    - by apply color_at_recolor_keep.
    - apply nrr_blacken; [done|].
      eapply nrr_exit; eauto using col_color_at.
    - apply black_height_root; [apply (wf_nodup _ _ _ Hwf)|done].
    - done. }
  pose proof (col_color_at _ _ _ Hqc) as Hqred.
  assert (q ≠ nil) as Hqnil by (intros ->; congruence).
  assert (z ≠ top nil t) as Hztop.
  { intros ->. rewrite (wf_top_parent _ _ _ Hwf) in Hzq. congruence. }
  assert (col s (top nil t) = BLACK) as Hrootb by (by destruct Hrootc).
  assert (q ≠ top nil t) as Hqtop by (intros ->; congruence).
  destruct (wf_links _ _ _ _ Hwf Hq) as (g & qa & qb & Hqg & Hql & Hqr & Hg & _ & _).
  destruct (member_parent _ _ _ _ _ Hwf Hq Hqnil Hqtop Hqg) as [Hgt Hgnil].
  assert (q ∈ locs t) as Hqt by (by destruct Hq).
  destruct (wf_links _ _ _ _ Hwf Hg) as (gg & ga & gb & Hgg & Hgl & Hgr & _ & Hga & Hgb).
  destruct (wf_children _ _ _ _ _ _ Hwf Hgt Hgl Hgr) as (_ & Hca & Hcb).
  destruct (wf_children _ _ _ _ _ _ Hwf Hqt Hql Hqr) as (Hqself & _ & _).
  pose proof (member_heap _ _ _ _ Hwf Hq) as Hqh.
  pose proof (member_heap _ _ _ _ Hwf Hg) as Hgh.
  assert (z ≠ q) as Hzq'.
  { intros ->. destruct (wf_children _ _ _ _ _ _ Hwf Hz Hzl Hzr) as (Hself & _).
    congruence. }
  assert (q = ga \/ q = gb) as Hqchild.
  { destruct (child_of_parent _ _ _ _ _ _ _ Hrep Hqt Hqtop Hqg); [left|right]; congruence. }
  assert (col s g = BLACK) as Hgblack.
  { destruct (col s g) eqn:Hcg; [|done]. exfalso.
    assert (col s q = BLACK); [|congruence].
    eapply (nrr_node (Some z) s nil g q); eauto; [|congruence].
    destruct Hqchild as [->| ->]; auto. }
  (* the next round, when both children of the grandparent are red *)
  assert (forall s3, ga ≠ nil -> gb ≠ nil ->
    col s ga = RED -> col s gb = RED ->
    same_links s s3 -> color_at s3 nil = Some BLACK ->
    col s3 g = RED -> col s3 ga = BLACK -> col s3 gb = BLACK ->
    (forall x, x ≠ g -> x ≠ ga -> x ≠ gb -> col s3 x = col s x) ->
    _insert_fixup fuel (Some g) s3 = Return tt s' -> red_black s' nil t) as Hnext.
  { intros s3 Han Hbn Hared Hbred Hlinks Hnil3 Hg3 Ha3 Hb3 Hoth.
    destruct (Hca Han) as (Hap & _ & Hab & Hag).
    destruct (Hcb Hbn) as (Hbp & _ & _ & Hbg).
    apply IH. split.
    - by eapply wf_same_links.
    - done.
    - erewrite (black_height_recoloring s s3 nil g ga gb); eauto.
      + apply (wf_nodup _ _ _ Hwf).
      + intros H. by destruct (rep_locs_heap _ _ _ _ _ _ Hrep H).
    - eapply (nrr_recoloring s s3 nil g ga gb z q); eauto.
    - done.
    - done.
    - destruct (decide (g = top nil t)) as [|Hgtop]; [by right|left].
      rewrite Hoth; [done|congruence|..]; intros E;
        rewrite <- E, (wf_top_parent _ _ _ Hwf) in *; congruence.
    - done. }
  run. run. run.
  destruct (decide (Some q = Some ga)) as [E|E].
  - simplify_eq.
    destruct (member_color _ _ _ _ Hwf Hgb) as [uc Huc].
    pose proof (member_heap _ _ _ _ Hwf Hgb) as Hgbh.
    run. run. run. run.
    destruct (decide (uc = RED)) as [->|_].
    + assert (gb ≠ nil) as Hgbnil by (intros ->; congruence).
      destruct (Hca Hqnil) as (_ & _ & Hab & Hag).
      destruct (Hcb Hgbnil) as (_ & _ & _ & Hbg).
      repeat run. apply Hnext; auto using col_color_at.
      * eauto using same_links_trans, same_links_recolor.
      * auto using color_at_recolor_keep.
      * apply col_recolor_eq. auto with eval.
      * rewrite col_recolor_ne, col_recolor_ne, col_recolor_eq by done. done.
      * rewrite col_recolor_ne, col_recolor_eq by auto with eval. done.
      * intros x ? ? ?. by rewrite !col_recolor_ne.
    + run. run. destruct (decide (Some z = Some qb)) as [_|_].
      * rewrite bind_assoc. run. rewrite bind_assoc. run_raised.
      * rewrite ret_bind. repeat run. run_raised.
  - assert (q = gb) as <- by (destruct Hqchild; congruence).
    destruct (member_color _ _ _ _ Hwf Hga) as [uc Huc].
    pose proof (member_heap _ _ _ _ Hwf Hga) as Hgah.
    run. run. run. run.
    destruct (decide (uc = RED)) as [->|_].
    + assert (ga ≠ nil) as Hganil by (intros ->; congruence).
      destruct (Hca Hganil) as (_ & _ & Hab & Hag).
      destruct (Hcb Hqnil) as (_ & _ & _ & Hbg).
      repeat run. apply Hnext; auto using col_color_at.
      * eauto using same_links_trans, same_links_recolor.
      * auto using color_at_recolor_keep.
      * apply col_recolor_eq. auto with eval.
      * rewrite col_recolor_ne, col_recolor_eq by auto with eval. done.
      * rewrite col_recolor_ne, col_recolor_ne, col_recolor_eq by done. done.
      * intros x ? ? ?. by rewrite !col_recolor_ne.
    + run. run. destruct (decide (Some z = Some qa)) as [_|_].
      * rewrite bind_assoc. run. rewrite bind_assoc. run_raised.
      * rewrite ret_bind. repeat run. run_raised.
Qed.

Lemma insert_restores s nil t v fuel s' :
  red_black s nil t -> insert fuel v s = Return tt s' ->
  red_black s' nil (graft v (new_loc s) t).
Proof.
  intros Hrb. rewrite (insert_eq _ _ _ _ (rb_wf _ _ _ Hrb)).
  destruct (search_depth v t <? fuel)%nat; [|done].
  destruct (find_slot v nil t) as [r|] eqn:Hs.
  - apply fixup_restores, attached_fixing; [done|]. by rewrite Hs.
  - intros [= <-]. rewrite (graft_duplicate _ _ _ _ Hs).
    by apply allocated_red_black.
Qed.

Lemma insert_all_restores fuel values : forall s nil t s',
  red_black s nil t -> insert_all fuel values s = Return tt s' ->
  exists t', red_black s' nil t' /\
             forall x, x ∈ keys t' <-> x ∈ values \/ x ∈ keys t.
Proof.
  induction values as [|v values IH]; intros s nil t s' Hrb; simpl.
  - intros [= <-]. exists t. split; [done|]. intros x. split; [by right|].
    by intros [?%elem_of_nil|?].
  - rewrite bind_unfold. destruct (insert fuel v s) as [[] s1|e s1| |] eqn:E; try done.
    intros Hrest. pose proof (insert_restores _ _ _ _ _ _ Hrb E) as Hrb1.
    destruct (IH _ _ _ _ Hrb1 Hrest) as (t' & ? & Hk).
    exists t'. split; [done|]. intros x. rewrite Hk, keys_graft_iff, elem_of_cons. tauto.
Qed.

(** X7.  A call of [insert] that returns leaves the rules of the class
    docstring in place: if a reachable store satisfies the black root, the
    black sentinel, no red node with a red child, equal black counts and
    the ordering, and [insert v] returns, then the store it leaves
    satisfies them too.  (A returning call met only the recoloring case of
    the fixup, or no violation at all.) *)
Theorem insert_preserves_invariants s fuel v s' :
  reachable s -> rb_invariants s = true ->
  insert fuel v s = Return tt s' ->
  rb_invariants s' = true.
Proof.
  intros (nil & t & Hwf)%reachable_wf Hinv Hrun.
  apply (rb_invariants_wf _ _ _ Hwf) in Hinv.
  pose proof (insert_restores _ _ _ _ _ _ Hinv Hrun) as Hrb.
  by apply (rb_invariants_wf _ _ _ (rb_wf _ _ _ Hrb)).
Qed.

Lemma insert_preserves_invariants_witness : rb_invariants four_nodes = true.
Proof.
  apply (insert_preserves_invariants three_nodes 3 5 four_nodes).
  - apply (reachable_caught 2 [20; 10; 25] new_tree); [constructor|reflexivity].
  - reflexivity.
  - vm_compute. reflexivity.
Defined.

(** X8.  A loop of inserts that runs to its end builds a red-black tree:
    if [for v in values: tree.insert(v)] on a new tree raises nothing, the
    final tree satisfies all the rules and holds exactly the values of the
    list. *)
Theorem completed_run_is_red_black fuel values s :
  insert_all fuel values new_tree = Return tt s ->
  rb_invariants s = true /\
  exists ct, tree_of s = Some ct /\ forall x, x ∈ inorder ct <-> x ∈ values.
Proof.
  intros Hrun.
  assert (red_black new_tree 1%positive Tip) as Hrb0.
  { apply (rb_invariants_wf _ _ _ new_tree_wf). reflexivity. }
  destruct (insert_all_restores _ _ _ _ _ _ Hrb0 Hrun) as (t & Hrb & Hk).
  pose proof (rb_wf _ _ _ Hrb) as Hwf.
  split; [by apply (rb_invariants_wf _ _ _ Hwf)|].
  exists (paint s t). split; [by eapply tree_of_wf|].
  intros x. rewrite inorder_paint, Hk. split; [intros [?|?%elem_of_nil]; done|auto].
Qed.

Lemma completed_run_is_red_black_witness :
  rb_invariants six_nodes = true /\
  exists ct, tree_of six_nodes = Some ct /\
             forall x, x ∈ inorder ct <-> x ∈ [20; 10; 25; 5; 15; 30].
Proof.
  apply (completed_run_is_red_black 3 [20; 10; 25; 5; 15; 30] six_nodes).
  vm_compute. reflexivity.
Defined.

(** ** The height of a red-black tree *)

Lemma black_height_positive t : forall b, black_height t = Some b -> (1 <= b)%nat.
Proof.
  induction t as [|c l IHl v r IHr]; intros b Hbh; simpl in Hbh.
  - simplify_eq. lia.
  - destruct (black_height l) as [hl|]; [|done].
    destruct (black_height r) as [hr|]; [|done]. simpl in Hbh.
    destruct (decide (hl = hr)); [|done]. pose proof (IHl hl eq_refl).
    destruct (decide (c = BLACK)); simplify_eq; lia.
Qed.

Lemma black_height_bounds t : forall b,
  no_red_red t = true -> black_height t = Some (S b) ->
  (2 ^ b <= length (inorder t) + 1)%nat /\
  (height t <= 2 * b + (if decide (color_of t = BLACK) then 0 else 1))%nat.
Proof.
  induction t as [|c l IHl v r IHr]; intros b Hnrr Hbh.
  - simpl in *. simplify_eq. simpl. lia.
  - simpl in Hnrr, Hbh.
    apply andb_true_iff in Hnrr as [[Hc Hnl]%andb_true_iff Hnr].
    destruct (black_height l) as [hl|] eqn:El; [|done].
    destruct (black_height r) as [hr|] eqn:Er; [|done]. simpl in Hbh.
    destruct (decide (hl = hr)) as [<-|]; [|done].
    assert (exists b0, hl = S b0) as [b0 ->].
    { apply black_height_positive in El as ?. destruct hl; [lia|eauto]. }
    destruct (IHl b0 Hnl eq_refl) as [Hsl Hhl].
    destruct (IHr b0 Hnr eq_refl) as [Hsr Hhr].
    cbn [inorder height color_of]. rewrite length_app. cbn [length].
    destruct (decide (c = BLACK)) as [->|Hred].
    + injection Hbh as <-. split.
      * rewrite Nat.pow_succ_r'. lia.
      * destruct (decide (color_of l = BLACK)), (decide (color_of r = BLACK)); lia.
    + injection Hbh as <-.
      apply orb_true_iff in Hc as [Hc|[Hcl Hcr]%andb_true_iff];
        [by apply bool_decide_eq_true in Hc|].
      apply bool_decide_eq_true in Hcl, Hcr.
      rewrite decide_True in Hhl by done. rewrite decide_True in Hhr by done.
      split; lia.
Qed.

Lemma rb_invariants_height s :
  rb_invariants s = true ->
  exists ct, tree_of s = Some ct /\
             (2 ^ height ct <= (length (inorder ct) + 1) ^ 2)%nat.
Proof.
  unfold rb_invariants. destruct (tree_of s) as [ct|]; [|done].
  intros [[[[Hroot _]%andb_true_iff Hnrr]%andb_true_iff Hbh]%andb_true_iff _]%andb_true_iff.
  exists ct. split; [done|].
  apply bool_decide_eq_true in Hroot, Hbh. destruct Hbh as [b Hbh].
  apply black_height_positive in Hbh as Hpos.
  destruct b as [|b]; [lia|].
  destruct (black_height_bounds ct b Hnrr Hbh) as [Hsize Hheight].
  rewrite decide_True in Hheight by done.
  transitivity (2 ^ (2 * b))%nat.
  - apply Nat.pow_le_mono_r; lia.
  - rewrite Nat.pow_mul_r. change (2 ^ 2)%nat with 4%nat.
    replace 4%nat with (2 ^ 2)%nat by done. rewrite <- Nat.pow_mul_r.
    rewrite Nat.mul_comm, Nat.pow_mul_r. apply Nat.pow_le_mono_l. done.
Qed.

(** X9.  A loop of inserts that runs to its end leaves a balanced tree: if
    [for v in values: tree.insert(v)] on a new tree raises nothing, the
    height [h] of the final tree and the number [n] of values it holds
    satisfy [2 ^ h <= (n + 1) ^ 2], that is, [h] is at most twice the
    logarithm of [n + 1]. *)
Theorem completed_run_is_balanced fuel values s :
  insert_all fuel values new_tree = Return tt s ->
  exists ct, tree_of s = Some ct /\
             (2 ^ height ct <= (length (inorder ct) + 1) ^ 2)%nat.
Proof.
  intros Hrun. apply rb_invariants_height.
  assert (red_black new_tree 1%positive Tip) as Hrb0.
  { apply (rb_invariants_wf _ _ _ new_tree_wf). reflexivity. }
  destruct (insert_all_restores _ _ _ _ _ _ Hrb0 Hrun) as (t & Hrb & _).
  by apply (rb_invariants_wf _ _ _ (rb_wf _ _ _ Hrb)).
Qed.

Lemma completed_run_is_balanced_witness :
  exists ct, tree_of six_nodes = Some ct /\
             (2 ^ height ct <= (length (inorder ct) + 1) ^ 2)%nat.
Proof.
  apply (completed_run_is_balanced 3 [20; 10; 25; 5; 15; 30] six_nodes).
  vm_compute. reflexivity.
Defined.

(** * The plain search tree of [my_bst.py] *)

(** ** Running the code *)

Lemma bst_bind_Return {A B} (m : BST.M A) (k : A -> BST.M B) h a h' :
  m h = BST.Return a h' -> (m ≫= k) h = k a h'.
Proof. intros H. unfold mbind, BST.M_bind. by rewrite H. Qed.

Lemma bst_bind_Raise {A B} (m : BST.M A) (k : A -> BST.M B) h e h' :
  m h = BST.Raise e h' -> (m ≫= k) h = BST.Raise e h'.
Proof. intros H. unfold mbind, BST.M_bind. by rewrite H. Qed.

Lemma bst_ret_eq {A} (a : A) h : (mret a : BST.M A) h = BST.Return a h.
Proof. done. Qed.

Lemma bst_get_value_eq h p nd :
  h !! p = Some nd -> BST.get_value (Some p) h = BST.Return (BST.value nd) h.
Proof. intros H. unfold BST.get_value, BST.load, mbind, BST.M_bind. by rewrite H. Qed.

Lemma bst_get_left_eq h p nd :
  h !! p = Some nd -> BST.get_left (Some p) h = BST.Return (BST.left nd) h.
Proof. intros H. unfold BST.get_left, BST.load, mbind, BST.M_bind. by rewrite H. Qed.

Lemma bst_get_right_eq h p nd :
  h !! p = Some nd -> BST.get_right (Some p) h = BST.Return (BST.right nd) h.
Proof. intros H. unfold BST.get_right, BST.load, mbind, BST.M_bind. by rewrite H. Qed.

Lemma bst_set_value_eq h p nd v :
  h !! p = Some nd ->
  BST.set_value (Some p) v h =
  BST.Return tt (<[p := BST.mkNode v (BST.left nd) (BST.right nd)]> h).
Proof. intros H. unfold BST.set_value, BST.store. by rewrite H. Qed.

Lemma bst_set_left_eq h p nd q :
  h !! p = Some nd ->
  BST.set_left (Some p) q h =
  BST.Return tt (<[p := BST.mkNode (BST.value nd) q (BST.right nd)]> h).
Proof. intros H. unfold BST.set_left, BST.store. by rewrite H. Qed.

Lemma bst_set_right_eq h p nd q :
  h !! p = Some nd ->
  BST.set_right (Some p) q h =
  BST.Return tt (<[p := BST.mkNode (BST.value nd) (BST.left nd) q]> h).
Proof. intros H. unfold BST.set_right, BST.store. by rewrite H. Qed.

Lemma bst_init_eq h v :
  BST.init v h =
  BST.Return (Some (fresh (dom h))) (<[fresh (dom h) := BST.mkNode v None None]> h).
Proof. done. Qed.

Lemma bst_py_lt_eq x y h : BST.py_lt (Some x) (Some y) h = BST.Return (x <? y) h.
Proof. done. Qed.

Lemma bst_py_gt_eq x y h : BST.py_gt (Some x) (Some y) h = BST.Return (x >? y) h.
Proof. done. Qed.

Create HintDb bst_eval.
#[local] Hint Resolve bst_ret_eq bst_get_value_eq bst_get_left_eq bst_get_right_eq
  bst_set_value_eq bst_set_left_eq bst_set_right_eq bst_init_eq
  bst_py_lt_eq bst_py_gt_eq : bst_eval.

Ltac brun :=
  erewrite bst_bind_Return by (eauto 4 with bst_eval);
  cbv beta iota; cbn [BST.value BST.left BST.right].

Ltac bsub tac :=
  erewrite (bst_bind_Return (_ ≫= _)); [|tac; done]; cbv beta iota.

(** ** Trees in the store *)

Lemma bst_rep_agree h h' r t :
  (forall x, x ∈ locs t -> h' !! x = h !! x) -> BST.rep h r t -> BST.rep h' r t.
Proof.
  intros Hag Hrep. induction Hrep as [|l p v r pl pr Hp _ IHl _ IHr]; [constructor|].
  simpl in Hag. econstructor.
  - rewrite Hag; [done|]. apply elem_of_app. right. apply elem_of_cons. by left.
  - apply IHl. intros x Hx. apply Hag. apply elem_of_app. by left.
  - apply IHr. intros x Hx. apply Hag. apply elem_of_app. right. apply elem_of_cons. by right.
Qed.

Lemma bst_rep_functional h r t t' : BST.rep h r t -> BST.rep h r t' -> t = t'.
Proof.
  intros Hrep. revert t'.
  induction Hrep as [|l p v r pl pr Hp _ IHl _ IHr]; intros t' Hrep'.
  - by inversion Hrep'.
  - inversion Hrep' as [|l' p' v' r' pl' pr' Hp' Hl' Hr']; simplify_eq.
    f_equal; auto.
Qed.

Lemma bst_rep_dom h r t x : BST.rep h r t -> x ∈ locs t -> is_Some (h !! x).
Proof.
  intros Hrep. induction Hrep as [|l p v r pl pr Hp _ IHl _ IHr]; simpl.
  - by intros ?%elem_of_nil.
  - rewrite elem_of_app, elem_of_cons. intros [?|[->|?]]; eauto.
Qed.

Lemma bst_rep_truthy h r t : BST.rep h r t -> BST.truthy r = match t with Tip => false | Fork _ _ _ _ => true end.
Proof. by intros []. Qed.

Lemma bst_rep_None h t : BST.rep h None t -> t = Tip.
Proof. by inversion 1. Qed.

Lemma bst_levels_keys t : (levels t <= length (keys t))%nat.
Proof. induction t; simpl; rewrite ?length_app; simpl; lia. Qed.

Lemma bst_size_levels t : (length (keys t) < 2 ^ levels t)%nat.
Proof.
  induction t as [|l IHl p v r IHr]; simpl; [lia|].
  rewrite length_app. simpl.
  pose proof (Nat.pow_le_mono_r 2 (levels l) (Nat.max (levels l) (levels r))).
  pose proof (Nat.pow_le_mono_r 2 (levels r) (Nat.max (levels l) (levels r))).
  lia.
Qed.

(** ** [contains] *)

Lemma bst_contains_rep h v : forall t fuel r,
  BST.rep h r t -> t ≠ Tip -> bst t -> (levels t <= fuel)%nat ->
  BST.contains fuel r (Some v) h = BST.Return (bool_decide (v ∈ keys t)) h.
Proof.
  induction t as [|l IHl p w r IHr]; intros fuel q Hrep Hne Hbst Hfuel; [done|].
  inversion Hrep as [|? ? ? ? pl pr Hp Hl Hr]; subst.
  destruct Hbst as (Hbl & Hbr & Hlt & Hgt).
  destruct fuel as [|fuel]; [simpl in Hfuel; lia|]. simpl in Hfuel.
  simpl BST.contains. brun.
  unfold BST.py_eq. destruct (decide (v = w)) as [->|Hvw].
  { rewrite bool_decide_eq_true_2 by done. simpl.
    rewrite bool_decide_eq_true_2; [done|]. apply elem_of_app. right. by left. }
  rewrite bool_decide_eq_false_2 by (intros [= ?]; done).
  rewrite Forall_forall in Hlt, Hgt.
  destruct (v <? w) eqn:E.
  - apply Z.ltb_lt in E.
    assert (v ∈ keys (Fork l p w r) <-> v ∈ keys l) as Hiff.
    { simpl. rewrite elem_of_app, elem_of_cons. split; [|auto].
      intros [?|[?|?%Hgt]]; [done|lia|lia]. }
    bsub ltac:(brun; brun; rewrite (proj2 (Z.ltb_lt _ _) E); brun).
    rewrite (bst_rep_truthy _ _ _ Hl).
    destruct l as [|ll lp lv lr].
    +       bsub ltac:(brun; brun; replace (v >? w) with false by lia).
      simpl. by rewrite bool_decide_eq_false_2 by (rewrite Hiff; apply not_elem_of_nil).
    + brun.
      rewrite (IHl fuel pl Hl) by (done || lia).
      f_equal. apply bool_decide_ext. by rewrite Hiff.
  - apply Z.ltb_ge in E.
    assert (v ∈ keys (Fork l p w r) <-> v ∈ keys r) as Hiff.
    { simpl. rewrite elem_of_app, elem_of_cons. split; [|auto].
      intros [?%Hlt|[?|?]]; [lia|lia|done]. }
    bsub ltac:(brun; brun; rewrite (proj2 (Z.ltb_ge _ _) E)).
    bsub ltac:(brun; brun; replace (v >? w) with true by lia; brun).
    rewrite (bst_rep_truthy _ _ _ Hr).
    destruct r as [|rl rp rv rr].
    +       simpl. by rewrite bool_decide_eq_false_2 by (rewrite Hiff; apply not_elem_of_nil).
    + brun.
      rewrite (IHr fuel pr Hr) by (done || lia).
      f_equal. apply bool_decide_ext. by rewrite Hiff.
Qed.

(** ** Traversals and measures *)

Lemma bst_inorder_rep h : forall t fuel r,
  BST.rep h r t -> t ≠ Tip -> (levels t <= fuel)%nat ->
  BST.inorder fuel r h = BST.Return (Some <$> keys t) h.
Proof.
  induction t as [|l IHl p w r IHr]; intros fuel q Hrep Hne Hfuel; [done|].
  inversion Hrep as [|? ? ? ? pl pr Hp Hl Hr]; subst.
  destruct fuel as [|fuel]; [simpl in Hfuel; lia|]. simpl in Hfuel.
  simpl BST.inorder. brun.
  erewrite (bst_bind_Return _ _ _ (Some <$> keys l)); cycle 1.
  { rewrite (bst_rep_truthy _ _ _ Hl). destruct l; [done|].
    brun. erewrite bst_bind_Return by (apply (IHl fuel pl Hl); done || lia). done. }
  brun. brun.
  erewrite (bst_bind_Return _ _ _ (Some <$> keys (Fork l p w r))); [done|].
  rewrite (bst_rep_truthy _ _ _ Hr).
  destruct r as [|rl rp rv rr].
  - cbn [keys]. by rewrite fmap_app.
  - brun. erewrite bst_bind_Return by (apply (IHr fuel pr Hr); done || lia).
    rewrite bst_ret_eq. f_equal. cbn [keys].
    rewrite !fmap_app, !fmap_cons, !fmap_app, <- !app_assoc. done.
Qed.

Lemma bst_preorder_rep h : forall t fuel q l p w r,
  BST.rep h q t -> t = Fork l p w r -> (levels t <= fuel)%nat ->
  exists xs, BST.preorder fuel q h = BST.Return (Some w :: xs) h /\
             Some w :: xs ≡ₚ Some <$> keys t.
Proof.
  induction t as [|l IHl p w r IHr]; intros fuel q ? ? ? ? Hrep [= <- <- <- <-] Hfuel.
  inversion Hrep as [|? ? ? ? pl pr Hp Hl Hr]; subst.
  destruct fuel as [|fuel]; [simpl in Hfuel; lia|]. simpl in Hfuel.
  simpl BST.preorder. brun. rewrite bool_decide_eq_false_2 by done. brun. brun.
  match goal with |- exists _, (?m ≫= _) h = _ /\ _ =>
    assert (exists xs, m h = BST.Return (Some w :: xs) h /\
                       xs ≡ₚ Some <$> keys l) as (xs & E & Hxs) end.
  { rewrite (bst_rep_truthy _ _ _ Hl). destruct l as [|ll lp lv lr]; [by exists []|].
    brun. destruct (IHl fuel pl _ _ _ _ Hl eq_refl) as (xs & E' & Hp'); [lia|].
    rewrite (bst_bind_Return _ _ _ _ _ E'). eauto. }
  rewrite (bst_bind_Return _ _ _ _ _ E); clear E; cbv beta.
  brun.
  match goal with |- exists _, (?m ≫= _) h = _ /\ _ =>
    assert (exists ys, m h = BST.Return ((Some w :: xs) ++ ys) h /\
                       ys ≡ₚ Some <$> keys r) as (ys & E & Hys) end.
  { rewrite (bst_rep_truthy _ _ _ Hr). destruct r as [|rl rp rv rr].
    - exists []. by rewrite app_nil_r.
    - brun. destruct (IHr fuel pr _ _ _ _ Hr eq_refl) as (ys & E' & Hp'); [lia|].
      rewrite (bst_bind_Return _ _ _ _ _ E'). eauto. }
  rewrite (bst_bind_Return _ _ _ _ _ E); clear E; cbv beta.
  exists (xs ++ ys). split; [done|].
  simpl. rewrite fmap_app. simpl. rewrite Hxs, Hys.
  by rewrite Permutation_middle.
Qed.

Lemma bst_postorder_rep h : forall t fuel q l p w r,
  BST.rep h q t -> t = Fork l p w r -> (levels t <= fuel)%nat ->
  exists xs, BST.postorder fuel q h = BST.Return (xs ++ [Some w]) h /\
             xs ++ [Some w] ≡ₚ Some <$> keys t.
Proof.
  induction t as [|l IHl p w r IHr]; intros fuel q ? ? ? ? Hrep [= <- <- <- <-] Hfuel.
  inversion Hrep as [|? ? ? ? pl pr Hp Hl Hr]; subst.
  destruct fuel as [|fuel]; [simpl in Hfuel; lia|]. simpl in Hfuel.
  simpl BST.postorder. brun. rewrite bool_decide_eq_false_2 by done. brun.
  match goal with |- exists _, (?m ≫= _) h = _ /\ _ =>
    assert (exists xs, m h = BST.Return xs h /\
                       xs ≡ₚ Some <$> keys l) as (xs & E & Hxs) end.
  { rewrite (bst_rep_truthy _ _ _ Hl). destruct l as [|ll lp lv lr]; [by exists []|].
    brun. destruct (IHl fuel pl _ _ _ _ Hl eq_refl) as (xs & E' & Hp'); [lia|].
    rewrite (bst_bind_Return _ _ _ _ _ E'). eauto. }
  rewrite (bst_bind_Return _ _ _ _ _ E); clear E; cbv beta.
  brun.
  match goal with |- exists _, (?m ≫= _) h = _ /\ _ =>
    assert (exists ys, m h = BST.Return (xs ++ ys) h /\
                       ys ≡ₚ Some <$> keys r) as (ys & E & Hys) end.
  { rewrite (bst_rep_truthy _ _ _ Hr). destruct r as [|rl rp rv rr].
    - exists []. by rewrite app_nil_r.
    - brun. destruct (IHr fuel pr _ _ _ _ Hr eq_refl) as (ys & E' & Hp'); [lia|].
      rewrite (bst_bind_Return _ _ _ _ _ E'). eauto. }
  rewrite (bst_bind_Return _ _ _ _ _ E); clear E; cbv beta.
  brun. exists (xs ++ ys). split; [done|].
  simpl. rewrite fmap_app. simpl. rewrite Hxs, Hys.
  rewrite <- app_assoc. apply Permutation_app_head. symmetry. apply Permutation_cons_append.
Qed.

Lemma bst_height_rep h : forall t fuel r,
  BST.rep h r t -> t ≠ Tip -> (levels t <= fuel)%nat ->
  BST.height fuel r h = BST.Return (levels t) h.
Proof.
  induction t as [|l IHl p w r IHr]; intros fuel q Hrep Hne Hfuel; [done|].
  inversion Hrep as [|? ? ? ? pl pr Hp Hl Hr]; subst.
  destruct fuel as [|fuel]; [simpl in Hfuel; lia|]. simpl in Hfuel.
  simpl BST.height. brun. rewrite bool_decide_eq_false_2 by done. brun.
  erewrite (bst_bind_Return _ _ _ (levels l)); cycle 1.
  { rewrite (bst_rep_truthy _ _ _ Hl). destruct l; [done|].
    brun. by apply IHl; [|done|lia]. }
  brun.
  erewrite (bst_bind_Return _ _ _ (levels r)); cycle 1.
  { rewrite (bst_rep_truthy _ _ _ Hr). destruct r; [done|].
    brun. by apply IHr; [|done|lia]. }
  done.
Qed.

(** The loops of [get_min], [get_max] and [delete] stop on the node that
    carries the first, respectively the last, value of the in-order
    sequence. *)
Lemma bst_leftmost_rep h : forall t fuel l p w r,
  BST.rep h (Some p) t -> t = Fork l p w r -> (levels t <= fuel)%nat ->
  exists q m pr, BST.leftmost fuel (Some p) h = BST.Return (Some q) h /\
                 h !! q = Some (BST.mkNode (Some m) None pr) /\
                 head (keys t) = Some m /\ q ∈ locs t.
Proof.
  induction t as [|l IHl p w r IHr]; intros fuel ? ? ? ? Hrep [= <- <- <- <-] Hfuel.
  inversion Hrep as [|? ? ? ? pl pr Hp Hl Hr]; subst.
  destruct fuel as [|fuel]; [simpl in Hfuel; lia|]. simpl in Hfuel.
  simpl BST.leftmost. brun. rewrite (bst_rep_truthy _ _ _ Hl).
  destruct l as [|ll lp lv lr].
  - inversion Hl; subst.
    exists p, w, pr. repeat split; try done. simpl. by left.
  - brun. inversion Hl; subst.
    destruct (IHl fuel ll lp lv lr Hl eq_refl) as (q & m & qr & E & Hq & Hhd & Hin); [lia|].
    exists q, m, qr. repeat split; try done.
    + simpl in *. destruct (keys ll); simpl in *; done.
    + simpl. simpl in Hin. apply elem_of_app. by left.
Qed.

Lemma bst_rightmost_rep h : forall t fuel l p w r,
  BST.rep h (Some p) t -> t = Fork l p w r -> (levels t <= fuel)%nat ->
  exists q m pl, BST.rightmost fuel (Some p) h = BST.Return (Some q) h /\
                 h !! q = Some (BST.mkNode (Some m) pl None) /\
                 last (keys t) = Some m /\ q ∈ locs t.
Proof.
  induction t as [|l IHl p w r IHr]; intros fuel ? ? ? ? Hrep [= <- <- <- <-] Hfuel.
  inversion Hrep as [|? ? ? ? pl pr Hp Hl Hr]; subst.
  destruct fuel as [|fuel]; [simpl in Hfuel; lia|]. simpl in Hfuel.
  simpl BST.rightmost. brun. rewrite (bst_rep_truthy _ _ _ Hr).
  destruct r as [|rl rp rv rr].
  - inversion Hr; subst.
    exists p, w, pl. repeat split; try done.
    + cbn [keys]. by rewrite last_snoc.
    + simpl. apply elem_of_app. right. by left.
  - brun. inversion Hr; subst.
    destruct (IHr fuel rl rp rv rr Hr eq_refl) as (q & m & ql & E & Hq & Hlast & Hin); [lia|].
    exists q, m, ql. repeat split; try done.
    + cbn [keys] in *. by rewrite last_app_cons, last_cons, Hlast.
    + simpl. simpl in Hin. apply elem_of_app. right. by right.
Qed.

(** ** [insert] *)

Lemma bst_locs_graft v new t x : x ∈ locs (graft v new t) -> x = new \/ x ∈ locs t.
Proof.
  induction t as [|l IHl p w r IHr]; simpl.
  - rewrite elem_of_cons. intros [?|[]%elem_of_nil]; auto.
  - destruct (v <? w); [|destruct (v >? w)]; simpl;
      rewrite !elem_of_app, !elem_of_cons; intros [?|[?|?]]; auto.
    + destruct IHl; auto.
    + destruct IHr; auto.
Qed.

Lemma bst_nodup_graft v new t :
  NoDup (locs t) -> new ∉ locs t -> NoDup (locs (graft v new t)).
Proof.
  induction t as [|l IHl p w r IHr]; simpl.
  - intros _ _. apply NoDup_singleton.
  - rewrite NoDup_app, NoDup_cons, not_elem_of_app, not_elem_of_cons.
    intros (Hl & Hd & Hp & Hr) (Hnl & Hnp & Hnr).
    destruct (v <? w); [|destruct (v >? w)]; simpl;
      rewrite NoDup_app, NoDup_cons; repeat split; auto.
    + intros x [->|Hx]%bst_locs_graft; [|by apply Hd].
      rewrite elem_of_cons. intros [?|?]; done.
    + intros x Hx. rewrite elem_of_cons.
      intros [->|[->|Hx']%bst_locs_graft]; [| |].
      * apply (Hd _ Hx). by left.
      * done.
      * apply (Hd _ Hx). by right.
    + intros [->|?]%bst_locs_graft; done.
Qed.

Lemma bst_graft_present v new t : bst t -> v ∈ keys t -> graft v new t = t.
Proof.
  induction t as [|l IHl p w r IHr]; simpl; [by intros _ ?%elem_of_nil|].
  intros (Hbl & Hbr & Hlt & Hgt). rewrite Forall_forall in Hlt, Hgt.
  rewrite elem_of_app, elem_of_cons. intros Hin.
  destruct (v <? w) eqn:E1.
  - apply Z.ltb_lt in E1. f_equal. apply IHl; [done|].
    destruct Hin as [?|[?|?%Hgt]]; [done|lia|lia].
  - apply Z.ltb_ge in E1. destruct (v >? w) eqn:E2; [|done].
    f_equal. apply IHr; [done|].
    destruct Hin as [?%Hlt|[?|?]]; [lia|lia|done].
Qed.

Lemma bst_fresh_rep h r t : BST.rep h r t -> fresh (dom h) ∉ locs t.
Proof.
  intros Hrep Hin. apply (bst_rep_dom _ _ _ _ Hrep) in Hin.
  apply elem_of_dom in Hin. by apply is_fresh in Hin.
Qed.

Lemma bst_insert_rep v : forall t fuel h p,
  BST.rep h (Some p) t -> NoDup (locs t) -> (levels t <= fuel)%nat ->
  exists h', BST.insert fuel (Some p) (Some v) h = BST.Return tt h' /\
             BST.rep h' (Some p) (graft v (fresh (dom h)) t) /\
             (forall x, x ∉ locs t -> x ≠ fresh (dom h) -> h' !! x = h !! x) /\
             (graft v (fresh (dom h)) t = t -> h' = h).
Proof.
  induction t as [|l IHl p w r IHr]; intros fuel h q Hrep Hnd Hfuel; [by inversion Hrep|].
  inversion Hrep as [|? ? ? ? pl pr Hp Hl Hr]; subst.
  pose proof (bst_fresh_rep _ _ _ Hrep) as Hfresh.
  simpl in Hnd, Hfresh.
  apply NoDup_app in Hnd as (Hndl & Hd & Hnd). apply NoDup_cons in Hnd as (Hpr & Hndr).
  apply not_elem_of_app in Hfresh as (Hfl & Hfr).
  apply not_elem_of_cons in Hfr as (Hfp & Hfr).
  assert (p ∉ locs l) as Hpl by (intros Hx; apply (Hd _ Hx); by left).
  destruct fuel as [|fuel]; [simpl in Hfuel; lia|]. simpl in Hfuel.
  set (new := fresh (dom h)) in *.
  simpl BST.insert. brun. unfold BST.py_eq.
  destruct (decide (v = w)) as [->|Hvw].
  { rewrite bool_decide_eq_true_2 by done. exists h. simpl.
    rewrite Z.ltb_irrefl. replace (w >? w) with false by lia. done. }
  rewrite bool_decide_eq_false_2 by (intros [= ?]; done).
  brun. brun. cbn [graft].
  destruct (v <? w) eqn:E.
  - brun. rewrite (bst_rep_truthy _ _ _ Hl). destruct l as [|ll lp lv lr].
    + inversion Hl; subst. cbn [negb]. brun. fold new.
      erewrite bst_set_left_eq by (by rewrite lookup_insert_ne).
      eexists. split; [done|]. cbn [BST.value BST.right graft].
      split; [|split].
      * econstructor; [apply lookup_insert_eq| |].
        -- econstructor; [by rewrite lookup_insert_ne, lookup_insert_eq|constructor..].
        -- eapply bst_rep_agree; [|exact Hr]. intros x Hx.
           rewrite !lookup_insert_ne; [done| |]; intros ->; done.
      * intros x Hx Hxn. simpl in Hx. apply not_elem_of_cons in Hx as (? & _).
        by rewrite !lookup_insert_ne.
      * intros [=].
    + cbn [negb]. brun.
      assert (exists q, pl = Some q) as [q ->] by (inversion Hl; eauto).
      destruct (IHl fuel h q Hl Hndl) as (h' & E' & Hrep' & Hframe & Hsame); [lia|].
      rewrite E'. exists h'. split; [done|]. fold new in Hrep', Hframe, Hsame.
      split; [|split].
      * econstructor; [rewrite Hframe; done| exact Hrep' |].
        eapply bst_rep_agree; [|exact Hr]. intros x Hx.
        apply Hframe; [|intros ->; done]. intros Hx'. apply (Hd _ Hx'). by right.
      * intros x Hx Hxn. apply Hframe; [|done]. simpl in Hx.
        apply not_elem_of_app in Hx as (? & _). done.
      * intros [= Hg]. auto.
  - replace (v >? w) with true by lia.
    brun. rewrite (bst_rep_truthy _ _ _ Hr). destruct r as [|rl rp rv rr].
    + inversion Hr; subst. cbn [negb]. brun. fold new.
      erewrite bst_set_right_eq by (by rewrite lookup_insert_ne).
      eexists. split; [done|]. cbn [BST.value BST.left graft].
      split; [|split].
      * econstructor; [apply lookup_insert_eq| |].
        -- eapply bst_rep_agree; [|exact Hl]. intros x Hx.
           rewrite !lookup_insert_ne; [done| |]; intros ->; done.
        -- econstructor; [by rewrite lookup_insert_ne, lookup_insert_eq|constructor..].
      * intros x Hx Hxn. simpl in Hx. apply not_elem_of_app in Hx as (? & Hx).
        apply not_elem_of_cons in Hx as (? & _).
        by rewrite !lookup_insert_ne.
      * intros [=].
    + cbn [negb]. brun.
      assert (exists q, pr = Some q) as [q ->] by (inversion Hr; eauto).
      destruct (IHr fuel h q Hr Hndr) as (h' & E' & Hrep' & Hframe & Hsame); [lia|].
      rewrite E'. exists h'. split; [done|]. fold new in Hrep', Hframe, Hsame.
      split; [|split].
      * econstructor; [rewrite Hframe; done| | exact Hrep'].
        eapply bst_rep_agree; [|exact Hl]. intros x Hx.
        apply Hframe; [|intros ->; done]. intros Hx'. apply (Hd _ Hx). by right.
      * intros x Hx Hxn. apply Hframe; [|done]. simpl in Hx.
        apply not_elem_of_app in Hx as (? & Hx).
        apply not_elem_of_cons in Hx as (? & ?). done.
      * intros [= Hg]. auto.
Qed.

(** ** [delete] *)

Lemma bst_increasing_head vs m x :
  increasing vs = true -> head vs = Some m -> x ∈ vs -> x = m \/ m < x.
Proof.
  destruct vs as [|a vs]; [done|]. intros [Hall _]%increasing_cons [= ->].
  rewrite Forall_forall in Hall. rewrite elem_of_cons. intros [?|?%Hall]; auto.
Qed.

Lemma bst_head_elem {A} (vs : list A) m : head vs = Some m -> m ∈ vs.
Proof. destruct vs; [done|]. intros [= ->]. by left. Qed.

Ltac split9 :=
  split; [|split; [|split; [|split; [|split; [|split; [|split; [|split]]]]]]].

Lemma bst_delete_absent h p t v :
  BST.rep h (Some p) t -> NoDup (locs t) -> bst t -> v ∉ keys t ->
  BST.rep h (Some p) t /\ NoDup (locs t) /\ bst t /\
  (forall x, x ∈ locs t -> x ∈ locs t) /\
  (forall x, x ∈ keys t <-> x ∈ keys t /\ x ≠ v) /\
  (forall x, x ∉ locs t -> h !! x = h !! x) /\
  (levels t <= levels t)%nat /\
  (v ∉ keys t -> Some p = Some p /\ h = h) /\
  (forall l w r, t = Fork l p w r -> v ≠ w -> Some p = Some p).
Proof.
  intros Hrep Hnd Hbst Hv. repeat split; try done.
  - by intros ->.
  - tauto.
Qed.

Lemma bst_delete_rep : forall t fuel h p v,
  BST.rep h (Some p) t -> NoDup (locs t) -> bst t -> (levels t <= fuel)%nat ->
  exists r' h' t',
    BST.delete fuel (Some p) (Some v) h = BST.Return r' h' /\
    BST.rep h' r' t' /\ NoDup (locs t') /\ bst t' /\
    (forall x, x ∈ locs t' -> x ∈ locs t) /\
    (forall x, x ∈ keys t' <-> x ∈ keys t /\ x ≠ v) /\
    (forall x, x ∉ locs t -> h' !! x = h !! x) /\
    (levels t' <= levels t)%nat /\
    (v ∉ keys t -> r' = Some p /\ h' = h) /\
    (forall l w r, t = Fork l p w r -> v ≠ w -> r' = Some p).
Proof.
  induction t as [|l IHl p w r IHr]; intros fuel h q v Hrep Hnd Hbst Hfuel;
    [by inversion Hrep|].
  inversion Hrep as [|? ? ? ? pl pr Hp Hl Hr]; subst.
  pose proof Hnd as Hnd0. pose proof Hbst as Hbst0. simpl in Hnd.
  apply NoDup_app in Hnd as (Hndl & Hd & Hnd). apply NoDup_cons in Hnd as (Hpr & Hndr).
  assert (p ∉ locs l) as Hpl by (intros Hx; apply (Hd _ Hx); by left).
  assert (forall x, x ∈ locs l -> x ∉ locs r) as Hlr.
  { intros x Hx Hx'. apply (Hd _ Hx). by right. }
  destruct Hbst as (Hbl & Hbr & Hlt & Hgt). rewrite Forall_forall in Hlt, Hgt.
  destruct fuel as [|fuel]; [simpl in Hfuel; lia|]. simpl in Hfuel.
  cbn [BST.delete]. rewrite bool_decide_eq_false_2 by done.
  brun. brun.
  destruct (v <? w) eqn:E1.
  { (* the value is smaller: into the left subtree *)
    apply Z.ltb_lt in E1. brun. rewrite (bst_rep_truthy _ _ _ Hl).
    destruct l as [|ll lp lv lr].
    - brun. exists (Some p), h, (Fork Tip p w r). rewrite bst_ret_eq.
      split; [done|]. apply bst_delete_absent; try done.
      simpl. rewrite !elem_of_cons. intros [?|?%Hgt]; lia.
    - assert (exists q, pl = Some q) as [q ->] by (inversion Hl; eauto).
      destruct (IHl fuel h q v Hl Hndl Hbl) as
        (d & h1 & l' & E & Hrep' & Hnd' & Hbst' & Hsub & Hkeys & Hframe & Hlev & Hsame & _);
        [lia|].
      assert (h1 !! p = Some (BST.mkNode (Some w) (Some q) pr)) as Hp1
        by (by rewrite Hframe).
      set (l0 := Fork ll lp lv lr) in *.
      bsub ltac:(brun; rewrite (bst_bind_Return _ _ _ _ _ E);
                 erewrite bst_set_left_eq by done).
      cbn [BST.value BST.right]. rewrite bst_ret_eq.
      exists (Some p), (<[p := BST.mkNode (Some w) d pr]> h1), (Fork l' p w r). split; [done|].
      split9.
      + econstructor; [apply lookup_insert_eq| |].
        * eapply bst_rep_agree; [|exact Hrep']. intros x Hx.
          rewrite lookup_insert_ne; [done|]. intros ->. by apply Hsub in Hx.
        * eapply bst_rep_agree; [|exact Hr]. intros x Hx.
          rewrite lookup_insert_ne by (by intros ->).
          apply Hframe. intros Hx'. by apply (Hlr _ Hx').
      + cbn [locs]. apply NoDup_app. split; [done|]. split; [|by apply NoDup_cons].
        intros x Hx%Hsub. by apply Hd.
      + cbn [bst]. split; [done|]. split; [done|]. rewrite !Forall_forall.
        split; [|done]. intros x [Hx _]%Hkeys. by apply Hlt.
      + intros x Hx. cbn [locs] in Hx. apply elem_of_app in Hx as [Hx%Hsub|Hx];
          cbn [locs]; apply elem_of_app; [left|right]; exact Hx.
      + intros x. cbn [keys]. rewrite !elem_of_app, !elem_of_cons, Hkeys.
        split.
        * intros [[? ?]|[->|Hx]]; [tauto|split; [tauto|lia]|].
          split; [tauto|]. apply Hgt in Hx. lia.
        * intros [[?|[?|?]] ?]; tauto.
      + intros x Hx. cbn [locs] in Hx. apply not_elem_of_app in Hx as (? & Hx).
        apply not_elem_of_cons in Hx as (? & ?).
        rewrite lookup_insert_ne by done. by apply Hframe.
      + cbn [levels]. lia.
      + intros Hv. split; [done|]. destruct Hsame as [-> ->].
        { intros Hx. apply Hv. cbn [keys]. apply elem_of_app. by left. }
        by apply insert_id.
      + done. }
  brun. brun.
  destruct (v >? w) eqn:E2.
  { (* the value is larger: into the right subtree *)
    apply Z.ltb_ge in E1. brun. rewrite (bst_rep_truthy _ _ _ Hr).
    destruct r as [|rl rp rv rr].
    - brun. exists (Some p), h, (Fork l p w Tip). rewrite bst_ret_eq.
      split; [done|]. apply bst_delete_absent; try done.
      simpl. rewrite elem_of_app, !elem_of_cons.
      intros [?%Hlt|[?|?%elem_of_nil]]; [lia|lia|done].
    - assert (exists q, pr = Some q) as [q ->] by (inversion Hr; eauto).
      destruct (IHr fuel h q v Hr Hndr Hbr) as
        (d & h1 & r' & E & Hrep' & Hnd' & Hbst' & Hsub & Hkeys & Hframe & Hlev & Hsame & _);
        [lia|].
      assert (h1 !! p = Some (BST.mkNode (Some w) pl (Some q))) as Hp1
        by (by rewrite Hframe).
      set (r0 := Fork rl rp rv rr) in *.
      bsub ltac:(brun; rewrite (bst_bind_Return _ _ _ _ _ E);
                 erewrite bst_set_right_eq by done).
      cbn [BST.value BST.left]. rewrite bst_ret_eq.
      exists (Some p), (<[p := BST.mkNode (Some w) pl d]> h1), (Fork l p w r'). split; [done|].
      split9.
      + econstructor; [apply lookup_insert_eq| |].
        * eapply bst_rep_agree; [|exact Hl]. intros x Hx.
          rewrite lookup_insert_ne by (by intros ->).
          apply Hframe. by apply Hlr.
        * eapply bst_rep_agree; [|exact Hrep']. intros x Hx.
          rewrite lookup_insert_ne; [done|]. intros ->. by apply Hsub in Hx.
      + cbn [locs]. apply NoDup_app. split; [done|]. split.
        * intros x Hx. rewrite elem_of_cons. intros [->|?%Hsub]; [done|].
          by apply (Hlr _ Hx).
        * apply NoDup_cons. split; [|done]. by intros ?%Hsub.
      + cbn [bst]. split; [done|]. split; [done|]. rewrite !Forall_forall.
        split; [done|]. intros x [Hx _]%Hkeys. by apply Hgt.
      + intros x Hx. cbn [locs] in Hx.
        apply elem_of_app in Hx as [Hx|[Hx|Hx%Hsub]%elem_of_cons];
          cbn [locs]; rewrite elem_of_app, elem_of_cons; tauto.
      + intros x. cbn [keys]. rewrite !elem_of_app, !elem_of_cons, Hkeys.
        split.
        * intros [Hx|[->|[? ?]]]; [|split; [tauto|lia]|tauto].
          split; [tauto|]. apply Hlt in Hx. lia.
        * intros [[?|[?|?]] ?]; tauto.
      + intros x Hx. cbn [locs] in Hx. apply not_elem_of_app in Hx as (? & Hx).
        apply not_elem_of_cons in Hx as (? & ?).
        rewrite lookup_insert_ne by done. by apply Hframe.
      + cbn [levels]. lia.
      + intros Hv. split; [done|]. destruct Hsame as [-> ->].
        { intros Hx. apply Hv. cbn [keys]. apply elem_of_app. right. by right. }
        by apply insert_id.
      + done. }
  (* the value is here *)
  assert (v = w) as -> by lia. clear E1 E2.
  brun. unfold BST.py_eq. rewrite bool_decide_eq_true_2 by done. brun.
  assert (w ∈ keys (Fork l p w r)) as Hw.
  { simpl. apply elem_of_app. right. by left. }
  assert (forall x, x ∈ keys l -> x ∈ keys (Fork l p w r) /\ x ≠ w) as Hkl.
  { intros x Hx. split; [simpl; apply elem_of_app; by left|]. apply Hlt in Hx. lia. }
  assert (forall x, x ∈ keys r -> x ∈ keys (Fork l p w r) /\ x ≠ w) as Hkr.
  { intros x Hx. split; [simpl; apply elem_of_app; right; by right|]. apply Hgt in Hx. lia. }
  assert (forall x, x ∈ keys (Fork l p w r) -> x ≠ w -> x ∈ keys l \/ x ∈ keys r) as Hk.
  { intros x. simpl. rewrite elem_of_app, elem_of_cons. intros [?|[?|?]] ?; auto. done. }
  destruct l as [|ll lp lv lr].
  { inversion Hl; subst. rewrite bool_decide_eq_true_2 by done.
    destruct r as [|rl rp rv rr].
    - (* case 1: a leaf *)
      inversion Hr; subst.
      bsub ltac:(brun). rewrite bool_decide_eq_true_2 by done. cbv iota.
      exists None, h, Tip. rewrite bst_ret_eq. split; [done|]. split9.
      + constructor.
      + constructor.
      + done.
      + by intros x ?%elem_of_nil.
      + intros x. split; [by intros ?%elem_of_nil|].
        intros [Hx ?]. apply Hk in Hx as [?%elem_of_nil|?%elem_of_nil]; done.
      + done.
      + cbn [levels]. lia.
      + intros Hv. by destruct Hv.
      + by intros ? ? ? [= <- <- <-].
    - (* case 2: only a right child *)
      assert (exists q, pr = Some q) as [q ->] by (inversion Hr; eauto).
      bsub ltac:(brun). rewrite bool_decide_eq_false_2 by done. cbv iota.
      brun. rewrite bool_decide_eq_true_2 by done.
      erewrite bst_get_right_eq by done. cbn [BST.right].
      exists (Some q), h, (Fork rl rp rv rr). split; [done|]. split9; try done.
      + intros x Hx. cbn [locs]. by right.
      + intros x. split; [apply Hkr|].
        intros [Hx ?]. by apply Hk in Hx as [?%elem_of_nil|?].
      + cbn [levels]. lia.
      + by intros ? ? ? [= <- <- <-]. }
  assert (exists q, pl = Some q) as [ql ->] by (inversion Hl; eauto).
  rewrite bool_decide_eq_false_2 by done. rewrite bst_bind_Return with (a := false) (h' := h) by done.
  cbv iota. brun. rewrite bool_decide_eq_false_2 by done. brun.
  destruct r as [|rl rp rv rr].
  { (* case 3: only a left child *)
    inversion Hr; subst. rewrite bool_decide_eq_true_2 by done.
    erewrite bst_get_left_eq by done. cbn [BST.left].
    exists (Some ql), h, (Fork ll lp lv lr). split; [done|]. split9; try done.
    + intros x Hx. cbn [locs]. apply elem_of_app. by left.
    + intros x. split; [apply Hkl|].
      intros [Hx ?]. by apply Hk in Hx as [?|?%elem_of_nil].
    + cbn [levels]. lia.
    + by intros ? ? ? [= <- <- <-]. }
  (* case 4: two children *)
  assert (exists q, pr = Some q) as [qr ->] by (inversion Hr; eauto).
  assert (qr = rp) as -> by (by inversion Hr).
  rewrite bool_decide_eq_false_2 by done. brun.
  destruct (bst_leftmost_rep h _ fuel rl rp rv rr Hr eq_refl)
    as (q & m & qright & Elm & Hq & Hhd & Hqin); [lia|].
  rewrite (bst_bind_Return _ _ _ _ _ Elm). brun.
  assert (p ≠ q) as Hpq by (by intros ->).
  erewrite bst_bind_Return by (by apply bst_set_value_eq). cbn [BST.left BST.right].
  set (h1 := <[p := BST.mkNode (Some m) (Some ql) (Some rp)]> h).
  assert (h1 !! p = Some (BST.mkNode (Some m) (Some ql) (Some rp))) as Hp1
    by apply lookup_insert_eq.
  assert (h1 !! q = Some (BST.mkNode (Some m) None qright)) as Hq1
    by (unfold h1; by rewrite lookup_insert_ne).
  brun. brun.
  assert (BST.rep h1 (Some rp) (Fork rl rp rv rr)) as Hr1.
  { eapply bst_rep_agree; [|exact Hr]. intros x Hx. unfold h1.
    rewrite lookup_insert_ne; [done|]. by intros ->. }
  destruct (IHr fuel h1 rp m Hr1 Hndr Hbr) as
    (d & h2 & r' & E & Hrep' & Hnd' & Hbst' & Hsub & Hkeys & Hframe & Hlev & _ & _);
    [lia|].
  rewrite (bst_bind_Return _ _ _ _ _ E).
  assert (h2 !! p = Some (BST.mkNode (Some m) (Some ql) (Some rp))) as Hp2
    by (by rewrite Hframe).
  erewrite bst_bind_Return by (by apply bst_set_right_eq).
  cbn [BST.value BST.left]. rewrite bst_ret_eq.
  pose proof (bst_head_elem _ _ Hhd) as Hm.
  pose proof (proj1 (bst_increasing _) Hbr) as Hinc.
  assert (w < m) as Hwm by (by apply Hgt).
  set (l0 := Fork ll lp lv lr) in *. set (r0 := Fork rl rp rv rr) in *.
  eexists _, _, (Fork l0 p m r'). split; [done|].
  split9.
  + econstructor; [apply lookup_insert_eq| |].
    * eapply bst_rep_agree; [|exact Hl]. intros x Hx.
      rewrite lookup_insert_ne by (by intros ->).
      rewrite Hframe by (by apply Hlr). unfold h1.
      rewrite lookup_insert_ne; [done|]. by intros ->.
    * eapply bst_rep_agree; [|exact Hrep']. intros x Hx.
      rewrite lookup_insert_ne; [done|]. intros ->. by apply Hsub in Hx.
  + cbn [locs]. apply NoDup_app. split; [done|]. split.
    * intros x Hx. rewrite elem_of_cons. intros [->|?%Hsub]; [done|].
      by apply (Hlr _ Hx).
    * apply NoDup_cons. split; [|done]. by intros ?%Hsub.
  + cbn [bst]. split; [done|]. split; [done|]. rewrite !Forall_forall. split.
    * intros x Hx%Hlt. lia.
    * intros x [Hx Hne]%Hkeys.
      destruct (bst_increasing_head _ _ _ Hinc Hhd Hx); done.
  + intros x Hx. cbn [locs] in Hx.
    apply elem_of_app in Hx as [Hx|[Hx|Hx%Hsub]%elem_of_cons];
      cbn [locs]; rewrite elem_of_app, elem_of_cons; tauto.
  + intros x. cbn [keys]. rewrite elem_of_app, elem_of_cons, Hkeys.
    split.
    * intros [Hx|[->|[Hx ?]]]; [by apply Hkl|by apply Hkr|by apply Hkr].
    * intros [Hx Hne]. destruct (Hk _ Hx Hne) as [?|?]; [by left|].
      right. destruct (decide (x = m)); auto.
  + intros x Hx. cbn [locs] in Hx. apply not_elem_of_app in Hx as (? & Hx).
    apply not_elem_of_cons in Hx as (? & ?).
    rewrite lookup_insert_ne by done. rewrite Hframe by done. unfold h1.
    by rewrite lookup_insert_ne.
  + cbn [levels] in *. lia.
  + intros Hv. done.
  + done.
Qed.

(** ** Search trees in the store *)

Lemma bst_holds_tree h p vs :
  BST.holds h (Some p) vs ->
  exists t, BST.rep h (Some p) t /\ NoDup (locs t) /\ bst t /\ keys t = vs /\
            t ≠ Tip /\ (levels t <= length vs)%nat.
Proof.
  intros (t & Hrep & Hnd & <- & Hinc). exists t. repeat split; try done.
  - by apply bst_increasing.
  - intros ->. inversion Hrep.
  - apply bst_levels_keys.
Qed.

Lemma bst_holds_intro h r t :
  BST.rep h r t -> NoDup (locs t) -> bst t -> BST.holds h r (keys t).
Proof. intros ? ? ?%bst_increasing. by exists t. Qed.

Lemma bst_holds_None h r vs : BST.holds h r vs -> r = None <-> vs = [].
Proof.
  intros (t & Hrep & _ & <- & _). destruct Hrep as [|l p v r pl pr]; [done|].
  split; [done|]. simpl. by intros [_ [=]]%app_eq_nil.
Qed.

Lemma bst_increasing_ext l1 : forall l2,
  increasing l1 = true -> increasing l2 = true ->
  (forall x, x ∈ l1 <-> x ∈ l2) -> l1 = l2.
Proof.
  induction l1 as [|a l1 IH]; intros [|b l2] H1 H2 Hext.
  - done.
  - exfalso. eapply not_elem_of_nil. apply Hext. by left.
  - exfalso. eapply not_elem_of_nil. apply Hext. by left.
  - apply increasing_cons in H1 as [Ha H1]. apply increasing_cons in H2 as [Hb H2].
    rewrite Forall_forall in Ha, Hb.
    assert (a = b) as ->.
    { pose proof (proj1 (Hext a) ltac:(by left)) as [?|?%Hb]%elem_of_cons; [done|].
      pose proof (proj2 (Hext b) ltac:(by left)) as [?|?%Ha]%elem_of_cons; [done|lia]. }
    f_equal. apply IH; [done..|]. intros x. split; intros Hx.
    + pose proof (proj1 (Hext x) ltac:(by right)) as [->|?]%elem_of_cons; [|done].
      apply Ha in Hx. lia.
    + pose proof (proj2 (Hext x) ltac:(by right)) as [->|?]%elem_of_cons; [|done].
      apply Hb in Hx. lia.
Qed.

Lemma bst_length_graft v new t :
  (length (keys (graft v new t)) <= S (length (keys t)))%nat.
Proof.
  induction t as [|l IHl p w r IHr]; simpl; [done|].
  destruct (v <? w); [|destruct (v >? w)]; simpl; rewrite !length_app; simpl; lia.
Qed.

Lemma bst_levels_graft_ge v new t : (levels t <= levels (graft v new t))%nat.
Proof.
  induction t as [|l IHl p w r IHr]; simpl; [lia|].
  destruct (v <? w); [|destruct (v >? w)]; simpl; lia.
Qed.

Lemma bst_insert_tree h p t fuel v :
  BST.rep h (Some p) t -> NoDup (locs t) -> bst t -> (levels t <= fuel)%nat ->
  exists h' t',
    BST.insert fuel (Some p) (Some v) h = BST.Return tt h' /\
    BST.rep h' (Some p) t' /\ NoDup (locs t') /\ bst t' /\
    (forall x, x ∈ keys t' <-> x = v \/ x ∈ keys t) /\
    (v ∈ keys t -> h' = h) /\
    (length (keys t') <= S (length (keys t)))%nat /\
    (levels t <= levels t' <= S (levels t))%nat /\
    (forall x, x ∈ dom h -> x ∉ locs t -> h' !! x = h !! x) /\
    (forall x, x ∈ locs t' -> x ∈ locs t \/ x ∉ dom h) /\
    (forall l w r, t = Fork l p w r -> exists l' r', t' = Fork l' p w r') /\
    t' = graft v (fresh (dom h)) t.
Proof.
  intros Hrep Hnd Hbst Hfuel.
  destruct (bst_insert_rep v t fuel h p Hrep Hnd Hfuel) as (h' & E & Hrep' & Hframe & Hsame).
  exists h', (graft v (fresh (dom h)) t). split; [done|]. split; [done|].
  split; [|split; [|split; [|split; [|split; [|split; [|split; [|split; [|split; [|done]]]]]]]]].
  - apply bst_nodup_graft; [done|]. by eapply bst_fresh_rep.
  - by apply bst_graft.
  - intros x. apply keys_graft_iff.
  - intros Hv. apply Hsame. by apply bst_graft_present.
  - apply bst_length_graft.
  - split; [apply bst_levels_graft_ge|apply levels_graft].
  - intros x Hx Hxt. apply Hframe; [done|]. intros ->. by apply is_fresh in Hx.
  - intros x [->|?]%bst_locs_graft; [right; apply is_fresh|by left].
  - intros l w r ->. simpl. destruct (v <? w); [|destruct (v >? w)]; eauto.
Qed.

Lemma bst_insert_holds h p vs fuel v :
  BST.holds h (Some p) vs -> (length vs <= fuel)%nat ->
  exists h' vs',
    BST.insert fuel (Some p) (Some v) h = BST.Return tt h' /\
    BST.holds h' (Some p) vs' /\
    (forall x, x ∈ vs' <-> x = v \/ x ∈ vs) /\
    (v ∈ vs -> h' = h) /\
    (length vs' <= S (length vs))%nat.
Proof.
  intros (t & Hrep & Hnd & Hbst & <- & _ & Hlev)%bst_holds_tree Hfuel.
  destruct (bst_insert_tree h p t fuel v Hrep Hnd Hbst) as
    (h' & t' & E & Hrep' & Hnd' & Hbst' & Hk & Hsame & Hlen & _); [lia|].
  exists h', (keys t'). split; [done|]. split; [by apply bst_holds_intro|]. done.
Qed.

Lemma bst_delete_holds h p vs fuel v :
  BST.holds h (Some p) vs -> (length vs <= fuel)%nat ->
  exists r' h' vs',
    BST.delete fuel (Some p) (Some v) h = BST.Return r' h' /\
    BST.holds h' r' vs' /\
    (forall x, x ∈ vs' <-> x ∈ vs /\ x ≠ v) /\
    (v ∉ vs -> r' = Some p /\ h' = h).
Proof.
  intros (t & Hrep & Hnd & Hbst & <- & _ & Hlev)%bst_holds_tree Hfuel.
  destruct (bst_delete_rep t fuel h p v Hrep Hnd Hbst) as
    (r' & h' & t' & E & Hrep' & Hnd' & Hbst' & _ & Hk & _ & _ & Hsame & _); [lia|].
  exists r', h', (keys t'). split; [done|]. split; [by apply bst_holds_intro|]. done.
Qed.

Lemma bst_contains_holds h p vs fuel v :
  BST.holds h (Some p) vs -> (length vs <= fuel)%nat ->
  BST.contains fuel (Some p) (Some v) h = BST.Return (bool_decide (v ∈ vs)) h.
Proof.
  intros (t & Hrep & Hnd & Hbst & <- & Hne & Hlev)%bst_holds_tree Hfuel.
  apply bst_contains_rep; try done. lia.
Qed.

(** ** [set_root] *)

Lemma bst_insert_each_tree fuel values : forall h p t,
  BST.rep h (Some p) t -> NoDup (locs t) -> bst t ->
  (length (keys t) + length values <= fuel)%nat ->
  exists h' t',
    BST.insert_each fuel (Some p) (Some <$> values) h = BST.Return tt h' /\
    BST.rep h' (Some p) t' /\ NoDup (locs t') /\ bst t' /\
    (forall x, x ∈ keys t' <-> x ∈ values \/ x ∈ keys t) /\
    (forall x, x ∈ dom h -> x ∉ locs t -> h' !! x = h !! x) /\
    (forall l w r, t = Fork l p w r -> exists l' r', t' = Fork l' p w r') /\
    BST.grown values t t'.
Proof.
  induction values as [|v values IH]; intros h p t Hrep Hnd Hbst Hfuel.
  - exists h, t. repeat split; try done;
      [by right|rewrite elem_of_nil; tauto|eauto|constructor].
  - simpl in Hfuel. pose proof (bst_levels_keys t).
    destruct (bst_insert_tree h p t fuel v Hrep Hnd Hbst) as
      (h1 & t1 & E1 & Hrep1 & Hnd1 & Hbst1 & Hk1 & _ & Hlen1 & _ & Hframe1 & Hlocs1 & Htop1 & Ht1);
      [lia|].
    destruct (IH h1 p t1 Hrep1 Hnd1 Hbst1) as
      (h' & t' & E & Hrep' & Hnd' & Hbst' & Hk & Hframe & Htop & Hgrown); [lia|].
    exists h', t'.
    split; [|split; [done|split; [done|split; [done|split; [|split; [|split]]]]]].
    + rewrite fmap_cons. cbn [BST.insert_each].
      rewrite (bst_bind_Return _ _ _ _ _ E1). done.
    + intros x. rewrite Hk, Hk1, elem_of_cons. tauto.
    + intros x Hx Hxt. rewrite <- (Hframe1 x Hx Hxt). apply Hframe.
      * apply elem_of_dom. rewrite (Hframe1 x Hx Hxt). by apply elem_of_dom.
      * intros [?|?]%Hlocs1; done.
    + intros l w r Ht. destruct (Htop1 _ _ _ Ht) as (l1 & r1 & Ht1'). eauto.
    + econstructor. rewrite <- Ht1. done.
Qed.

Lemma bst_set_root_tree fuel first rest h0 :
  (length (first :: rest) <= fuel)%nat ->
  exists p h t,
    BST.set_root fuel (Some <$> first :: rest) h0 = BST.Return (Some p) h /\
    BST.rep h (Some p) t /\ NoDup (locs t) /\ bst t /\
    (forall x, x ∈ keys t <-> x ∈ first :: rest) /\
    (forall x, x ∈ dom h0 -> h !! x = h0 !! x) /\
    (p ∉ dom h0) /\ BST.value <$> h !! p = Some (Some first) /\
    BST.grown rest (Fork Tip p first Tip) t.
Proof.
  intros Hfuel. simpl in Hfuel.
  set (p := fresh (dom h0)).
  set (h1 := <[p := BST.mkNode (Some first) None None]> h0).
  assert (BST.rep h1 (Some p) (Fork Tip p first Tip)) as Hrep1.
  { econstructor; [apply lookup_insert_eq|constructor..]. }
  destruct (bst_insert_each_tree fuel rest h1 p (Fork Tip p first Tip) Hrep1) as
    (h & t & E & Hrep & Hnd & Hbst & Hk & Hframe & Htop & Hgrown).
  { apply NoDup_singleton. }
  { repeat split; constructor. }
  { simpl. lia. }
  exists p, h, t.
  split; [|split; [done|split; [done|split; [done|split; [|split; [|split; [|split; [|done]]]]]]]].
  - rewrite fmap_cons. cbn [BST.set_root]. brun. fold p h1.
    rewrite (bst_bind_Return _ _ _ _ _ E). done.
  - intros x. rewrite Hk. simpl. rewrite !elem_of_cons, elem_of_nil. tauto.
  - intros x Hx.
    assert (x ≠ p) as Hxp by (intros ->; by apply is_fresh in Hx).
    rewrite Hframe.
    + unfold h1. by rewrite lookup_insert_ne.
    + unfold h1. rewrite dom_insert, elem_of_union. by right.
    + simpl. by intros [?|?%elem_of_nil]%elem_of_cons.
  - apply is_fresh.
  - destruct (Htop _ _ _ eq_refl) as (l' & r' & ->).
    inversion Hrep as [|? ? ? ? pl pr Hp Hl Hr]; subst. by rewrite Hp.
Qed.

Lemma bst_increasing_last vs m x :
  increasing vs = true -> last vs = Some m -> x ∈ vs -> x <= m.
Proof.
  intros Hinc (l' & ->)%last_Some.
  apply increasing_app in Hinc as (_ & _ & Hlt & _). rewrite Forall_forall in Hlt.
  rewrite elem_of_app, list_elem_of_singleton. intros [?%Hlt| ->]; lia.
Qed.

Lemma bst_example_holds :
  BST.holds BST.example_tree (Some 1%positive) [5; 10; 12; 15; 20; 25; 30].
Proof.
  exists BST.example_shape. split; [|split; [compute_done|split; reflexivity]].
  unfold BST.example_shape.
  repeat first [apply BST.rep_tip | eapply BST.rep_fork; [vm_compute; reflexivity| |]].
Qed.

(** * Properties of the plain search tree *)

(** X10.  [BST.set_root] builds a search tree from any non-empty list of
    integers: it returns a new root object that carries the first value of
    the list, the tree under it holds exactly the values of the list, in
    strictly increasing order from left to right (a repeated value is
    stored once), and no object that existed before is changed.  On the
    empty list it raises [ValueError] and changes nothing. *)
Theorem set_root_builds fuel first rest h0 :
  (length (first :: rest) <= fuel)%nat ->
  BST.set_root fuel [] h0 =
    BST.Raise (BST.ValueError "List of values must not be empty.") h0 /\
  exists p h vs,
    BST.set_root fuel (Some <$> first :: rest) h0 = BST.Return (Some p) h /\
    BST.holds h (Some p) vs /\
    (forall x, x ∈ vs <-> x ∈ first :: rest) /\
    BST.value <$> h !! p = Some (Some first) /\
    (p ∉ dom h0) /\
    (forall x, x ∈ dom h0 -> h !! x = h0 !! x).
Proof.
  intros Hfuel. split; [done|].
  destruct (bst_set_root_tree fuel first rest h0 Hfuel) as
    (p & h & t & E & Hrep & Hnd & Hbst & Hk & Hframe & Hp & Hv & _).
  exists p, h, (keys t). split; [done|]. split; [by apply bst_holds_intro|]. done.
Qed.

Lemma set_root_builds_witness :
  BST.set_root 7 [] ∅ =
    BST.Raise (BST.ValueError "List of values must not be empty.") ∅ /\
  exists p h vs,
    BST.set_root 7 (Some <$> 20 :: [10; 25; 5; 15; 30; 12]) ∅ = BST.Return (Some p) h /\
    BST.holds h (Some p) vs /\
    (forall x, x ∈ vs <-> x ∈ 20 :: [10; 25; 5; 15; 30; 12]) /\
    BST.value <$> h !! p = Some (Some 20) /\
    (p ∉ dom (∅ : gmap loc BST.Node)) /\
    (forall x, x ∈ dom (∅ : gmap loc BST.Node) -> h !! x = (∅ : gmap loc BST.Node) !! x).
Proof. apply (set_root_builds 7 20 [10; 25; 5; 15; 30; 12] ∅). simpl. lia. Defined.

(** X11.  [inorder] on a search tree returns its values in strictly
    increasing order, each once, and leaves the store as it was. *)
Theorem inorder_sorted h p vs fuel :
  BST.holds h (Some p) vs -> (length vs <= fuel)%nat ->
  BST.inorder fuel (Some p) h = BST.Return (Some <$> vs) h /\
  increasing vs = true.
Proof.
  intros Hholds Hfuel. pose proof Hholds as (_ & _ & _ & _ & Hinc).
  apply bst_holds_tree in Hholds as (t & Hrep & Hnd & Hbst & <- & Hne & Hlev).
  split; [|done]. apply bst_inorder_rep; try done. lia.
Qed.

Lemma inorder_sorted_witness :
  BST.inorder 7 (Some 1%positive) BST.example_tree =
    BST.Return (Some <$> [5; 10; 12; 15; 20; 25; 30]) BST.example_tree /\
  increasing [5; 10; 12; 15; 20; 25; 30] = true.
Proof.
  apply (inorder_sorted BST.example_tree 1%positive [5; 10; 12; 15; 20; 25; 30] 7).
  - apply bst_example_holds.
  - simpl. lia.
Defined.

(** X12.  [contains] decides membership: on a search tree it returns [True]
    exactly for the integers the tree holds, it never raises for an integer
    argument, and it leaves the store as it was. *)
Theorem contains_iff_member h p vs fuel v :
  BST.holds h (Some p) vs -> (length vs <= fuel)%nat ->
  BST.contains fuel (Some p) (Some v) h = BST.Return (bool_decide (v ∈ vs)) h.
Proof. apply bst_contains_holds. Qed.

Lemma contains_iff_member_witness :
  BST.contains 7 (Some 1%positive) (Some 1) BST.example_tree =
  BST.Return (bool_decide (1 ∈ [5; 10; 12; 15; 20; 25; 30])) BST.example_tree.
Proof.
  apply (contains_iff_member BST.example_tree 1%positive [5; 10; 12; 15; 20; 25; 30] 7 1).
  - apply bst_example_holds.
  - simpl. lia.
Defined.

(** X13.  [insert] on a search tree returns, keeps the root object and the
    ordering, and leaves a tree that holds the new value and exactly the
    old ones, at most one value more.  Inserting a value that is already
    there changes nothing at all in the store. *)
Theorem search_insert_adds h p vs fuel v :
  BST.holds h (Some p) vs -> (length vs <= fuel)%nat ->
  exists h' vs',
    BST.insert fuel (Some p) (Some v) h = BST.Return tt h' /\
    BST.holds h' (Some p) vs' /\
    (forall x, x ∈ vs' <-> x = v \/ x ∈ vs) /\
    (v ∈ vs -> h' = h) /\
    (length vs' <= S (length vs))%nat.
Proof. apply bst_insert_holds. Qed.

Lemma search_insert_adds_witness :
  exists h' vs',
    BST.insert 7 (Some 1%positive) (Some 13) BST.example_tree = BST.Return tt h' /\
    BST.holds h' (Some 1%positive) vs' /\
    (forall x, x ∈ vs' <-> x = 13 \/ x ∈ [5; 10; 12; 15; 20; 25; 30]) /\
    (13 ∈ [5; 10; 12; 15; 20; 25; 30] -> h' = BST.example_tree) /\
    (length vs' <= S (length [5; 10; 12; 15; 20; 25; 30]))%nat.
Proof.
  apply (search_insert_adds BST.example_tree 1%positive [5; 10; 12; 15; 20; 25; 30] 7 13).
  - apply bst_example_holds.
  - simpl. lia.
Defined.

(** X14.  [delete] on a search tree returns the root of a search tree that
    holds exactly the old values without the deleted one; the result is
    [None] exactly when nothing is left.  Deleting a value that is not in
    the tree returns the same root and changes nothing in the store. *)
Theorem search_delete_removes h p vs fuel v :
  BST.holds h (Some p) vs -> (length vs <= fuel)%nat ->
  exists r' h' vs',
    BST.delete fuel (Some p) (Some v) h = BST.Return r' h' /\
    BST.holds h' r' vs' /\
    (forall x, x ∈ vs' <-> x ∈ vs /\ x ≠ v) /\
    (r' = None <-> vs' = []) /\
    (v ∉ vs -> r' = Some p /\ h' = h).
Proof.
  intros Hholds Hfuel.
  destruct (bst_delete_holds h p vs fuel v Hholds Hfuel) as
    (r' & h' & vs' & E & Hholds' & Hk & Hsame).
  exists r', h', vs'. split; [done|]. split; [done|]. split; [done|].
  split; [by eapply bst_holds_None|done].
Qed.

Lemma search_delete_removes_witness :
  exists r' h' vs',
    BST.delete 7 (Some 1%positive) (Some 10) BST.example_tree = BST.Return r' h' /\
    BST.holds h' r' vs' /\
    (forall x, x ∈ vs' <-> x ∈ [5; 10; 12; 15; 20; 25; 30] /\ x ≠ 10) /\
    (r' = None <-> vs' = []) /\
    (10 ∉ [5; 10; 12; 15; 20; 25; 30] -> r' = Some 1%positive /\ h' = BST.example_tree).
Proof.
  apply (search_delete_removes BST.example_tree 1%positive [5; 10; 12; 15; 20; 25; 30] 7 10).
  - apply bst_example_holds.
  - simpl. lia.
Defined.

(** X15.  [get_min] on a search tree returns a value of the tree that is
    less than or equal to every value of the tree. *)
Theorem get_min_least h p vs fuel :
  BST.holds h (Some p) vs -> (length vs <= fuel)%nat ->
  exists m, BST.get_min fuel (Some p) h = BST.Return (Some m) h /\
            m ∈ vs /\ forall x, x ∈ vs -> m <= x.
Proof.
  intros Hholds Hfuel. pose proof Hholds as (_ & _ & _ & _ & Hinc).
  apply bst_holds_tree in Hholds as (t & Hrep & Hnd & Hbst & <- & Hne & Hlev).
  destruct t as [|l q w r]; [done|]. assert (q = p) as -> by (by inversion Hrep).
  destruct (bst_leftmost_rep h _ fuel l p w r Hrep eq_refl) as
    (q & m & qr & E & Hq & Hhd & Hin); [lia|].
  exists m. split; [|split].
  - unfold BST.get_min. rewrite (bst_bind_Return _ _ _ _ _ E).
    by rewrite (bst_get_value_eq _ _ _ Hq).
  - by apply bst_head_elem.
  - intros x Hx. destruct (bst_increasing_head _ _ _ Hinc Hhd Hx); lia.
Qed.

Lemma get_min_least_witness :
  exists m, BST.get_min 7 (Some 1%positive) BST.example_tree =
              BST.Return (Some m) BST.example_tree /\
            m ∈ [5; 10; 12; 15; 20; 25; 30] /\
            forall x, x ∈ [5; 10; 12; 15; 20; 25; 30] -> m <= x.
Proof.
  apply (get_min_least BST.example_tree 1%positive [5; 10; 12; 15; 20; 25; 30] 7).
  - apply bst_example_holds.
  - simpl. lia.
Defined.

(** X16.  [get_max] on a search tree returns a value of the tree that is
    greater than or equal to every value of the tree. *)
Theorem get_max_greatest h p vs fuel :
  BST.holds h (Some p) vs -> (length vs <= fuel)%nat ->
  exists m, BST.get_max fuel (Some p) h = BST.Return (Some m) h /\
            m ∈ vs /\ forall x, x ∈ vs -> x <= m.
Proof.
  intros Hholds Hfuel. pose proof Hholds as (_ & _ & _ & _ & Hinc).
  apply bst_holds_tree in Hholds as (t & Hrep & Hnd & Hbst & <- & Hne & Hlev).
  destruct t as [|l q w r]; [done|]. assert (q = p) as -> by (by inversion Hrep).
  destruct (bst_rightmost_rep h _ fuel l p w r Hrep eq_refl) as
    (q & m & ql & E & Hq & Hlast & Hin); [lia|].
  exists m. split; [|split].
  - unfold BST.get_max. rewrite (bst_bind_Return _ _ _ _ _ E).
    by rewrite (bst_get_value_eq _ _ _ Hq).
  - apply last_Some in Hlast as (l' & ->). apply elem_of_app. right. by left.
  - intros x Hx. by eapply bst_increasing_last.
Qed.

Lemma get_max_greatest_witness :
  exists m, BST.get_max 7 (Some 1%positive) BST.example_tree =
              BST.Return (Some m) BST.example_tree /\
            m ∈ [5; 10; 12; 15; 20; 25; 30] /\
            forall x, x ∈ [5; 10; 12; 15; 20; 25; 30] -> x <= m.
Proof.
  apply (get_max_greatest BST.example_tree 1%positive [5; 10; 12; 15; 20; 25; 30] 7).
  - apply bst_example_holds.
  - simpl. lia.
Defined.

(** X17.  [preorder] and [postorder] on a search tree visit every value
    exactly once: each returns a rearrangement of the in-order sequence,
    [preorder] with the value of the root first and [postorder] with it
    last. *)
Theorem preorder_postorder_permute h p vs fuel :
  BST.holds h (Some p) vs -> (length vs <= fuel)%nat ->
  exists w xs ys,
    BST.value <$> h !! p = Some (Some w) /\
    BST.preorder fuel (Some p) h = BST.Return (Some w :: xs) h /\
    BST.postorder fuel (Some p) h = BST.Return (ys ++ [Some w]) h /\
    Some w :: xs ≡ₚ Some <$> vs /\
    ys ++ [Some w] ≡ₚ Some <$> vs.
Proof.
  intros (t & Hrep & Hnd & Hbst & <- & Hne & Hlev)%bst_holds_tree Hfuel.
  destruct t as [|l q w r]; [done|]. assert (q = p) as -> by (by inversion Hrep).
  destruct (bst_preorder_rep h _ fuel (Some p) l p w r Hrep eq_refl) as (xs & E1 & H1); [lia|].
  destruct (bst_postorder_rep h _ fuel (Some p) l p w r Hrep eq_refl) as (ys & E2 & H2); [lia|].
  exists w, xs, ys. split; [|done].
  inversion Hrep as [|? ? ? ? pl pr Hp Hl Hr]; subst. by rewrite Hp.
Qed.

Lemma preorder_postorder_permute_witness :
  exists w xs ys,
    BST.value <$> BST.example_tree !! 1%positive = Some (Some w) /\
    BST.preorder 7 (Some 1%positive) BST.example_tree =
      BST.Return (Some w :: xs) BST.example_tree /\
    BST.postorder 7 (Some 1%positive) BST.example_tree =
      BST.Return (ys ++ [Some w]) BST.example_tree /\
    Some w :: xs ≡ₚ Some <$> [5; 10; 12; 15; 20; 25; 30] /\
    ys ++ [Some w] ≡ₚ Some <$> [5; 10; 12; 15; 20; 25; 30].
Proof.
  apply (preorder_postorder_permute BST.example_tree 1%positive
           [5; 10; 12; 15; 20; 25; 30] 7).
  - apply bst_example_holds.
  - simpl. lia.
Defined.

(** X18.  [height] on a search tree of [n] values returns a number between
    1 and [n], and large enough for [n] values to fit: [n < 2 ^ height]. *)
Theorem height_between h p vs fuel :
  BST.holds h (Some p) vs -> (length vs <= fuel)%nat ->
  exists n, BST.height fuel (Some p) h = BST.Return n h /\
            (1 <= n <= length vs)%nat /\ (length vs < 2 ^ n)%nat.
Proof.
  intros (t & Hrep & Hnd & Hbst & <- & Hne & Hlev)%bst_holds_tree Hfuel.
  exists (levels t). split; [apply bst_height_rep; try done; lia|].
  split; [|apply bst_size_levels]. split; [|done].
  destruct t; [done|simpl; lia].
Qed.

Lemma height_between_witness :
  exists n, BST.height 7 (Some 1%positive) BST.example_tree =
              BST.Return n BST.example_tree /\
            (1 <= n <= length [5; 10; 12; 15; 20; 25; 30])%nat /\
            (length [5; 10; 12; 15; 20; 25; 30] < 2 ^ n)%nat.
Proof.
  apply (height_between BST.example_tree 1%positive [5; 10; 12; 15; 20; 25; 30] 7).
  - apply bst_example_holds.
  - simpl. lia.
Defined.

(** X19.  [insert] never lowers the height of a search tree and raises it
    by at most one. *)
Theorem insert_height_step h p vs fuel v :
  BST.holds h (Some p) vs -> (length vs < fuel)%nat ->
  exists n h' n',
    BST.height fuel (Some p) h = BST.Return n h /\
    BST.insert fuel (Some p) (Some v) h = BST.Return tt h' /\
    BST.height fuel (Some p) h' = BST.Return n' h' /\
    (n <= n' <= S n)%nat.
Proof.
  intros (t & Hrep & Hnd & Hbst & <- & Hne & Hlev)%bst_holds_tree Hfuel.
  destruct (bst_insert_tree h p t fuel v Hrep Hnd Hbst) as
    (h' & t' & E & Hrep' & Hnd' & Hbst' & _ & _ & _ & Hlevs & _); [lia|].
  exists (levels t), h', (levels t').
  split; [apply bst_height_rep; try done; lia|]. split; [done|].
  split; [|done]. apply bst_height_rep; [done| |lia].
  intros ->. inversion Hrep'.
Qed.

Lemma insert_height_step_witness :
  exists n h' n',
    BST.height 8 (Some 1%positive) BST.example_tree = BST.Return n BST.example_tree /\
    BST.insert 8 (Some 1%positive) (Some 11) BST.example_tree = BST.Return tt h' /\
    BST.height 8 (Some 1%positive) h' = BST.Return n' h' /\
    (n <= n' <= S n)%nat.
Proof.
  apply (insert_height_step BST.example_tree 1%positive [5; 10; 12; 15; 20; 25; 30] 8 11).
  - apply bst_example_holds.
  - simpl. lia.
Defined.

(** X20.  [delete] never raises the height: the tree it returns, when it is
    not [None], is at most as high as the tree it was called on. *)
Theorem delete_height_step h p vs fuel v :
  BST.holds h (Some p) vs -> (length vs <= fuel)%nat ->
  exists n r' h',
    BST.height fuel (Some p) h = BST.Return n h /\
    BST.delete fuel (Some p) (Some v) h = BST.Return r' h' /\
    forall q, r' = Some q ->
      exists n', BST.height fuel (Some q) h' = BST.Return n' h' /\ (n' <= n)%nat.
Proof.
  intros (t & Hrep & Hnd & Hbst & <- & Hne & Hlev)%bst_holds_tree Hfuel.
  destruct (bst_delete_rep t fuel h p v Hrep Hnd Hbst) as
    (r' & h' & t' & E & Hrep' & _ & _ & _ & _ & _ & Hlevs & _); [lia|].
  exists (levels t), r', h'.
  split; [apply bst_height_rep; try done; lia|]. split; [done|].
  intros q ->. exists (levels t'). split; [|done].
  apply bst_height_rep; [done| |lia]. intros ->. inversion Hrep'.
Qed.

Lemma delete_height_step_witness :
  exists n r' h',
    BST.height 7 (Some 1%positive) BST.example_tree = BST.Return n BST.example_tree /\
    BST.delete 7 (Some 1%positive) (Some 10) BST.example_tree = BST.Return r' h' /\
    forall q, r' = Some q ->
      exists n', BST.height 7 (Some q) h' = BST.Return n' h' /\ (n' <= n)%nat.
Proof.
  apply (delete_height_step BST.example_tree 1%positive [5; 10; 12; 15; 20; 25; 30] 7 10).
  - apply bst_example_holds.
  - simpl. lia.
Defined.

(** X21.  Round trip: inserting a value that is not in a search tree and
    then deleting it gives back the same root with the same values. *)
Theorem insert_delete_round_trip h p vs fuel v :
  BST.holds h (Some p) vs -> v ∉ vs -> (length vs < fuel)%nat ->
  exists h1 h2,
    BST.insert fuel (Some p) (Some v) h = BST.Return tt h1 /\
    BST.delete fuel (Some p) (Some v) h1 = BST.Return (Some p) h2 /\
    BST.holds h2 (Some p) vs.
Proof.
  intros Hholds Hv Hfuel. pose proof Hholds as (_ & _ & _ & _ & Hinc).
  apply bst_holds_tree in Hholds as (t & Hrep & Hnd & Hbst & <- & Hne & Hlev).
  destruct (bst_insert_tree h p t fuel v Hrep Hnd Hbst) as
    (h1 & t1 & E1 & Hrep1 & Hnd1 & Hbst1 & Hk1 & _ & _ & Hlevs & _ & _ & Htop & _); [lia|].
  destruct t as [|l q w r]; [done|]. assert (q = p) as -> by (by inversion Hrep).
  destruct (Htop _ _ _ eq_refl) as (l1 & r1 & ->).
  assert (v ≠ w) as Hvw.
  { intros ->. apply Hv. simpl. apply elem_of_app. right. by left. }
  destruct (bst_delete_rep _ fuel h1 p v Hrep1 Hnd1 Hbst1) as
    (r2 & h2 & t2 & E2 & Hrep2 & Hnd2 & Hbst2 & _ & Hk2 & _ & _ & _ & Hroot); [lia|].
  rewrite (Hroot _ _ _ eq_refl Hvw) in *.
  exists h1, h2. split; [done|]. split; [done|].
  assert (keys t2 = keys (Fork l p w r)) as <-; [|by apply bst_holds_intro].
  apply bst_increasing_ext; [by apply bst_increasing|done|].
  intros x. rewrite Hk2, Hk1. split; [intros [[?|?] ?]; done|].
  intros Hx. split; [by right|]. by intros ->.
Qed.

Lemma insert_delete_round_trip_witness :
  exists h1 h2,
    BST.insert 8 (Some 1%positive) (Some 11) BST.example_tree = BST.Return tt h1 /\
    BST.delete 8 (Some 1%positive) (Some 11) h1 = BST.Return (Some 1%positive) h2 /\
    BST.holds h2 (Some 1%positive) [5; 10; 12; 15; 20; 25; 30].
Proof.
  apply (insert_delete_round_trip BST.example_tree 1%positive
           [5; 10; 12; 15; 20; 25; 30] 8 11).
  - apply bst_example_holds.
  - compute_done.
  - simpl. lia.
Defined.

(** X22.  A [None] argument is not answered but raises: on a search tree of
    integers, [contains(None)], [insert(None)] and [delete(None)] each
    raise [TypeError] at the root, from the comparison [None < self.value],
    and leave the store as it was. *)
Theorem none_argument_raises h p vs fuel :
  BST.holds h (Some p) vs ->
  BST.contains (S fuel) (Some p) None h = BST.Raise BST.TypeError h /\
  BST.insert (S fuel) (Some p) None h = BST.Raise BST.TypeError h /\
  BST.delete (S fuel) (Some p) None h = BST.Raise BST.TypeError h.
Proof.
  intros (t & Hrep & _)%bst_holds_tree.
  inversion Hrep as [|l ? w r pl pr Hp Hl Hr]; subst.
  split; [|split].
  - cbn [BST.contains]. brun. unfold BST.py_eq.
    rewrite bool_decide_eq_false_2 by done.
    erewrite bst_bind_Raise; [done|]. brun. done.
  - cbn [BST.insert]. brun. unfold BST.py_eq.
    rewrite bool_decide_eq_false_2 by done. brun. done.
  - cbn [BST.delete]. rewrite bool_decide_eq_false_2 by done. brun. done.
Qed.

Lemma none_argument_raises_witness :
  BST.contains 1 (Some 1%positive) None BST.example_tree =
    BST.Raise BST.TypeError BST.example_tree /\
  BST.insert 1 (Some 1%positive) None BST.example_tree =
    BST.Raise BST.TypeError BST.example_tree /\
  BST.delete 1 (Some 1%positive) None BST.example_tree =
    BST.Raise BST.TypeError BST.example_tree.
Proof.
  apply (none_argument_raises BST.example_tree 1%positive [5; 10; 12; 15; 20; 25; 30] 0).
  apply bst_example_holds.
Defined.

(** X23.  A node whose value is [None] counts as an empty tree for
    [preorder], [postorder] and [height], whatever hangs under it, while
    [inorder] still lists the [None]; and no integer can be inserted under
    it: [insert] raises [TypeError] and changes nothing. *)
Theorem none_node_is_empty h p l r fuel :
  h !! p = Some (BST.mkNode None l r) ->
  BST.preorder (S fuel) (Some p) h = BST.Return [] h /\
  BST.postorder (S fuel) (Some p) h = BST.Return [] h /\
  BST.height (S fuel) (Some p) h = BST.Return 0%nat h /\
  (l = None -> r = None -> BST.inorder (S fuel) (Some p) h = BST.Return [None] h) /\
  forall v, BST.insert (S fuel) (Some p) (Some v) h = BST.Raise BST.TypeError h.
Proof.
  intros Hp. split; [|split; [|split; [|split]]].
  - cbn [BST.preorder]. brun. done.
  - cbn [BST.postorder]. brun. done.
  - cbn [BST.height]. brun. done.
  - intros -> ->. cbn [BST.inorder]. brun. cbn [BST.truthy]. 
    unfold BST.truthy. rewrite bool_decide_eq_false_2 by (intros H; by apply H).
    rewrite bst_bind_Return with (a := []) (h' := h) by done.
    brun. brun. rewrite bst_bind_Return with (a := [None]) (h' := h) by done.
    done.
  - intros v. cbn [BST.insert]. brun. unfold BST.py_eq.
    rewrite bool_decide_eq_false_2 by done. brun. done.
Qed.

Lemma none_node_is_empty_witness :
  BST.preorder 1 (Some 1%positive) (BST.store_of (BST.set_root 0 [None] ∅)) =
    BST.Return [] (BST.store_of (BST.set_root 0 [None] ∅)) /\
  BST.postorder 1 (Some 1%positive) (BST.store_of (BST.set_root 0 [None] ∅)) =
    BST.Return [] (BST.store_of (BST.set_root 0 [None] ∅)) /\
  BST.height 1 (Some 1%positive) (BST.store_of (BST.set_root 0 [None] ∅)) =
    BST.Return 0%nat (BST.store_of (BST.set_root 0 [None] ∅)) /\
  ((None : ref) = None -> (None : ref) = None ->
   BST.inorder 1 (Some 1%positive) (BST.store_of (BST.set_root 0 [None] ∅)) =
     BST.Return [None] (BST.store_of (BST.set_root 0 [None] ∅))) /\
  forall v, BST.insert 1 (Some 1%positive) (Some v) (BST.store_of (BST.set_root 0 [None] ∅)) =
            BST.Raise BST.TypeError (BST.store_of (BST.set_root 0 [None] ∅)).
Proof.
  apply (none_node_is_empty (BST.store_of (BST.set_root 0 [None] ∅)) 1%positive None None 0).
  vm_compute. reflexivity.
Defined.

(** ** Trees grown by [set_root] *)

Lemma bst_preorder_exact h : forall t fuel q,
  BST.rep h q t -> t ≠ Tip -> (levels t <= fuel)%nat ->
  BST.preorder fuel q h = BST.Return (Some <$> BST.preorder_of t) h.
Proof.
  induction t as [|l IHl p w r IHr]; intros fuel q Hrep Hne Hfuel; [done|].
  inversion Hrep as [|? ? ? ? pl pr Hp Hl Hr]; subst.
  destruct fuel as [|fuel]; [simpl in Hfuel; lia|]. simpl in Hfuel.
  cbn [BST.preorder]. brun. rewrite bool_decide_eq_false_2 by done. brun. brun.
  erewrite (bst_bind_Return _ _ _ (Some w :: (Some <$> BST.preorder_of l))); cycle 1.
  { rewrite (bst_rep_truthy _ _ _ Hl). destruct l; [done|].
    brun. erewrite bst_bind_Return by (apply (IHl fuel pl Hl); done || lia). done. }
  brun.
  erewrite (bst_bind_Return _ _ _ (Some <$> BST.preorder_of (Fork l p w r))); [done|].
  rewrite (bst_rep_truthy _ _ _ Hr).
  destruct r as [|rl rp rv rr].
  - rewrite bst_ret_eq. f_equal. cbn [BST.preorder_of].
    by rewrite app_nil_r, fmap_cons.
  - brun. erewrite bst_bind_Return by (apply (IHr fuel pr Hr); done || lia).
    rewrite bst_ret_eq. f_equal.
    change (BST.preorder_of (Fork l p w (Fork rl rp rv rr)))
      with (w :: BST.preorder_of l ++ BST.preorder_of (Fork rl rp rv rr)).
    by rewrite fmap_cons, fmap_app.
Qed.

Lemma bst_preorder_keys t : BST.preorder_of t ≡ₚ keys t.
Proof.
  induction t as [|l IHl p v r IHr]; simpl; [done|].
  rewrite IHl, IHr. apply Permutation_middle.
Qed.

Lemma bst_grown_left xs : forall a p v b t',
  Forall (fun x => x < v) xs -> BST.grown xs (Fork a p v b) t' ->
  exists a', t' = Fork a' p v b /\ BST.grown xs a a'.
Proof.
  induction xs as [|x xs IH]; intros a p v b t' Hall Hg.
  - inversion Hg; subst. exists a. split; [done|constructor].
  - inversion Hg as [|? ? new ? ? Hg']; subst.
    apply Forall_cons in Hall as [Hx Hall]. simpl in Hg'.
    rewrite (proj2 (Z.ltb_lt _ _) Hx) in Hg'.
    destruct (IH _ _ _ _ _ Hall Hg') as (a' & -> & Ha').
    exists a'. split; [done|]. by econstructor.
Qed.

Lemma bst_grown_right xs : forall a p v b t',
  Forall (fun x => v < x) xs -> BST.grown xs (Fork a p v b) t' ->
  exists b', t' = Fork a p v b' /\ BST.grown xs b b'.
Proof.
  induction xs as [|x xs IH]; intros a p v b t' Hall Hg.
  - inversion Hg; subst. exists b. split; [done|constructor].
  - inversion Hg as [|? ? new ? ? Hg']; subst.
    apply Forall_cons in Hall as [Hx Hall]. simpl in Hg'.
    replace (x <? v) with false in Hg' by lia.
    replace (x >? v) with true in Hg' by lia.
    destruct (IH _ _ _ _ _ Hall Hg') as (b' & -> & Hb').
    exists b'. split; [done|]. by econstructor.
Qed.

Lemma bst_grown_app xs ys : forall t t',
  BST.grown (xs ++ ys) t t' -> exists t1, BST.grown xs t t1 /\ BST.grown ys t1 t'.
Proof.
  induction xs as [|x xs IH]; intros t t' Hg; simpl in Hg.
  - exists t. split; [constructor|done].
  - inversion Hg as [|? ? new ? ? Hg']; subst.
    destruct (IH _ _ Hg') as (t1 & H1 & H2). exists t1. split; [|done].
    by econstructor.
Qed.

Lemma bst_grown_preorder t0 : bst t0 -> forall t',
  BST.grown (BST.preorder_of t0) Tip t' ->
  BST.preorder_of t' = BST.preorder_of t0 /\ keys t' = keys t0.
Proof.
  induction t0 as [|l IHl p v r IHr]; intros Hbst t' Hg.
  - inversion Hg; subst. done.
  - destruct Hbst as (Hbl & Hbr & Hlt & Hgt).
    simpl in Hg. inversion Hg as [|? ? new ? ? Hg']; subst. simpl in Hg'.
    apply bst_grown_app in Hg' as (t1 & H1 & H2).
    apply bst_grown_left in H1 as (a' & -> & Ha');
      [|by rewrite bst_preorder_keys].
    apply bst_grown_right in H2 as (b' & -> & Hb');
      [|by rewrite bst_preorder_keys].
    destruct (IHl Hbl _ Ha') as [Hl1 Hl2]. destruct (IHr Hbr _ Hb') as [Hr1 Hr2].
    simpl. by rewrite Hl1, Hl2, Hr1, Hr2.
Qed.

Lemma bst_grown_increasing xs : forall t',
  increasing xs = true -> BST.grown xs Tip t' ->
  levels t' = length xs /\ BST.preorder_of t' = xs.
Proof.
  induction xs as [|x xs IH]; intros t' Hinc Hg.
  - inversion Hg; subst. done.
  - apply increasing_cons in Hinc as [Hall Hinc].
    inversion Hg as [|? ? new ? ? Hg']; subst. simpl in Hg'.
    apply bst_grown_right in Hg' as (b' & -> & Hb'); [|done].
    destruct (IH _ Hinc Hb') as [Hlev Hpre]. simpl. by rewrite Hlev, Hpre.
Qed.

(** * Building trees with [set_root] *)

(** X24.  [preorder] writes a search tree down and [set_root] reads it
    back: called on the list that [preorder] returns, [set_root] builds a
    new tree of the same shape, one on which [preorder] and [inorder]
    return the same lists as on the original, and it leaves the original
    tree untouched. *)
Theorem preorder_rebuilds h p vs fuel :
  BST.holds h (Some p) vs -> (length vs <= fuel)%nat ->
  exists xs q h',
    BST.preorder fuel (Some p) h = BST.Return xs h /\
    BST.set_root fuel xs h = BST.Return (Some q) h' /\
    BST.preorder fuel (Some q) h' = BST.Return xs h' /\
    BST.inorder fuel (Some q) h' = BST.Return (Some <$> vs) h' /\
    (q ∉ dom h) /\
    (forall x, x ∈ dom h -> h' !! x = h !! x).
Proof.
  intros (t & Hrep & Hnd & Hbst & <- & Hne & Hlev)%bst_holds_tree Hfuel.
  pose proof (bst_preorder_exact h t fuel (Some p) Hrep Hne ltac:(lia)) as Epre.
  destruct t as [|l q w r]; [done|].
  assert (length (w :: BST.preorder_of l ++ BST.preorder_of r) <= fuel)%nat as Hlen.
  { change (length (BST.preorder_of (Fork l q w r)) <= fuel)%nat.
    by rewrite bst_preorder_keys. }
  destruct (bst_set_root_tree fuel w _ h Hlen) as
    (q' & h' & t' & E & Hrep' & Hnd' & Hbst' & Hk & Hframe & Hq' & Hv & Hg).
  assert (BST.grown (BST.preorder_of (Fork l q w r)) Tip t') as Hg'
    by (by econstructor).
  destruct (bst_grown_preorder _ Hbst _ Hg') as [Hpre Hkeys].
  assert (t' ≠ Tip) as Hne' by (intros ->; inversion Hrep').
  assert (levels t' <= fuel)%nat as Hlev'.
  { pose proof (bst_levels_keys t'). rewrite Hkeys in *. lia. }
  exists (Some <$> BST.preorder_of (Fork l q w r)), q', h'.
  split; [done|]. split; [done|]. split; [|split; [|done]].
  - rewrite <- Hpre. by apply bst_preorder_exact.
  - rewrite <- Hkeys. by apply bst_inorder_rep.
Qed.

Lemma preorder_rebuilds_witness :
  exists xs q h',
    BST.preorder 7 (Some 1%positive) BST.example_tree = BST.Return xs BST.example_tree /\
    BST.set_root 7 xs BST.example_tree = BST.Return (Some q) h' /\
    BST.preorder 7 (Some q) h' = BST.Return xs h' /\
    BST.inorder 7 (Some q) h' = BST.Return (Some <$> [5; 10; 12; 15; 20; 25; 30]) h' /\
    (q ∉ dom BST.example_tree) /\
    (forall x, x ∈ dom BST.example_tree -> h' !! x = BST.example_tree !! x).
Proof.
  apply (preorder_rebuilds BST.example_tree 1%positive [5; 10; 12; 15; 20; 25; 30] 7).
  - apply bst_example_holds.
  - simpl. lia.
Defined.

(** X25.  [set_root] does not balance: on a list of [n] values in strictly
    increasing order it builds a tree of height [n], every value the right
    child of the one before. *)
Theorem sorted_input_chain fuel first rest h0 :
  increasing (first :: rest) = true ->
  (length (first :: rest) <= fuel)%nat ->
  exists q h,
    BST.set_root fuel (Some <$> first :: rest) h0 = BST.Return (Some q) h /\
    BST.height fuel (Some q) h = BST.Return (length (first :: rest)) h /\
    BST.preorder fuel (Some q) h = BST.Return (Some <$> first :: rest) h.
Proof.
  intros Hinc Hfuel.
  destruct (bst_set_root_tree fuel first rest h0 Hfuel) as
    (q & h & t & E & Hrep & Hnd & Hbst & Hk & Hframe & Hq & Hv & Hg).
  assert (BST.grown (first :: rest) Tip t) as Hg' by (by econstructor).
  destruct (bst_grown_increasing _ _ Hinc Hg') as [Hlev Hpre].
  assert (t ≠ Tip) as Hne by (intros ->; inversion Hrep).
  exists q, h. split; [done|]. split.
  - rewrite <- Hlev. apply bst_height_rep; try done. lia.
  - rewrite <- Hpre. apply bst_preorder_exact; try done. lia.
Qed.

Lemma sorted_input_chain_witness :
  exists q h,
    BST.set_root 4 (Some <$> 1 :: [2; 3; 4]) ∅ = BST.Return (Some q) h /\
    BST.height 4 (Some q) h = BST.Return (length (1 :: [2; 3; 4])) h /\
    BST.preorder 4 (Some q) h = BST.Return (Some <$> 1 :: [2; 3; 4]) h.
Proof.
  apply (sorted_input_chain 4 1 [2; 3; 4] ∅).
  - reflexivity.
  - simpl. lia.
Defined.
